(** * cogs: the two tutorial renderers

    A shallow embedding of the rendering cores of
    [phase3-nativewindow/.../native_renderer.cpp] (the pixel renderer) and
    [phase4-opengl/.../gl_renderer.cpp] (the GPU renderer), and the
    properties of their specification.

    Both files compute in C++ [float].  The embedding is written once over
    an interface of the arithmetic the code uses ([FloatArith]) and run at
    two instances:
    - [binary32_arith]: IEEE 754 single precision, round to nearest even,
      on the standard library's [spec_float]; this is the arithmetic of the
      compiled code, and every evaluation of the code on a concrete input
      is done here;
    - [exact_arith]: the rationals, without rounding; the reading of the
      properties that speak of tolerance, continuity or linearity. *)

From Stdlib Require Import ZArith QArith Qround Qabs Lia Lqa Bool List FinFun.
From Stdlib Require Import Floats.SpecFloat.
From stdpp Require Import gmap strings.

#[local] Open Scope Z_scope.

(** ** The arithmetic of the code *)

(** What the two files do with [float] values.  [of_int] is the implicit
    conversion of an [int] operand, [to_int] is [static_cast<int>]
    (truncation toward zero; [None] where the conversion is undefined),
    [fltb] and [fleb] are [<] and [<=], [fmodf] is the C library function. *)
Class FloatArith (F : Type) := {
  of_int : Z -> F;
  to_int : F -> option Z;
  fadd : F -> F -> F;
  fsub : F -> F -> F;
  fmul : F -> F -> F;
  fdiv : F -> F -> F;
  fopp : F -> F;
  fltb : F -> F -> bool;
  fleb : F -> F -> bool;
  fmodf : F -> F -> F
}.

(** A decimal literal [n/d] with the suffix [f], such as [0.05f] = [flit 5 100]:
    the quotient of two exactly representable integers, rounded once. *)
Definition flit {F} `{FloatArith F} (n d : Z) : F := fdiv (of_int n) (of_int d).

(** [std::max(a, b)] is [(a < b) ? b : a] and [std::min(a, b)] is
    [(b < a) ? b : a]. *)
Definition fmax {F} `{FloatArith F} (a b : F) : F := if fltb a b then b else a.
Definition fmin {F} `{FloatArith F} (a b : F) : F := if fltb b a then b else a.

(** *** 32-bit [int] *)

Definition INT_MAX : Z := 2147483647.
Definition INT_MIN : Z := -2147483648.

(** Two's complement wrap-around of a signed 32-bit result. *)
Definition int_wrap (z : Z) : Z := (z + 2 ^ 31) mod 2 ^ 32 - 2 ^ 31.

Definition int_add (a b : Z) : Z := int_wrap (a + b).
Definition int_sub (a b : Z) : Z := int_wrap (a - b).
Definition int_mul (a b : Z) : Z := int_wrap (a * b).

Definition in_int_range (z : Z) : bool := (INT_MIN <=? z) && (z <=? INT_MAX).

(** *** Single precision *)

Module Binary32.

Definition prec : Z := 24.
Definition emax : Z := 128.

(** [(float) n]: the integer [n * 2^0], rounded to nearest even. *)
Definition b32_of_int (n : Z) : spec_float := binary_normalize prec emax n 0 false.

(** The integer part of [(-1)^s * m * 2^e]. *)
Definition trunc_finite (s : bool) (m : positive) (e : Z) : Z :=
  cond_Zopp s (match e with
               | Z0 => Zpos m
               | Zpos _ => Z.shiftl (Zpos m) e
               | Zneg p => Z.shiftr (Zpos m) (Zpos p)
               end).

(** [static_cast<int>(x)]; undefined for NaN, the infinities and values
    whose integer part is not an [int]. *)
Definition b32_to_int (x : spec_float) : option Z :=
  match x with
  | S754_zero _ => Some 0
  | S754_finite s m e =>
      let z := trunc_finite s m e in
      if in_int_range z then Some z else None
  | _ => None
  end.

(** [fmodf(x, y)]: [x - n*y] for the integer [n] that is [x/y] truncated
    toward zero; the result is always representable, so it is computed on
    the two mantissas aligned to the smaller exponent.  A zero result has
    the sign of [x]. *)
Definition b32_fmod (x y : spec_float) : spec_float :=
  match x, y with
  | S754_nan, _ | _, S754_nan => S754_nan
  | S754_infinity _, _ => S754_nan
  | _, S754_zero _ => S754_nan
  | S754_zero _, _ => x
  | S754_finite _ _ _, S754_infinity _ => x
  | S754_finite sx mx ex, S754_finite _ my ey =>
      let ez := Z.min ex ey in
      let X := Zpos (fst (shl_align mx ex ez)) in
      let Y := Zpos (fst (shl_align my ey ez)) in
      binary_normalize prec emax (cond_Zopp sx (Z.rem X Y)) ez sx
  end.

(** A value of the format: mantissa and exponent in canonical form. *)
Definition valid (x : spec_float) : bool := valid_binary prec emax x.

Definition finite (x : spec_float) : bool :=
  match x with
  | S754_zero _ | S754_finite _ _ _ => true
  | _ => false
  end.

(** The value of a finite number as an exact rational. *)
Definition to_Q (x : spec_float) : Q :=
  match x with
  | S754_finite s m e =>
      match e with
      | Zneg p => Qmake (cond_Zopp s (Zpos m)) (2 ^ p)
      | _ => inject_Z (cond_Zopp s (Zpos m) * 2 ^ e)
      end
  | _ => 0%Q
  end.

Definition one : spec_float := S754_finite false 8388608 (-23).
Definition zero : spec_float := S754_zero false.

Definition is_zero (x : spec_float) : bool :=
  match x with
  | S754_zero _ => true
  | _ => false
  end.

(** [y] is [x] up to the sign of a zero: what adding zeros to a finite [x]
    gives. *)
Definition same_number (y x : spec_float) : Prop :=
  match x with
  | S754_finite _ _ _ => y = x
  | S754_zero _ => is_zero y = true
  | _ => False
  end.

End Binary32.

#[export] Instance binary32_arith : FloatArith spec_float := {
  of_int := Binary32.b32_of_int;
  to_int := Binary32.b32_to_int;
  fadd := SFadd Binary32.prec Binary32.emax;
  fsub := SFsub Binary32.prec Binary32.emax;
  fmul := SFmul Binary32.prec Binary32.emax;
  fdiv := SFdiv Binary32.prec Binary32.emax;
  fopp := SFopp;
  fltb := SFltb;
  fleb := SFleb;
  fmodf := Binary32.b32_fmod
}.

(** *** Exact arithmetic *)

Module Exact.

(** The integer part of a rational, toward zero. *)
Definition Qtrunc (q : Q) : Z := Z.quot (Qnum q) (Zpos (Qden q)).

Definition Q_to_int (q : Q) : option Z :=
  let z := Qtrunc q in if in_int_range z then Some z else None.

Definition Qltb (x y : Q) : bool := negb (Qle_bool y x).

Definition Q_fmod (x y : Q) : Q := (x - y * inject_Z (Qtrunc (x / y)))%Q.

End Exact.

#[export] Instance exact_arith : FloatArith Q := {
  of_int := inject_Z;
  to_int := Exact.Q_to_int;
  fadd := Qplus;
  fsub := Qminus;
  fmul := Qmult;
  fdiv := Qdiv;
  fopp := Qopp;
  fltb := Exact.Qltb;
  fleb := Qle_bool;
  fmodf := Exact.Q_fmod
}.

(** ** The pixel renderer ([native_renderer.cpp]) *)

(** [for (int i = lo; i < hi; i++) body]: the body runs for
    [lo, lo+1, ..., hi-1] in that order, not at all when [hi <= lo]. *)
Fixpoint for_loop {S : Type} (n : nat) (i : Z) (body : Z -> S -> S) (s : S) : S :=
  match n with
  | O => s
  | Datatypes.S n' => for_loop n' (i + 1) body (body i s)
  end.

Definition for_range {S : Type} (lo hi : Z) (body : Z -> S -> S) (s : S) : S :=
  for_loop (Z.to_nat (hi - lo)) lo body s.

(** [WINDOW_FORMAT_RGBA_8888] of [android/native_window.h]. *)
Definition WINDOW_FORMAT_RGBA_8888 : Z := 1.

(** The fields of [ANativeWindow_Buffer] the renderer reads; [bits] is the
    pixel memory below. *)
Record ANativeWindow_Buffer := {
  width : Z;
  height : Z;
  stride : Z;
  format : Z
}.

(** The memory behind [buffer.bits], seen as an array of [uint32_t] cells
    indexed from the pointer, together with the indices written so far
    (the most recent first). *)
Record pixel_memory := {
  cells : Z -> Z;
  written : list Z
}.

(** [pixels[i] = c]. *)
Definition poke (i c : Z) (p : pixel_memory) : pixel_memory :=
  {| cells := fun j => if j =? i then c else cells p j;
     written := i :: written p |}.

(** A value stored in a [uint32_t]. *)
Definition uint32 (z : Z) : Z := z mod 2 ^ 32.

Definition bgColor (fmt : Z) : Z :=
  if fmt =? WINDOW_FORMAT_RGBA_8888
  then uint32 (Z.lor (Z.lor (Z.lor (Z.shiftl 20 0) (Z.shiftl 20 8)) (Z.shiftl 30 16)) (Z.shiftl 255 24))
  else uint32 (Z.lor (Z.lor (Z.lor (Z.shiftl 255 24) (Z.shiftl 20 16)) (Z.shiftl 20 8)) (Z.shiftl 30 0)).

Definition circleColor (fmt : Z) : Z :=
  if fmt =? WINDOW_FORMAT_RGBA_8888
  then uint32 (Z.lor (Z.lor (Z.lor (Z.shiftl 100 0) (Z.shiftl 150 8)) (Z.shiftl 255 16)) (Z.shiftl 255 24))
  else uint32 (Z.lor (Z.lor (Z.lor (Z.shiftl 255 24) (Z.shiftl 100 16)) (Z.shiftl 150 8)) (Z.shiftl 255 0)).

(** The index expression [y * stride + x], computed in [int]. *)
Definition pixel_index (b : ANativeWindow_Buffer) (y x : Z) : Z :=
  int_add (int_mul y (stride b)) x.

(** DRAW BACKGROUND: the two nested loops of [drawFrame]. *)
Definition fill_background (b : ANativeWindow_Buffer) (p : pixel_memory) : pixel_memory :=
  for_range 0 (height b) (fun y p =>
    for_range 0 (width b) (fun x p =>
      poke (pixel_index b y x) (bgColor (format b)) p) p) p.

Section PixelRenderer.
Context {F : Type} `{FloatArith F}.

(** The animation progress, 0 to 1 and back, from the time counter. *)
Definition progress_of (g_time : F) : F :=
  let cycle := fmodf g_time (of_int 4) in
  if fltb cycle (of_int 2)
  then fdiv cycle (of_int 2)
  else fsub (of_int 1) (fdiv (fsub cycle (of_int 2)) (of_int 2)).

Definition leftEdge : F := of_int 100.
Definition rightEdge (b : ANativeWindow_Buffer) : F := fsub (of_int (width b)) (of_int 100).

Definition circle_cx (b : ANativeWindow_Buffer) (g_time : F) : F :=
  fadd leftEdge (fmul (progress_of g_time) (fsub (rightEdge b) leftEdge)).

Definition circle_cy (b : ANativeWindow_Buffer) : F := fdiv (of_int (height b)) (of_int 2).

Definition radius : F := of_int 80.

(** The loop bounds [minY, maxY, minX, maxX] of the circle's bounding box;
    [None] when one of the four conversions to [int] is undefined. *)
Definition circle_bbox (b : ANativeWindow_Buffer) (cx cy : F) : option (Z * Z * Z * Z) :=
  match to_int (fsub cy radius), to_int (fadd cy radius),
        to_int (fsub cx radius), to_int (fadd cx radius) with
  | Some lowY, Some highY, Some lowX, Some highX =>
      Some (Z.max 0 lowY, Z.min (int_sub (height b) 1) highY,
            Z.max 0 lowX, Z.min (int_sub (width b) 1) highX)
  | _, _, _, _ => None
  end.

(** The test [distSq <= radiusSq] of the inner loop. *)
Definition inside_circle (cx cy : F) (x y : Z) : bool :=
  let dx := fsub (of_int x) cx in
  let dy := fsub (of_int y) cy in
  let distSq := fadd (fmul dx dx) (fmul dy dy) in
  fleb distSq (fmul radius radius).

(** DRAW ANIMATED CIRCLE: the two nested loops over the bounding box. *)
Definition draw_circle (b : ANativeWindow_Buffer) (cx cy : F) (box : Z * Z * Z * Z)
    (p : pixel_memory) : pixel_memory :=
  let '(minY, maxY, minX, maxX) := box in
  for_range minY (maxY + 1) (fun y p =>
    for_range minX (maxX + 1) (fun x p =>
      if inside_circle cx cy x y
      then poke (pixel_index b y x) (circleColor (format b)) p
      else p) p) p.

(** UPDATE ANIMATION: [g_time += 0.05f], back to 0 above 100. *)
Definition advance_time (g_time : F) : F :=
  let t := fadd g_time (flit 5 100) in
  if fltb (of_int 100) t then of_int 0 else t.

(** [drawFrame], from a locked buffer to the unlock: the new time counter
    and the pixel memory; [None] when a conversion to [int] is undefined. *)
Definition draw_locked (b : ANativeWindow_Buffer) (g_time : F) (p : pixel_memory)
    : option (F * pixel_memory) :=
  let p1 := fill_background b p in
  let cx := circle_cx b g_time in
  let cy := circle_cy b in
  match circle_bbox b cx cy with
  | Some box => Some (advance_time g_time, draw_circle b cx cy box p1)
  | None => None
  end.

(** [drawFrame]: nothing happens without a window or when
    [ANativeWindow_lock] fails ([lock = None]). *)
Definition drawFrame (g_window : option Z) (lock : option ANativeWindow_Buffer)
    (g_time : F) (p : pixel_memory) : option (F * pixel_memory) :=
  match g_window, lock with
  | Some _, Some b => draw_locked b g_time p
  | _, _ => Some (g_time, p)
  end.

End PixelRenderer.

(** ** The GPU renderer ([gl_renderer.cpp]): animation and matrices *)

(** The circle animation state: [g_circleX], [g_circleY], [g_velocityX],
    [g_velocityY]. *)
Record circle_state (F : Type) := {
  g_circleX : F;
  g_circleY : F;
  g_velocityX : F;
  g_velocityY : F
}.
Arguments g_circleX {F} _.
Arguments g_circleY {F} _.
Arguments g_velocityX {F} _.
Arguments g_velocityY {F} _.

(** Float memory addressed in units of one [float]: a [float*] is an
    address, [p[i]] is the cell at [p + i]. *)
Definition float_memory (F : Type) := Z -> F.

Definition fstore {F : Type} (m : float_memory F) (addr : Z) (v : F) : float_memory F :=
  fun j => if j =? addr then v else m j.

Section GpuRenderer.
Context {F : Type} `{FloatArith F}.

Definition g_circleRadius : F := flit 1 10.

(** The statics' initializers. *)
Definition initial_circle : circle_state F :=
  {| g_circleX := flit 5 10; g_circleY := flit 5 10;
     g_velocityX := flit 1 100; g_velocityY := flit 15 1000 |}.

(** The condition of each [if] of [updateAnimation], on the position
    already advanced. *)
Definition hits_edge (pos : F) : bool :=
  fltb (fsub pos g_circleRadius) (of_int 0) || fltb (of_int 1) (fadd pos g_circleRadius).

(** [std::max(g_circleRadius, std::min(1.0f - g_circleRadius, pos))]. *)
Definition clamp_pos (pos : F) : F :=
  fmax g_circleRadius (fmin (fsub (of_int 1) g_circleRadius) pos).

Definition updateAnimation (s : circle_state F) : circle_state F :=
  let s := {| g_circleX := fadd (g_circleX s) (g_velocityX s);
              g_circleY := g_circleY s;
              g_velocityX := g_velocityX s;
              g_velocityY := g_velocityY s |} in
  let s := {| g_circleX := g_circleX s;
              g_circleY := fadd (g_circleY s) (g_velocityY s);
              g_velocityX := g_velocityX s;
              g_velocityY := g_velocityY s |} in
  let s := if hits_edge (g_circleX s)
           then {| g_circleX := clamp_pos (g_circleX s);
                   g_circleY := g_circleY s;
                   g_velocityX := fopp (g_velocityX s);
                   g_velocityY := g_velocityY s |}
           else s in
  if hits_edge (g_circleY s)
  then {| g_circleX := g_circleX s;
          g_circleY := clamp_pos (g_circleY s);
          g_velocityX := g_velocityX s;
          g_velocityY := fopp (g_velocityY s) |}
  else s.

(** [n] consecutive frames. *)
Fixpoint animate (n : nat) (s : circle_state F) : circle_state F :=
  match n with
  | O => s
  | Datatypes.S n' => animate n' (updateAnimation s)
  end.

(** [createTranslationMatrix(matrix, tx, ty)]. *)
Definition createTranslationMatrix (matrix : Z) (tx ty : F) (m : float_memory F)
    : float_memory F :=
  let m := for_range 0 16 (fun i m => fstore m (matrix + i) (of_int 0)) m in
  let m := fstore m (matrix + 0) (of_int 1) in
  let m := fstore m (matrix + 5) (of_int 1) in
  let m := fstore m (matrix + 10) (of_int 1) in
  let m := fstore m (matrix + 12) tx in
  let m := fstore m (matrix + 13) ty in
  fstore m (matrix + 15) (of_int 1).

(** The first loop nest of [multiplyMatrix]: the local [temp], indexed
    from 0, filled from the memory at [a] and [b].  [temp] starts
    indeterminate; each cell is assigned before it is read. *)
Definition multiply_into_temp (a b : Z) (m : float_memory F) (temp : float_memory F)
    : float_memory F :=
  for_range 0 4 (fun i temp =>
    for_range 0 4 (fun j temp =>
      let temp := fstore temp (i * 4 + j) (of_int 0) in
      for_range 0 4 (fun k temp =>
        fstore temp (i * 4 + j)
          (fadd (temp (i * 4 + j)) (fmul (m (a + (i * 4 + k))) (m (b + (k * 4 + j))))))
        temp) temp) temp.

(** [multiplyMatrix(result, a, b)], with the indeterminate initial content
    of [temp] as a parameter. *)
Definition multiplyMatrix_from (temp0 : float_memory F) (result a b : Z) (m : float_memory F)
    : float_memory F :=
  let temp := multiply_into_temp a b m temp0 in
  for_range 0 16 (fun i m => fstore m (result + i) (temp i)) m.

Definition multiplyMatrix (result a b : Z) (m : float_memory F) : float_memory F :=
  multiplyMatrix_from (fun _ => of_int 0) result a b m.

(** The 16 cells of the matrix stored at [p], as a function of the index. *)
Definition matrix_at (m : float_memory F) (p : Z) : Z -> F := fun i => m (p + i).

(** The row-major product of two 4x4 matrices given by their 16 cells:
    entry [(i, j)] is the sum over [k] of [A(i,k) * B(k,j)], accumulated
    from 0 in the order of [k]. *)
Definition matrix_product (A B : Z -> F) (idx : Z) : F :=
  let i := idx / 4 in
  let j := idx mod 4 in
  fadd (fadd (fadd (fadd (of_int 0)
    (fmul (A (i * 4 + 0)) (B (0 * 4 + j))))
    (fmul (A (i * 4 + 1)) (B (1 * 4 + j))))
    (fmul (A (i * 4 + 2)) (B (2 * 4 + j))))
    (fmul (A (i * 4 + 3)) (B (3 * 4 + j))).

(** The identity matrix: 1 on the diagonal cells 0, 5, 10 and 15. *)
Definition identity_matrix (idx : Z) : F :=
  if idx mod 5 =? 0 then of_int 1 else of_int 0.

End GpuRenderer.

(** ** The GPU renderer: shader objects and initialization *)

(** The part of an OpenGL ES 2.0 context that [compileShader],
    [createProgram], [initGL] and [cleanupGL] act on, after the OpenGL ES
    2.0 specification: shader and program objects share one name space, 0
    names no object; a shader that is deleted while attached to a program
    is only flagged and goes when it is detached; a program that is deleted
    while current is only flagged.  Logging, the uniform values, the clear
    colour and the vertex data are not part of the model. *)
Inductive gl_object :=
| ShaderObject (type : Z) (source : string) (compiled : bool) (delete_flag : bool)
| ProgramObject (attached : list positive) (linked : bool) (delete_flag : bool).

Record gl_context := {
  objects : gmap positive gl_object;
  current_program : Z;
  buffers : gmap positive Z;
  array_buffer : Z
}.

(** What the driver decides: whether it can create one more object,
    whether a source compiles, whether the attached stages (type and
    source of each) link, and where it puts a uniform. *)
Record gl_driver := {
  creation_succeeds : gmap positive gl_object -> bool;
  compiles : Z -> string -> bool;
  links : list (Z * string) -> bool;
  uniform_location : string -> Z
}.

Definition GL_FRAGMENT_SHADER : Z := 35632.
Definition GL_VERTEX_SHADER : Z := 35633.

(** A computation in the context: the result and the context after it. *)
Definition GL (A : Type) : Type := gl_context -> A * gl_context.

Definition gl_ret {A : Type} (a : A) : GL A := fun c => (a, c).

Definition gl_bind {A B : Type} (m : GL A) (k : A -> GL B) : GL B :=
  fun c => let (a, c') := m c in k a c'.

Declare Scope gl_scope.
Delimit Scope gl_scope with gl.
Notation "'do' x <- m ; k" := (gl_bind m (fun x => k))
  (at level 10, x name, m at level 100, k at level 200) : gl_scope.
Notation "'run' m ; k" := (gl_bind m (fun _ => k))
  (at level 10, m at level 100, k at level 200) : gl_scope.

Definition with_objects (f : gmap positive gl_object -> gmap positive gl_object) : GL unit :=
  fun c => (tt, {| objects := f (objects c); current_program := current_program c;
                   buffers := buffers c; array_buffer := array_buffer c |}).

(** The object a handle names, if any. *)
Definition object_of (objs : gmap positive gl_object) (h : Z) : option gl_object :=
  match h with
  | Zpos n => objs !! n
  | _ => None
  end.

Definition is_attached_to (s : positive) (o : gl_object) : bool :=
  match o with
  | ProgramObject attached _ _ => bool_decide (s ∈ attached)
  | ShaderObject _ _ _ _ => false
  end.

(** Whether some program of the context has the shader [s] attached. *)
Definition attached_somewhere (objs : gmap positive gl_object) (s : positive) : bool :=
  existsb (fun no => is_attached_to s (snd no)) (map_to_list objs).

Definition glCreateShader (drv : gl_driver) (type : Z) : GL Z :=
  fun c =>
    if creation_succeeds drv (objects c)
    then let n := fresh (dom (objects c)) in
         (Zpos n, snd (with_objects (insert n (ShaderObject type EmptyString false false)) c))
    else (0, c).

Definition glShaderSource (shader : Z) (src : string) : GL unit :=
  match shader with
  | Zpos n => with_objects (alter (fun o => match o with
                                          | ShaderObject t _ cmp fl => ShaderObject t src cmp fl
                                          | _ => o
                                          end) n)
  | _ => gl_ret tt
  end.

Definition glCompileShader (drv : gl_driver) (shader : Z) : GL unit :=
  match shader with
  | Zpos n => with_objects (alter (fun o => match o with
                                          | ShaderObject t src _ fl =>
                                              ShaderObject t src (compiles drv t src) fl
                                          | _ => o
                                          end) n)
  | _ => gl_ret tt
  end.

(** [glGetShaderiv(shader, GL_COMPILE_STATUS, &compiled)]. *)
Definition glGetShaderiv_COMPILE_STATUS (shader : Z) : GL bool :=
  fun c => (match object_of (objects c) shader with
            | Some (ShaderObject _ _ cmp _) => cmp
            | _ => false
            end, c).

Definition glDeleteShader (shader : Z) : GL unit :=
  match shader with
  | Zpos n =>
      with_objects (fun objs =>
        match objs !! n with
        | Some (ShaderObject t src cmp _) =>
            if attached_somewhere objs n
            then <[n := ShaderObject t src cmp true]> objs
            else delete n objs
        | _ => objs
        end)
  | _ => gl_ret tt
  end.

Definition glCreateProgram (drv : gl_driver) : GL Z :=
  fun c =>
    if creation_succeeds drv (objects c)
    then let n := fresh (dom (objects c)) in
         (Zpos n, snd (with_objects (insert n (ProgramObject [] false false)) c))
    else (0, c).

Definition glAttachShader (program shader : Z) : GL unit :=
  match program, shader with
  | Zpos p, Zpos s =>
      with_objects (fun objs =>
        match objs !! p, objs !! s with
        | Some (ProgramObject att lnk fl), Some (ShaderObject _ _ _ _) =>
            if bool_decide (s ∈ att) then objs
            else <[p := ProgramObject (att ++ [s]) lnk fl]> objs
        | _, _ => objs
        end)
  | _, _ => gl_ret tt
  end.

(** The type and source of an attached stage, with whether it is compiled. *)
Definition stage_of (objs : gmap positive gl_object) (s : positive) : option (Z * string * bool) :=
  match objs !! s with
  | Some (ShaderObject t src cmp _) => Some (t, src, cmp)
  | _ => None
  end.

Definition glLinkProgram (drv : gl_driver) (program : Z) : GL unit :=
  match program with
  | Zpos p =>
      with_objects (fun objs =>
        match objs !! p with
        | Some (ProgramObject att _ fl) =>
            let stages := omap (stage_of objs) att in
            let ok := forallb (fun st => snd st) stages && links drv (map fst stages) in
            <[p := ProgramObject att ok fl]> objs
        | _ => objs
        end)
  | _ => gl_ret tt
  end.

(** [glGetProgramiv(program, GL_LINK_STATUS, &linked)]. *)
Definition glGetProgramiv_LINK_STATUS (program : Z) : GL bool :=
  fun c => (match object_of (objects c) program with
            | Some (ProgramObject _ lnk _) => lnk
            | _ => false
            end, c).

(** A shader flagged for deletion goes once no program has it attached. *)
Definition release_detached (objs : gmap positive gl_object) (s : positive)
    : gmap positive gl_object :=
  match objs !! s with
  | Some (ShaderObject _ _ _ true) =>
      if attached_somewhere objs s then objs else delete s objs
  | _ => objs
  end.

Definition glDeleteProgram (program : Z) : GL unit :=
  fun c =>
    match program with
    | Zpos p =>
        match objects c !! p with
        | Some (ProgramObject att lnk _) =>
            if current_program c =? program
            then with_objects (insert p (ProgramObject att lnk true)) c
            else with_objects (fun objs => fold_left release_detached att (delete p objs)) c
        | _ => (tt, c)
        end
    | _ => (tt, c)
    end.

(** [glGenBuffers(1, &name)], [glBindBuffer(GL_ARRAY_BUFFER, name)],
    [glBufferData(GL_ARRAY_BUFFER, size, data, usage)] (the size only) and
    [glDeleteBuffers(1, &name)]. *)
Definition glGenBuffers1 : GL Z :=
  fun c => let n := fresh (dom (buffers c)) in
    (Zpos n, {| objects := objects c; current_program := current_program c;
                buffers := <[n := 0]> (buffers c); array_buffer := array_buffer c |}).

Definition glBindBuffer_ARRAY (name : Z) : GL unit :=
  fun c => (tt, {| objects := objects c; current_program := current_program c;
                   buffers := buffers c; array_buffer := name |}).

Definition glBufferData_ARRAY (size : Z) : GL unit :=
  fun c => (tt, {| objects := objects c; current_program := current_program c;
                   buffers := match array_buffer c with
                              | Zpos n => alter (fun _ => size) n (buffers c)
                              | _ => buffers c
                              end;
                   array_buffer := array_buffer c |}).

Definition glDeleteBuffers1 (name : Z) : GL unit :=
  fun c => (tt, {| objects := objects c; current_program := current_program c;
                   buffers := match name with
                              | Zpos n => delete n (buffers c)
                              | _ => buffers c
                              end;
                   array_buffer := if array_buffer c =? name then 0 else array_buffer c |}).

#[local] Open Scope gl_scope.

(** [compileShader]: the shader handle, or 0 on failure. *)
Definition compileShader (drv : gl_driver) (shaderType : Z) (source : string) : GL Z :=
  do shader <- glCreateShader drv shaderType;
  if shader =? 0 then gl_ret 0
  else
    run glShaderSource shader source;
    run glCompileShader drv shader;
    do compiled <- glGetShaderiv_COMPILE_STATUS shader;
    if negb compiled
    then run glDeleteShader shader; gl_ret 0
    else gl_ret shader.

(** [createProgram]: the program handle, or 0 on failure. *)
Definition createProgram (drv : gl_driver) (vertexSource fragmentSource : string) : GL Z :=
  do vertexShader <- compileShader drv GL_VERTEX_SHADER vertexSource;
  if vertexShader =? 0 then gl_ret 0
  else
    do fragmentShader <- compileShader drv GL_FRAGMENT_SHADER fragmentSource;
    if fragmentShader =? 0
    then run glDeleteShader vertexShader; gl_ret 0
    else
      do program <- glCreateProgram drv;
      if program =? 0
      then run glDeleteShader vertexShader; run glDeleteShader fragmentShader; gl_ret 0
      else
        run glAttachShader program vertexShader;
        run glAttachShader program fragmentShader;
        run glLinkProgram drv program;
        do linked <- glGetProgramiv_LINK_STATUS program;
        if negb linked
        then
          run glDeleteProgram program;
          run glDeleteShader vertexShader;
          run glDeleteShader fragmentShader;
          gl_ret 0
        else
          run glDeleteShader vertexShader;
          run glDeleteShader fragmentShader;
          gl_ret program.

(** The statics of [gl_renderer.cpp] that hold handles and sizes. *)
Record gl_globals := {
  g_shaderProgram : Z;
  g_mvpMatrixLocation : Z;
  g_colorLocation : Z;
  g_vbo : Z;
  g_width : Z;
  g_height : Z
}.

Definition initial_globals : gl_globals :=
  {| g_shaderProgram := 0; g_mvpMatrixLocation := -1; g_colorLocation := -1;
     g_vbo := 0; g_width := 0; g_height := 0 |}.

Definition vertexShaderSource : string :=
  "
    // Attribute: per-vertex input data
    attribute vec4 aPosition;

    // Uniform: data that's the same for all vertices in a draw call
    uniform mat4 uMVPMatrix;

    void main() {
        // gl_Position is a built-in output variable
        // It tells the GPU where this vertex appears on screen
        gl_Position = uMVPMatrix * aPosition;
    }
".

Definition fragmentShaderSource : string :=
  "
    precision mediump float;

    // Uniform: color that's the same for all fragments
    uniform vec4 uColor;

    void main() {
        // gl_FragColor is a built-in output variable
        // It determines the final color of this pixel
        gl_FragColor = uColor;
    }
".

(** [initGL]: whether it succeeded, and the statics after it.  The vertex
    buffer holds [vertexCount * 2] floats of 4 bytes. *)
Definition initGL (drv : gl_driver) (g : gl_globals) : GL (bool * gl_globals) :=
  do program <- createProgram drv vertexShaderSource fragmentShaderSource;
  let g := {| g_shaderProgram := program;
              g_mvpMatrixLocation := g_mvpMatrixLocation g;
              g_colorLocation := g_colorLocation g;
              g_vbo := g_vbo g; g_width := g_width g; g_height := g_height g |} in
  if g_shaderProgram g =? 0 then gl_ret (false, g)
  else
    let segmentCount := 64 in
    let vertexCount := segmentCount + 2 in
    do vbo <- glGenBuffers1;
    run glBindBuffer_ARRAY vbo;
    run glBufferData_ARRAY (vertexCount * 2 * 4);
    gl_ret (true, {| g_shaderProgram := g_shaderProgram g;
                     g_mvpMatrixLocation := uniform_location drv "uMVPMatrix";
                     g_colorLocation := uniform_location drv "uColor";
                     g_vbo := vbo; g_width := g_width g; g_height := g_height g |}).

(** [cleanupGL]. *)
Definition cleanupGL (g : gl_globals) : GL gl_globals :=
  do g <- (if g_vbo g =? 0 then gl_ret g
           else run glDeleteBuffers1 (g_vbo g);
                gl_ret {| g_shaderProgram := g_shaderProgram g;
                          g_mvpMatrixLocation := g_mvpMatrixLocation g;
                          g_colorLocation := g_colorLocation g;
                          g_vbo := 0; g_width := g_width g; g_height := g_height g |});
  if g_shaderProgram g =? 0 then gl_ret g
  else run glDeleteProgram (g_shaderProgram g);
       gl_ret {| g_shaderProgram := 0;
                 g_mvpMatrixLocation := g_mvpMatrixLocation g;
                 g_colorLocation := g_colorLocation g;
                 g_vbo := g_vbo g; g_width := g_width g; g_height := g_height g |}.

#[local] Close Scope gl_scope.

(** ** The pixel renderer: the surface callbacks *)

(** The statics of [native_renderer.cpp]; [g_window = None] is [nullptr]. *)
Record native_state (F : Type) := {
  g_window : option Z;
  g_render_thread : Z;
  g_running : bool;
  g_time : F
}.
Arguments g_window {F} _.
Arguments g_render_thread {F} _.
Arguments g_running {F} _.
Arguments g_time {F} _.

(** What the platform holds for the renderer: the references acquired on
    each native window, the buffer format set on it, and the render
    threads that were started and not yet joined. *)
Record platform := {
  window_refs : Z -> Z;
  window_format : Z -> Z;
  threads : list Z
}.

(** [ANativeWindow_fromSurface] returns a window with one more reference,
    or [nullptr]. *)
Definition ANativeWindow_acquire (w : Z) (pf : platform) : platform :=
  {| window_refs := fun v => if v =? w then window_refs pf v + 1 else window_refs pf v;
     window_format := window_format pf;
     threads := threads pf |}.

Definition ANativeWindow_release (w : Z) (pf : platform) : platform :=
  {| window_refs := fun v => if v =? w then window_refs pf v - 1 else window_refs pf v;
     window_format := window_format pf;
     threads := threads pf |}.

Definition ANativeWindow_setBuffersGeometry (w fmt : Z) (pf : platform) : platform :=
  {| window_refs := window_refs pf;
     window_format := fun v => if v =? w then fmt else window_format pf v;
     threads := threads pf |}.

(** The outcome of [pthread_create(&g_render_thread, ...)]: the result
    code and what is left in the thread variable (its content is
    unspecified when the call fails).  The call itself only starts the
    thread; what the started thread then does is its body, [renderLoop]
    below. *)
Record pthread_outcome := {
  pc_result : Z;
  pc_thread : Z
}.

Definition pthread_create (out : pthread_outcome) (pf : platform) : platform :=
  if pc_result out =? 0
  then {| window_refs := window_refs pf; window_format := window_format pf;
          threads := pc_thread out :: threads pf |}
  else pf.

(** [nativeOnSurfaceCreated]: [from_surface] is what
    [ANativeWindow_fromSurface] finds for the surface, [out] the outcome
    of the thread creation. *)
Definition nativeOnSurfaceCreated {F : Type} (from_surface : option Z) (out : pthread_outcome)
    (s : native_state F) (pf : platform) : native_state F * platform :=
  match from_surface with
  | None =>
      ({| g_window := None; g_render_thread := g_render_thread s;
          g_running := g_running s; g_time := g_time s |}, pf)
  | Some w =>
      let pf := ANativeWindow_acquire w pf in
      let s := {| g_window := Some w; g_render_thread := g_render_thread s;
                  g_running := g_running s; g_time := g_time s |} in
      let pf := ANativeWindow_setBuffersGeometry w WINDOW_FORMAT_RGBA_8888 pf in
      let s := {| g_window := g_window s; g_render_thread := g_render_thread s;
                  g_running := true; g_time := g_time s |} in
      let pf := pthread_create out pf in
      let s := {| g_window := g_window s; g_render_thread := pc_thread out;
                  g_running := g_running s; g_time := g_time s |} in
      if negb (pc_result out =? 0)
      then
        let s := {| g_window := g_window s; g_render_thread := g_render_thread s;
                    g_running := false; g_time := g_time s |} in
        let pf := match g_window s with
                  | Some w => ANativeWindow_release w pf
                  | None => pf
                  end in
        ({| g_window := None; g_render_thread := g_render_thread s;
            g_running := g_running s; g_time := g_time s |}, pf)
      else (s, pf)
  end.

(** The state before any session: the statics' initializers. *)
Definition idle_state {F : Type} `{FloatArith F} : native_state F :=
  {| g_window := None; g_render_thread := 0; g_running := false; g_time := of_int 0 |}.

(** ** Auxiliary definitions for the statements *)

(** The values [i, i+1, ..., i+n-1] a loop counter takes. *)
Fixpoint zrange (i : Z) (n : nat) : list Z :=
  match n with
  | O => []
  | Datatypes.S n' => i :: zrange (i + 1) n'
  end.

(** The indices the background loops write, in the order of the writes. *)
Definition row_trace (b : ANativeWindow_Buffer) (y : Z) : list Z :=
  map (pixel_index b y) (zrange 0 (Z.to_nat (width b))).

Definition fill_trace (b : ANativeWindow_Buffer) : list Z :=
  flat_map (row_trace b) (zrange 0 (Z.to_nat (height b))).

Section AnimationProperties.
Context {F : Type} `{FloatArith F}.

(** Both coordinates of the centre within [[radius, 1 - radius]], the
    bounds compared as the code computes them. *)
Definition in_playable_region (s : circle_state F) : bool :=
  fleb g_circleRadius (g_circleX s) && fleb (g_circleX s) (fsub (of_int 1) g_circleRadius) &&
  fleb g_circleRadius (g_circleY s) && fleb (g_circleY s) (fsub (of_int 1) g_circleRadius).


(** What one call of [updateAnimation] does to one axis: the position
    and the velocity after it. *)
Definition axis_step (pos vel : F) : F * F :=
  let pos' := fadd pos vel in
  if hits_edge pos' then (clamp_pos pos', fopp vel) else (pos', vel).


End AnimationProperties.

(** A state of the GPU animation just below the upper bound, moving with
    the renderer's own velocity: x = 14931723 * 2^-24 (about 0.89000005). *)
Definition circle_near_edge : circle_state spec_float :=
  {| g_circleX := S754_finite false 14931723 (-24);
     g_circleY := flit 5 10;
     g_velocityX := flit 1 100;
     g_velocityY := flit 15 1000 |}.

(** *** Matrices of single-precision numbers *)

(** Every cell is a finite number of the format. *)
Definition finite_matrix (A : Z -> spec_float) : Prop :=
  forall i, 0 <= i < 16 -> Binary32.valid (A i) = true /\ Binary32.finite (A i) = true.

(** The accumulation of one cell of [multiplyMatrix]. *)
Definition dot4 (a0 b0 a1 b1 a2 b2 a3 b3 : spec_float) : spec_float :=
  fadd (fadd (fadd (fadd Binary32.zero (fmul a0 b0)) (fmul a1 b1)) (fmul a2 b2)) (fmul a3 b3).

(** The region test on [n] consecutive states of the animation, computed
    along the run. *)
Fixpoint region_holds_for (n : nat) (s : circle_state spec_float) : bool :=
  match n with
  | O => true
  | Datatypes.S n' => in_playable_region s && region_holds_for n' (updateAnimation s)
  end.

(** ** Sample inputs *)

(** The 800 x 480 buffer of the specification's scenario, and narrow ones. *)
Definition buffer_800x480 : ANativeWindow_Buffer :=
  {| width := 800; height := 480; stride := 800; format := WINDOW_FORMAT_RGBA_8888 |}.

Definition buffer_200x480 : ANativeWindow_Buffer :=
  {| width := 200; height := 480; stride := 200; format := WINDOW_FORMAT_RGBA_8888 |}.

(** A buffer as the window hands it out: [int] fields, rows of [stride]
    cells of which the first [width] are pixels, and indices that fit an
    [int]. *)
Definition valid_buffer (b : ANativeWindow_Buffer) : Prop :=
  0 <= width b <= stride b /\ 0 <= height b /\
  stride b <= INT_MAX /\ height b <= INT_MAX /\
  height b * stride b <= INT_MAX.

(** Pixel memory that nothing was written to. *)
Definition blank_memory : pixel_memory := {| cells := fun _ => 0; written := [] |}.

(** The time counter after [n] frames that started at [t]. *)
Fixpoint time_after {F : Type} `{FloatArith F} (n : nat) (t : F) : F :=
  match n with
  | O => t
  | Datatypes.S n' => time_after n' (advance_time t)
  end.

(** The time counter of the tenth frame of a session, in single precision
    (9 additions of 0.05f to 0: 15099496 * 2^-25, about 0.45000005). *)
Definition tenth_frame_time : spec_float := time_after 9 (of_int 0).

(** A context in which the attachments and the current program name
    objects that exist. *)
Definition gl_wf (c : gl_context) : Prop :=
  (forall p att lnk fl s,
     objects c !! p = Some (ProgramObject att lnk fl) -> s ∈ att ->
     is_Some (objects c !! s)) /\
  (forall n, current_program c = Zpos n -> is_Some (objects c !! n)).

(** The context with another object table. *)
Definition set_objects (c : gl_context) (objs : gmap positive gl_object) : gl_context :=
  {| objects := objs; current_program := current_program c;
     buffers := buffers c; array_buffer := array_buffer c |}.

(** A context without objects, and a driver on which the vertex stage
    compiles and the fragment stage does not. *)
Definition empty_context : gl_context :=
  {| objects := ∅; current_program := 0; buffers := ∅; array_buffer := 0 |}.

Definition fragment_rejecting_driver : gl_driver :=
  {| creation_succeeds := fun _ => true;
     compiles := fun type _ => type =? GL_VERTEX_SHADER;
     links := fun _ => true;
     uniform_location := fun _ => 0 |}.

(** A platform on which nothing is acquired or running, and a failed
    thread creation (result [EAGAIN]). *)
Definition quiet_platform : platform :=
  {| window_refs := fun _ => 0; window_format := fun _ => 0; threads := [] |}.

Definition failed_thread_creation : pthread_outcome :=
  {| pc_result := 11; pc_thread := 0 |}.

(** A 3 x 2 buffer whose rows are padded to 4 cells. *)
Definition padded_buffer : ANativeWindow_Buffer :=
  {| width := 3; height := 2; stride := 4; format := WINDOW_FORMAT_RGBA_8888 |}.

(** A matrix with an infinite cell in its first row. *)
Definition matrix_with_infinity (idx : Z) : spec_float :=
  if idx =? 0 then S754_infinity false else of_int (idx + 1).

(** A buffer of two rows, so wide that not every column index is a
    single-precision number (16777516 > 2^24). *)
Definition wide_buffer : ANativeWindow_Buffer :=
  {| width := 16777516; height := 2; stride := 16777516; format := WINDOW_FORMAT_RGBA_8888 |}.

(** A state of the GPU animation, in exact arithmetic, one step before the
    right edge: x = 0.895, moving right by 0.01. *)
Definition circle_before_edge : circle_state Q :=
  {| g_circleX := 895 # 1000; g_circleY := 1 # 2;
     g_velocityX := 1 # 100; g_velocityY := 15 # 1000 |}.





(** ** The pixel renderer: the end of a session *)

(** [pthread_join(t, nullptr)] returns when the thread has terminated; it
    is then no longer among the started threads. *)
Fixpoint remove_thread (t : Z) (l : list Z) : list Z :=
  match l with
  | [] => []
  | h :: rest => if h =? t then rest else h :: remove_thread t rest
  end.

Definition pthread_join (t : Z) (pf : platform) : platform :=
  {| window_refs := window_refs pf;
     window_format := window_format pf;
     threads := remove_thread t (threads pf) |}.

(** [nativeOnSurfaceDestroyed]. *)
Definition nativeOnSurfaceDestroyed {F : Type} (s : native_state F) (pf : platform)
    : native_state F * platform :=
  let s := {| g_window := g_window s; g_render_thread := g_render_thread s;
              g_running := false; g_time := g_time s |} in
  let '(s, pf) :=
    if negb (g_render_thread s =? 0)
    then ({| g_window := g_window s; g_render_thread := 0;
             g_running := g_running s; g_time := g_time s |},
          pthread_join (g_render_thread s) pf)
    else (s, pf) in
  match g_window s with
  | Some w =>
      ({| g_window := None; g_render_thread := g_render_thread s;
          g_running := g_running s; g_time := g_time s |},
       ANativeWindow_release w pf)
  | None => (s, pf)
  end.

(** [renderLoop], the body of the render thread: as long as it finds
    [g_running] set, it draws one frame and sleeps.  [locks] lists, for
    the iterations the thread gets to run, what [ANativeWindow_lock]
    answers in each of them ([None] when it fails); the pixel memory is
    that of the locked buffers.  The result is [None] when a frame meets a
    conversion that is undefined. *)
Fixpoint renderLoop {F : Type} `{FloatArith F} (locks : list (option ANativeWindow_Buffer))
    (s : native_state F) (p : pixel_memory) : option (native_state F * pixel_memory) :=
  match locks with
  | [] => Some (s, p)
  | lock :: rest =>
      if g_running s
      then match drawFrame (g_window s) lock (g_time s) p with
           | Some (t', p') =>
               renderLoop rest
                 {| g_window := g_window s; g_render_thread := g_render_thread s;
                    g_running := g_running s; g_time := t' |} p'
           | None => None
           end
      else Some (s, p)
  end.

(** The iterations in which the buffer was locked. *)
Fixpoint locked_frames (locks : list (option ANativeWindow_Buffer)) : nat :=
  match locks with
  | [] => O
  | Some _ :: rest => Datatypes.S (locked_frames rest)
  | None :: rest => locked_frames rest
  end.

(** ** The GPU renderer: the matrices of a frame *)

Section GpuMatrices.
Context {F : Type} `{FloatArith F}.

(** [createOrthoMatrix(matrix, left, right, bottom, top)]. *)
Definition createOrthoMatrix (matrix : Z) (left right bottom top : F) (m : float_memory F)
    : float_memory F :=
  let m := for_range 0 16 (fun i m => fstore m (matrix + i) (of_int 0)) m in
  let m := fstore m (matrix + 0) (fdiv (of_int 2) (fsub right left)) in
  let m := fstore m (matrix + 5) (fdiv (of_int 2) (fsub top bottom)) in
  let m := fstore m (matrix + 10) (fopp (of_int 1)) in
  let m := fstore m (matrix + 12) (fdiv (fopp (fadd right left)) (fsub right left)) in
  let m := fstore m (matrix + 13) (fdiv (fopp (fadd top bottom)) (fsub top bottom)) in
  fstore m (matrix + 15) (of_int 1).

(** [static_cast<float>(g_width) / static_cast<float>(g_height)]. *)
Definition aspect_of (g : gl_globals) : F := fdiv (of_int (g_width g)) (of_int (g_height g)).

(** The matrix part of [renderFrame]: the three local arrays are at the
    addresses [projectionMatrix], [modelMatrix] and [mvpMatrix]. *)
Definition renderFrame_matrices (projectionMatrix modelMatrix mvpMatrix : Z)
    (g : gl_globals) (s : circle_state F) (m : float_memory F) : float_memory F :=
  let aspect := aspect_of g in
  let m := if fleb (of_int 1) aspect
           then createOrthoMatrix projectionMatrix (fopp aspect) aspect
                  (fopp (of_int 1)) (of_int 1) m
           else createOrthoMatrix projectionMatrix (fopp (of_int 1)) (of_int 1)
                  (fdiv (fopp (of_int 1)) aspect) (fdiv (of_int 1) aspect) m in
  let circleX := fmul (fsub (fmul (g_circleX s) (of_int 2)) (of_int 1)) aspect in
  let circleY := fsub (fmul (g_circleY s) (of_int 2)) (of_int 1) in
  let m := createTranslationMatrix modelMatrix circleX circleY m in
  let m := fstore m (modelMatrix + 0) (fmul g_circleRadius aspect) in
  let m := fstore m (modelMatrix + 5) g_circleRadius in
  multiplyMatrix mvpMatrix projectionMatrix modelMatrix m.

(** [gl_Position = uMVPMatrix * aPosition] of the vertex shader, for a
    vertex [(x, y)] of the array: the attribute is read with two
    components per vertex, so [aPosition] is [(x, y, 0, 1)]; the uniform
    is loaded with [transpose = GL_FALSE], so cell [c * 4 + r] of the
    array is column [c], row [r] of the matrix. *)
Definition gl_Position (M : Z -> F) (x y : F) : F * F * F * F :=
  let row r :=
    fadd (fadd (fadd (fmul (M (0 * 4 + r)) x) (fmul (M (1 * 4 + r)) y))
               (fmul (M (2 * 4 + r)) (of_int 0)))
         (fmul (M (3 * 4 + r)) (of_int 1)) in
  (row 0, row 1, row 2, row 3).

(** [generateCircleVertices(vertices, segmentCount, radius)].  The angle
    of step [i] is the [double] expression [2.0f * M_PI * i / segmentCount]
    converted to [float]; its value and the results of [cosf] and [sinf]
    are those of the platform's library, given here as [angle_of], [cosf]
    and [sinf].  The indices are computed in [int]. *)
Definition generateCircleVertices (angle_of : Z -> Z -> F) (cosf sinf : F -> F)
    (vertices : Z) (segmentCount : Z) (radius : F) (m : float_memory F) : float_memory F :=
  let m := fstore m (vertices + 0) (of_int 0) in
  let m := fstore m (vertices + 1) (of_int 0) in
  for_range 0 (segmentCount + 1) (fun i m =>
    let angle := angle_of i segmentCount in
    let m := fstore m (vertices + int_add (int_mul (int_add i 1) 2) 0)
               (fmul radius (cosf angle)) in
    fstore m (vertices + int_add (int_mul (int_add i 1) 2) 1)
      (fmul radius (sinf angle))) m.

End GpuMatrices.

(** ** The GPU renderer: the context during a frame *)

(** A program flagged for deletion goes when it stops being current; the
    shaders it had attached are detached with it. *)
Definition leave_current (old : Z) (objs : gmap positive gl_object) : gmap positive gl_object :=
  match old with
  | Zpos p =>
      match objs !! p with
      | Some (ProgramObject att _ true) => fold_left release_detached att (delete p objs)
      | _ => objs
      end
  | _ => objs
  end.

(** [glUseProgram(program)]: 0 or a linked program object becomes current;
    anything else is an error and changes nothing. *)
Definition glUseProgram (program : Z) : GL unit :=
  fun c =>
    let usable :=
      match program with
      | 0 => true
      | _ => match object_of (objects c) program with
             | Some (ProgramObject _ true _) => true
             | _ => false
             end
      end in
    if usable && negb (current_program c =? program)
    then (tt, {| objects := leave_current (current_program c) (objects c);
                 current_program := program;
                 buffers := buffers c; array_buffer := array_buffer c |})
    else (tt, c).

#[local] Open Scope gl_scope.

(** What [renderFrame] changes in the context: the current program and the
    buffer binding.  (Clearing, the uniform values, the attribute array
    and the draw call act on state that is not part of the model.) *)
Definition renderFrame_context (g : gl_globals) : GL unit :=
  run glUseProgram (g_shaderProgram g);
  glBindBuffer_ARRAY (g_vbo g).

#[local] Close Scope gl_scope.

(** ** Auxiliary definitions for the further properties *)

(** The cell [y * stride + x] of a pixel of the buffer. *)
Definition logical_pixel (b : ANativeWindow_Buffer) (i : Z) : Prop :=
  exists x y, 0 <= x < width b /\ 0 <= y < height b /\ i = y * stride b + x.

(** [p'] is [p] after writes that went to cells satisfying [P] only. *)
Definition writes_within (P : Z -> Prop) (p p' : pixel_memory) : Prop :=
  (exists ws, written p' = ws ++ written p /\ Forall P ws) /\
  (forall j, ~ P j -> cells p' j = cells p j).

(** The time counter stays within [[0, 100]] for [n] consecutive frames,
    computed along the run. *)
Fixpoint time_in_range_for (n : nat) (t : spec_float) : bool :=
  match n with
  | O => true
  | Datatypes.S n' =>
      fleb (of_int 0) t && fleb t (of_int 100) && time_in_range_for n' (advance_time t)
  end.

(** A translation by [(tx, ty)] as [createTranslationMatrix] lays it out. *)
Definition translation_matrix {F : Type} `{FloatArith F} (tx ty : F) (idx : Z) : F :=
  if idx =? 12 then tx
  else if idx =? 13 then ty
  else identity_matrix idx.

(** The projection as [createOrthoMatrix] lays it out. *)
Definition ortho_matrix {F : Type} `{FloatArith F} (left right bottom top : F) (idx : Z) : F :=
  if idx =? 0 then fdiv (of_int 2) (fsub right left)
  else if idx =? 5 then fdiv (of_int 2) (fsub top bottom)
  else if idx =? 10 then fopp (of_int 1)
  else if idx =? 12 then fdiv (fopp (fadd right left)) (fsub right left)
  else if idx =? 13 then fdiv (fopp (fadd top bottom)) (fsub top bottom)
  else if idx =? 15 then of_int 1
  else of_int 0.

(** Two arrays of 16 floats that do not overlap. *)
Definition disjoint_matrices (a b : Z) : Prop := a + 16 <= b \/ b + 16 <= a.

(** A driver that accepts everything. *)
Definition accepting_driver : gl_driver :=
  {| creation_succeeds := fun _ => true;
     compiles := fun _ _ => true;
     links := fun _ => true;
     uniform_location := fun name => if String.eqb name "uMVPMatrix" then 0 else 1 |}.

(** A successful thread creation, and a surface of 1080 x 1920 and one of
    1920 x 1080. *)
Definition started_thread : pthread_outcome := {| pc_result := 0; pc_thread := 4096 |}.

Definition portrait_globals : gl_globals :=
  {| g_shaderProgram := 3; g_mvpMatrixLocation := 0; g_colorLocation := 1;
     g_vbo := 1; g_width := 1080; g_height := 1920 |}.

Definition landscape_globals : gl_globals :=
  {| g_shaderProgram := 3; g_mvpMatrixLocation := 0; g_colorLocation := 1;
     g_vbo := 1; g_width := 1920; g_height := 1080 |}.


(** * Properties *)

(** ** The background fill *)

Lemma int_wrap_id z : INT_MIN <= z <= INT_MAX -> int_wrap z = z.
Proof.
  unfold INT_MIN, INT_MAX, int_wrap. intros Hz.
  rewrite Z.mod_small by lia. lia.
Qed.

Lemma In_zrange k n i : In k (zrange i n) <-> i <= k < i + Z.of_nat n.
Proof.
  revert i. induction n as [|n IH]; intros i; simpl.
  - lia.
  - rewrite IH. lia.
Qed.

Lemma length_zrange n i : length (zrange i n) = n.
Proof. revert i. induction n as [|n IH]; intros i; simpl; [|rewrite IH]; reflexivity. Qed.

Lemma NoDup_zrange n i : List.NoDup (zrange i n).
Proof.
  revert i. induction n as [|n IH]; intros i; simpl; constructor.
  - rewrite In_zrange. lia.
  - apply IH.
Qed.

Lemma for_loop_poke_written (f : Z -> Z) (c : Z) n i p :
  written (for_loop n i (fun x p => poke (f x) c p) p)
  = rev (map f (zrange i n)) ++ written p.
Proof.
  revert i p. induction n as [|n IH]; intros i p; simpl.
  - reflexivity.
  - rewrite IH. simpl. rewrite <- app_assoc. reflexivity.
Qed.

Lemma for_loop_rows_written (row : Z -> list Z) (body : Z -> pixel_memory -> pixel_memory) :
  (forall y p, written (body y p) = rev (row y) ++ written p) ->
  forall n i p,
    written (for_loop n i body p) = rev (flat_map row (zrange i n)) ++ written p.
Proof.
  intros Hbody. induction n as [|n IH]; intros i p; simpl.
  - reflexivity.
  - rewrite IH, Hbody, rev_app_distr, <- app_assoc. reflexivity.
Qed.

Lemma fill_background_written b p :
  written (fill_background b p) = rev (fill_trace b) ++ written p.
Proof.
  unfold fill_background, fill_trace, for_range. rewrite !Z.sub_0_r.
  apply for_loop_rows_written. intros y q.
  unfold row_trace. apply for_loop_poke_written.
Qed.

Lemma length_flat_map_const {A B} (f : A -> list B) (l : list A) (n : nat) :
  (forall a, In a l -> length (f a) = n) -> length (flat_map f l) = (length l * n)%nat.
Proof.
  induction l as [|a l IH]; intros Hf; simpl.
  - reflexivity.
  - rewrite length_app, IH, Hf; [lia | now left | intros; apply Hf; now right].
Qed.

Lemma pixel_index_exact b y x :
  0 <= width b <= stride b -> height b * stride b <= INT_MAX ->
  0 <= y < height b -> 0 <= x < width b ->
  pixel_index b y x = y * stride b + x.
Proof.
  intros Hw Hs Hy Hx. unfold pixel_index, int_add, int_mul.
  assert (0 <= y * stride b) by nia.
  assert (y * stride b + stride b <= height b * stride b) by nia.
  rewrite (int_wrap_id (y * stride b)) by (unfold INT_MIN; lia).
  apply int_wrap_id. unfold INT_MIN. lia.
Qed.

Lemma In_fill_trace b i :
  In i (fill_trace b) <->
  exists y x, 0 <= y < height b /\ 0 <= x < width b /\ i = pixel_index b y x.
Proof.
  unfold fill_trace, row_trace. rewrite in_flat_map. split.
  - intros (y & Hy & Hi). apply in_map_iff in Hi as (x & <- & Hx).
    apply In_zrange in Hy, Hx. exists y, x. repeat split; lia.
  - intros (y & x & Hy & Hx & ->). exists y. split.
    + apply In_zrange. lia.
    + apply in_map, In_zrange. lia.
Qed.

Lemma NoDup_flat_map {A B} (f : A -> list B) (l : list A) :
  List.NoDup l ->
  (forall a, In a l -> List.NoDup (f a)) ->
  (forall a a' x, In a l -> In a' l -> In x (f a) -> In x (f a') -> a = a') ->
  List.NoDup (flat_map f l).
Proof.
  induction 1 as [|a l Hal Hl IH]; intros Hf Hdisj; simpl.
  - constructor.
  - apply List.NoDup_app.
    + apply Hf. now left.
    + apply IH.
      * intros a' Ha'. apply Hf. now right.
      * intros a1 a2 x H1 H2. apply Hdisj; now right.
    + intros x Hx Hx'.
      apply in_flat_map in Hx' as (a' & Ha' & Hx').
      assert (a = a') by (apply (Hdisj a a' x); simpl; auto).
      subst a'. contradiction.
Qed.

Lemma NoDup_fill_trace b :
  0 <= width b <= stride b -> height b * stride b <= INT_MAX ->
  List.NoDup (fill_trace b).
Proof.
  intros Hw Hs. unfold fill_trace. apply NoDup_flat_map.
  - apply NoDup_zrange.
  - intros y Hy. apply In_zrange in Hy. unfold row_trace.
    apply Finite.Injective_map_NoDup_in; [|apply NoDup_zrange].
    intros x x' Hx Hx' E. apply In_zrange in Hx, Hx'.
    rewrite !pixel_index_exact in E by lia. lia.
  - intros y y' i Hy Hy' Hi Hi'. apply In_zrange in Hy, Hy'.
    unfold row_trace in Hi, Hi'.
    apply in_map_iff in Hi as (x & <- & Hx), Hi' as (x' & E & Hx').
    apply In_zrange in Hx, Hx'.
    rewrite !pixel_index_exact in E by lia. nia.
Qed.

Lemma length_fill_trace b :
  length (fill_trace b) = (Z.to_nat (height b) * Z.to_nat (width b))%nat.
Proof.
  unfold fill_trace.
  rewrite (length_flat_map_const _ _ (Z.to_nat (width b))).
  - now rewrite length_zrange.
  - intros y _. unfold row_trace. now rewrite length_map, length_zrange.
Qed.

(** C1. For a buffer with [stride >= width >= 0] whose indices fit an
    [int], the background loops add to the writes a list [ws] of
    [height * width] distinct indices (none for [height <= 0]): exactly the
    indices [y * stride + x] of the logical pixels [0 <= x < width],
    [0 <= y < height]; all of them are below [height * stride], and none
    lies in the padding [[row * stride + width, row * stride + stride)] of
    any row. *)
Theorem fill_background_touches_logical_pixels (b : ANativeWindow_Buffer) (p : pixel_memory) :
  0 <= width b <= stride b ->
  height b * stride b <= INT_MAX ->
  exists ws,
    written (fill_background b p) = ws ++ written p /\
    length ws = (Z.to_nat (height b) * Z.to_nat (width b))%nat /\
    List.NoDup ws /\
    (forall i, In i ws <->
       exists x y, 0 <= x < width b /\ 0 <= y < height b /\ i = y * stride b + x) /\
    (forall i, In i ws -> 0 <= i < height b * stride b) /\
    (forall i row, In i ws -> ~ (row * stride b + width b <= i < row * stride b + stride b)).
Proof.
  intros Hw Hs. exists (rev (fill_trace b)).
  assert (Hin : forall i, In i (rev (fill_trace b)) <->
       exists x y, 0 <= x < width b /\ 0 <= y < height b /\ i = y * stride b + x).
  { intros i. rewrite <- in_rev, In_fill_trace. split.
    - intros (y & x & Hy & Hx & ->). exists x, y.
      rewrite pixel_index_exact by assumption. auto.
    - intros (x & y & Hx & Hy & ->). exists y, x.
      rewrite pixel_index_exact by assumption. auto. }
  split; [apply fill_background_written|].
  split; [rewrite length_rev; apply length_fill_trace|].
  split; [apply NoDup_rev, NoDup_fill_trace; assumption|].
  split; [exact Hin|]. split.
  - intros i Hi. apply Hin in Hi as (x & y & Hx & Hy & ->). nia.
  - intros i row Hi. apply Hin in Hi as (x & y & Hx & Hy & ->).
    destruct (Z.lt_trichotomy row y) as [Hlt | [-> | Hgt]]; nia.
Qed.

Lemma fill_background_touches_logical_pixels_witness :
  0 <= width padded_buffer <= stride padded_buffer /\
  height padded_buffer * stride padded_buffer <= INT_MAX /\
  exists ws,
    written (fill_background padded_buffer blank_memory) = ws ++ written blank_memory /\
    length ws = (Z.to_nat (height padded_buffer) * Z.to_nat (width padded_buffer))%nat /\
    List.NoDup ws /\
    (forall i, In i ws <->
       exists x y, 0 <= x < width padded_buffer /\ 0 <= y < height padded_buffer /\
                   i = y * stride padded_buffer + x) /\
    (forall i, In i ws -> 0 <= i < height padded_buffer * stride padded_buffer) /\
    (forall i row, In i ws ->
       ~ (row * stride padded_buffer + width padded_buffer <= i
          < row * stride padded_buffer + stride padded_buffer)).
Proof.
  assert (Hw : 0 <= width padded_buffer <= stride padded_buffer) by (vm_compute; split; congruence).
  assert (Hs : height padded_buffer * stride padded_buffer <= INT_MAX) by (vm_compute; congruence).
  split; [exact Hw|]. split; [exact Hs|].
  exact (fill_background_touches_logical_pixels padded_buffer blank_memory Hw Hs).
Defined.

(** The writes of the padded 3 x 2 buffer, oldest first: cells 3 and 7 are
    padding. *)
Example fill_background_padded :
  rev (written (fill_background padded_buffer blank_memory)) = [0; 1; 2; 4; 5; 6].
Proof. reflexivity. Qed.

(** *** Matrix product *)

Ltac matrix_cell_cases idx :=
  let Hcases := fresh "Hcases" in
  assert (Hcases : idx = 0 \/ idx = 1 \/ idx = 2 \/ idx = 3 \/ idx = 4 \/ idx = 5 \/
                   idx = 6 \/ idx = 7 \/ idx = 8 \/ idx = 9 \/ idx = 10 \/ idx = 11 \/
                   idx = 12 \/ idx = 13 \/ idx = 14 \/ idx = 15) by lia;
  repeat (destruct Hcases as [-> | Hcases]); try subst idx.

Ltac cell_in_range := vm_compute; split; congruence.

Section MatrixProduct.
Context {F : Type} `{FloatArith F}.

Lemma for_loop_fstore_other (g : Z -> F) (base addr : Z) n i (m : float_memory F) :
  ~ (base + i <= addr < base + i + Z.of_nat n) ->
  for_loop n i (fun k m => fstore m (base + k) (g k)) m addr = m addr.
Proof.
  revert i m. induction n as [|n IH]; intros i m Hout; simpl.
  - reflexivity.
  - rewrite IH by lia. unfold fstore.
    destruct (Z.eqb_spec addr (base + i)); [lia | reflexivity].
Qed.

Lemma for_loop_fstore_at (g : Z -> F) (base : Z) n i (m : float_memory F) idx :
  i <= idx < i + Z.of_nat n ->
  for_loop n i (fun k m => fstore m (base + k) (g k)) m (base + idx) = g idx.
Proof.
  revert i m. induction n as [|n IH]; intros i m Hin; simpl.
  - lia.
  - destruct (Z.eq_dec idx i) as [-> | Hne].
    + rewrite for_loop_fstore_other by lia. unfold fstore.
      now rewrite Z.eqb_refl.
    + apply IH. lia.
Qed.

Lemma multiply_into_temp_cell (a b : Z) (m temp0 : float_memory F) idx :
  0 <= idx < 16 ->
  multiply_into_temp a b m temp0 idx = matrix_product (matrix_at m a) (matrix_at m b) idx.
Proof.
  intros Hidx. matrix_cell_cases idx; reflexivity.
Qed.

Lemma matrix_product_ext (A A' B B' : Z -> F) idx :
  (forall i, 0 <= i < 16 -> A i = A' i) ->
  (forall i, 0 <= i < 16 -> B i = B' i) ->
  0 <= idx < 16 ->
  matrix_product A B idx = matrix_product A' B' idx.
Proof.
  intros HA HB Hidx. unfold matrix_product.
  matrix_cell_cases idx;
    rewrite !HA by cell_in_range; rewrite !HB by cell_in_range; reflexivity.
Qed.

Lemma multiplyMatrix_from_result (temp0 : float_memory F) (result a b : Z) (m : float_memory F) idx :
  0 <= idx < 16 ->
  multiplyMatrix_from temp0 result a b m (result + idx)
  = matrix_product (matrix_at m a) (matrix_at m b) idx.
Proof.
  intros Hidx. unfold multiplyMatrix_from, for_range.
  rewrite for_loop_fstore_at by (simpl; lia).
  now apply multiply_into_temp_cell.
Qed.

Lemma multiplyMatrix_from_frame (temp0 : float_memory F) (result a b : Z) (m : float_memory F) addr :
  ~ (result <= addr < result + 16) ->
  multiplyMatrix_from temp0 result a b m addr = m addr.
Proof.
  intros Hout. unfold multiplyMatrix_from, for_range.
  apply for_loop_fstore_other. simpl. lia.
Qed.

End MatrixProduct.

(** C7. [multiplyMatrix] computes the row-major product of the matrices
    that were stored at [a] and [b] when it was called, wherever [result]
    points: into [a]'s storage, into [b]'s, or elsewhere, it leaves the same
    16 values, because every cell of the product is accumulated in [temp]
    before the first cell of [result] is written.  Cells outside [result]
    keep their content. *)
Theorem multiplyMatrix_aliasing_safe {F : Type} `{FloatArith F}
    (temp0 : float_memory F) (r a b : Z) (m : float_memory F) (idx : Z) :
  0 <= idx < 16 ->
  multiplyMatrix_from temp0 r a b m (r + idx)
    = matrix_product (matrix_at m a) (matrix_at m b) idx /\
  multiplyMatrix_from temp0 a a b m (a + idx) = multiplyMatrix_from temp0 r a b m (r + idx) /\
  multiplyMatrix_from temp0 b a b m (b + idx) = multiplyMatrix_from temp0 r a b m (r + idx) /\
  (forall addr, ~ (r <= addr < r + 16) -> multiplyMatrix_from temp0 r a b m addr = m addr).
Proof.
  intros Hidx. rewrite !multiplyMatrix_from_result by assumption.
  repeat split. intros addr. apply multiplyMatrix_from_frame.
Qed.

Lemma multiplyMatrix_aliasing_safe_witness :
  let m : float_memory Q := fun i => inject_Z i in
  0 <= 5 < 16 /\
  multiplyMatrix 0 0 8 m (0 + 5) = matrix_product (matrix_at m 0) (matrix_at m 8) 5.
Proof.
  intros m. split; [lia|].
  assert (Hidx : 0 <= 5 < 16) by lia.
  exact (proj1 (multiplyMatrix_aliasing_safe (fun _ => of_int 0) 0 0 8 m 5 Hidx)).
Defined.

(** *** Identity laws, exact arithmetic *)

Lemma matrix_product_identity_r_exact (A Id : Z -> Q) idx :
  (forall i, 0 <= i < 16 -> Id i = identity_matrix i) ->
  0 <= idx < 16 ->
  (matrix_product A Id idx == A idx)%Q.
Proof.
  intros HId Hidx. unfold matrix_product.
  matrix_cell_cases idx;
    rewrite !HId by cell_in_range;
    unfold identity_matrix; cbv -[Qplus Qmult Qeq]; ring.
Qed.

Lemma matrix_product_identity_l_exact (A Id : Z -> Q) idx :
  (forall i, 0 <= i < 16 -> Id i = identity_matrix i) ->
  0 <= idx < 16 ->
  (matrix_product Id A idx == A idx)%Q.
Proof.
  intros HId Hidx. unfold matrix_product.
  matrix_cell_cases idx;
    rewrite !HId by cell_in_range;
    unfold identity_matrix; cbv -[Qplus Qmult Qeq]; ring.
Qed.

(** *** Single precision: multiplication by 1 and by 0, addition of 0 *)

Module Binary32Facts.
Import Binary32.

Lemma of_int_1 : of_int 1 = one.
Proof. reflexivity. Qed.

Lemma of_int_0 : of_int 0 = S754_zero false.
Proof. reflexivity. Qed.

Lemma shift23 m :
  (8388608 * m = m~0~0~0~0~0~0~0~0~0~0~0~0~0~0~0~0~0~0~0~0~0~0~0)%positive.
Proof. reflexivity. Qed.

Lemma round_shifted_mantissa s m e :
  bounded prec emax m e = true ->
  binary_round_aux prec emax s (Zpos (8388608 * m)) (e + -23) loc_Exact
  = S754_finite s m e.
Proof.
  intros Hb. unfold bounded, canonical_mantissa in Hb.
  apply andb_true_iff in Hb as [Hc He].
  apply Z.eqb_eq in Hc. apply Z.leb_le in He.
  unfold binary_round_aux, shr_fexp.
  assert (Hd : Zdigits2 (Z.pos (8388608 * m)) = Z.pos (digits2_pos m) + 23).
  { rewrite shift23. simpl. lia. }
  rewrite Hd.
  replace (Z.pos (digits2_pos m) + 23 + (e + -23)) with (Z.pos (digits2_pos m) + e) by lia.
  rewrite Hc.
  replace (e - (e + -23)) with 23 by lia.
  rewrite shift23. simpl shr. simpl round_nearest_even.
  replace (e + -23 + 23) with e by lia.
  simpl Zdigits2. rewrite Hc, Z.sub_diag. simpl.
  apply Z.leb_le in He. now rewrite He.
Qed.

Lemma mul_one_r x :
  valid x = true -> finite x = true -> SFmul prec emax x one = x.
Proof.
  destruct x as [s | s | | s m e]; simpl; try discriminate; intros Hv _.
  - now destruct s.
  - rewrite Pos.mul_comm.
    replace (xorb s false) with s by now destruct s.
    now apply round_shifted_mantissa.
Qed.

Lemma mul_one_l x :
  valid x = true -> finite x = true -> SFmul prec emax one x = x.
Proof.
  destruct x as [s | s | | s m e]; simpl; try discriminate; intros Hv _.
  - reflexivity.
  - rewrite Z.add_comm. now apply round_shifted_mantissa.
Qed.

Lemma mul_zero_r x s : finite x = true -> is_zero (SFmul prec emax x (S754_zero s)) = true.
Proof. destruct x; simpl; intros; try discriminate; reflexivity. Qed.

Lemma mul_zero_l x s : finite x = true -> is_zero (SFmul prec emax (S754_zero s) x) = true.
Proof. destruct x; simpl; intros; try discriminate; reflexivity. Qed.

Lemma add_zero_zero x y :
  is_zero x = true -> is_zero y = true -> is_zero (SFadd prec emax x y) = true.
Proof.
  destruct x as [[|] | | |], y as [[|] | | |]; simpl; intros; try discriminate; reflexivity.
Qed.

Lemma same_number_start z x :
  is_zero z = true -> finite x = true -> same_number (SFadd prec emax z x) x.
Proof.
  destruct z as [sz | | |]; try discriminate. intros _.
  destruct x as [sx | | |]; try discriminate; intros _; simpl.
  - now destruct sz, sx.
  - reflexivity.
Qed.

Lemma same_number_step y x z :
  same_number y x -> is_zero z = true -> same_number (SFadd prec emax y z) x.
Proof.
  destruct z as [sz | | |]; try discriminate. intros Hy _.
  destruct x as [sx | | |]; simpl in *; try contradiction.
  - destruct y as [sy | | |]; try discriminate. now destruct sy, sz.
  - subst y. reflexivity.
Qed.

Lemma same_number_eqb y x : same_number y x -> SFeqb y x = true.
Proof.
  destruct x as [sx | | | sx m e]; simpl; try contradiction.
  - destruct y; try discriminate. reflexivity.
  - intros ->. unfold SFeqb. simpl.
    destruct sx; rewrite Z.compare_refl, Pos.compare_cont_refl; reflexivity.
Qed.

End Binary32Facts.

(** *** Identity laws, single precision *)

Module Binary32Matrix.
Import Binary32 Binary32Facts.

Section UnitVectors.
Variables a0 a1 a2 a3 : spec_float.
Hypothesis (V0 : valid a0 = true) (V1 : valid a1 = true)
           (V2 : valid a2 = true) (V3 : valid a3 = true).
Hypothesis (F0 : finite a0 = true) (F1 : finite a1 = true)
           (F2 : finite a2 = true) (F3 : finite a3 = true).

Local Ltac zeros :=
  repeat first [ reflexivity | assumption | apply add_zero_zero
               | apply mul_zero_r | apply mul_zero_l ].
Local Ltac tail := apply same_number_step; [| zeros].
Local Ltac head_r := rewrite mul_one_r by assumption; apply same_number_start; zeros.
Local Ltac head_l := rewrite mul_one_l by assumption; apply same_number_start; zeros.

Lemma dot4_unit_r0 : same_number (dot4 a0 one a1 zero a2 zero a3 zero) a0.
Proof using V0 F0 F1 F2 F3. unfold dot4, zero; cbn [fadd fmul binary32_arith]. tail. tail. tail. head_r. Qed.
Lemma dot4_unit_r1 : same_number (dot4 a0 zero a1 one a2 zero a3 zero) a1.
Proof using V1 F0 F1 F2 F3. unfold dot4, zero; cbn [fadd fmul binary32_arith]. tail. tail. head_r. Qed.
Lemma dot4_unit_r2 : same_number (dot4 a0 zero a1 zero a2 one a3 zero) a2.
Proof using V2 F0 F1 F2 F3. unfold dot4, zero; cbn [fadd fmul binary32_arith]. tail. head_r. Qed.
Lemma dot4_unit_r3 : same_number (dot4 a0 zero a1 zero a2 zero a3 one) a3.
Proof using V3 F0 F1 F2 F3. unfold dot4, zero; cbn [fadd fmul binary32_arith]. head_r. Qed.

Lemma dot4_unit_l0 : same_number (dot4 one a0 zero a1 zero a2 zero a3) a0.
Proof using V0 F0 F1 F2 F3. unfold dot4, zero; cbn [fadd fmul binary32_arith]. tail. tail. tail. head_l. Qed.
Lemma dot4_unit_l1 : same_number (dot4 zero a0 one a1 zero a2 zero a3) a1.
Proof using V1 F0 F1 F2 F3. unfold dot4, zero; cbn [fadd fmul binary32_arith]. tail. tail. head_l. Qed.
Lemma dot4_unit_l2 : same_number (dot4 zero a0 zero a1 one a2 zero a3) a2.
Proof using V2 F0 F1 F2 F3. unfold dot4, zero; cbn [fadd fmul binary32_arith]. tail. head_l. Qed.
Lemma dot4_unit_l3 : same_number (dot4 zero a0 zero a1 zero a2 one a3) a3.
Proof using V3 F0 F1 F2 F3. unfold dot4, zero; cbn [fadd fmul binary32_arith]. head_l. Qed.

End UnitVectors.

#[local] Strategy 100 [SFadd SFmul].

Lemma finite_matrix_cell A i :
  finite_matrix A -> (0 <=? i) && (i <? 16) = true -> valid (A i) = true /\ finite (A i) = true.
Proof. intros HA Hi. apply HA. apply andb_true_iff in Hi. lia. Qed.

Ltac cells HA := apply (finite_matrix_cell _ _ HA); reflexivity.

Lemma matrix_product_identity_r (A : Z -> spec_float) idx :
  finite_matrix A -> 0 <= idx < 16 ->
  SFeqb (matrix_product A identity_matrix idx) (A idx) = true.
Proof.
  intros HA Hidx. apply same_number_eqb.
  matrix_cell_cases idx;
    unfold matrix_product, identity_matrix; cbn [fadd fmul of_int binary32_arith];
    [ apply (dot4_unit_r0 (A 0) (A 1) (A 2) (A 3))
    | apply (dot4_unit_r1 (A 0) (A 1) (A 2) (A 3))
    | apply (dot4_unit_r2 (A 0) (A 1) (A 2) (A 3))
    | apply (dot4_unit_r3 (A 0) (A 1) (A 2) (A 3))
    | apply (dot4_unit_r0 (A 4) (A 5) (A 6) (A 7))
    | apply (dot4_unit_r1 (A 4) (A 5) (A 6) (A 7))
    | apply (dot4_unit_r2 (A 4) (A 5) (A 6) (A 7))
    | apply (dot4_unit_r3 (A 4) (A 5) (A 6) (A 7))
    | apply (dot4_unit_r0 (A 8) (A 9) (A 10) (A 11))
    | apply (dot4_unit_r1 (A 8) (A 9) (A 10) (A 11))
    | apply (dot4_unit_r2 (A 8) (A 9) (A 10) (A 11))
    | apply (dot4_unit_r3 (A 8) (A 9) (A 10) (A 11))
    | apply (dot4_unit_r0 (A 12) (A 13) (A 14) (A 15))
    | apply (dot4_unit_r1 (A 12) (A 13) (A 14) (A 15))
    | apply (dot4_unit_r2 (A 12) (A 13) (A 14) (A 15))
    | apply (dot4_unit_r3 (A 12) (A 13) (A 14) (A 15)) ];
    cells HA.
Qed.

Lemma matrix_product_identity_l (A : Z -> spec_float) idx :
  finite_matrix A -> 0 <= idx < 16 ->
  SFeqb (matrix_product identity_matrix A idx) (A idx) = true.
Proof.
  intros HA Hidx. apply same_number_eqb.
  matrix_cell_cases idx;
    unfold matrix_product, identity_matrix; cbn [fadd fmul of_int binary32_arith];
    [ apply (dot4_unit_l0 (A 0) (A 4) (A 8) (A 12))
    | apply (dot4_unit_l0 (A 1) (A 5) (A 9) (A 13))
    | apply (dot4_unit_l0 (A 2) (A 6) (A 10) (A 14))
    | apply (dot4_unit_l0 (A 3) (A 7) (A 11) (A 15))
    | apply (dot4_unit_l1 (A 0) (A 4) (A 8) (A 12))
    | apply (dot4_unit_l1 (A 1) (A 5) (A 9) (A 13))
    | apply (dot4_unit_l1 (A 2) (A 6) (A 10) (A 14))
    | apply (dot4_unit_l1 (A 3) (A 7) (A 11) (A 15))
    | apply (dot4_unit_l2 (A 0) (A 4) (A 8) (A 12))
    | apply (dot4_unit_l2 (A 1) (A 5) (A 9) (A 13))
    | apply (dot4_unit_l2 (A 2) (A 6) (A 10) (A 14))
    | apply (dot4_unit_l2 (A 3) (A 7) (A 11) (A 15))
    | apply (dot4_unit_l3 (A 0) (A 4) (A 8) (A 12))
    | apply (dot4_unit_l3 (A 1) (A 5) (A 9) (A 13))
    | apply (dot4_unit_l3 (A 2) (A 6) (A 10) (A 14))
    | apply (dot4_unit_l3 (A 3) (A 7) (A 11) (A 15)) ];
    cells HA.
Qed.

End Binary32Matrix.

(** C6. The identity laws of [multiplyMatrix], for a matrix stored at [a]
    and the identity matrix stored at [id], with the result anywhere.  In
    exact arithmetic both products are the matrix at [a], for every matrix.
    In single precision the same holds with [==] for every matrix of finite
    numbers: each cell is its own product with 1 plus products with 0,
    which no rounding changes (only the sign of a zero cell can differ). *)
Theorem multiplyMatrix_identity_laws
    (mq : float_memory Q) (mf : float_memory spec_float) (r a id idx : Z) :
  (forall i, 0 <= i < 16 -> mq (id + i) = identity_matrix i) ->
  (forall i, 0 <= i < 16 -> mf (id + i) = identity_matrix i) ->
  finite_matrix (matrix_at mf a) ->
  0 <= idx < 16 ->
  Qeq (multiplyMatrix r a id mq (r + idx)) (mq (a + idx)) /\
  Qeq (multiplyMatrix r id a mq (r + idx)) (mq (a + idx)) /\
  SFeqb (multiplyMatrix r a id mf (r + idx)) (mf (a + idx)) = true /\
  SFeqb (multiplyMatrix r id a mf (r + idx)) (mf (a + idx)) = true.
Proof.
  intros Hq Hf Hfin Hidx. unfold multiplyMatrix.
  rewrite !multiplyMatrix_from_result by assumption.
  split; [|split; [|split]].
  - now apply (matrix_product_identity_r_exact (matrix_at mq a) (matrix_at mq id)).
  - now apply (matrix_product_identity_l_exact (matrix_at mq a) (matrix_at mq id)).
  - rewrite (matrix_product_ext _ (matrix_at mf a) _ identity_matrix) by auto.
    now apply (Binary32Matrix.matrix_product_identity_r (matrix_at mf a)).
  - rewrite (matrix_product_ext _ identity_matrix _ (matrix_at mf a)) by auto.
    now apply (Binary32Matrix.matrix_product_identity_l (matrix_at mf a)).
Qed.


Lemma multiplyMatrix_identity_laws_witness :
  let mq : float_memory Q := fun i => if i <? 16 then inject_Z (i - 7) else identity_matrix (i - 16) in
  let mf : float_memory spec_float :=
    fun i => if i <? 16 then of_int (i - 7) else identity_matrix (i - 16) in
  Qeq (multiplyMatrix 0 0 16 mq (0 + 6)) (mq (0 + 6)) /\
  Qeq (multiplyMatrix 0 16 0 mq (0 + 6)) (mq (0 + 6)) /\
  SFeqb (multiplyMatrix 0 0 16 mf (0 + 6)) (mf (0 + 6)) = true /\
  SFeqb (multiplyMatrix 0 16 0 mf (0 + 6)) (mf (0 + 6)) = true.
Proof.
  intros mq mf.
  apply (multiplyMatrix_identity_laws mq mf 0 0 16 6).
  - intros i Hi. unfold mq. replace (16 + i - 16) with i by lia.
    destruct (Z.ltb_spec (16 + i) 16); [lia | reflexivity].
  - intros i Hi. unfold mf. replace (16 + i - 16) with i by lia.
    destruct (Z.ltb_spec (16 + i) 16); [lia | reflexivity].
  - intros i Hi. unfold matrix_at.
    assert (Hcases : i = 0 \/ i = 1 \/ i = 2 \/ i = 3 \/ i = 4 \/ i = 5 \/
                     i = 6 \/ i = 7 \/ i = 8 \/ i = 9 \/ i = 10 \/ i = 11 \/
                     i = 12 \/ i = 13 \/ i = 14 \/ i = 15) by lia.
    repeat (destruct Hcases as [-> | Hcases]); try subst i; vm_compute; auto.
  - lia.
Defined.

(** Outside the finite matrices the law does not hold in single precision:
    an infinite cell times the 0 of the identity matrix is NaN, and the NaN
    stays in the sum. *)
Example identity_law_needs_finite_cells :
  matrix_product matrix_with_infinity identity_matrix 1 = S754_nan /\
  matrix_with_infinity 1 = of_int 2.
Proof. vm_compute. split; reflexivity. Qed.

(** *** The bounce *)

Section Bounce.
Context {F : Type} `{FloatArith F}.

Lemma updateAnimation_axes (s : circle_state F) :
  g_circleX (updateAnimation s) = fst (axis_step (g_circleX s) (g_velocityX s)) /\
  g_velocityX (updateAnimation s) = snd (axis_step (g_circleX s) (g_velocityX s)) /\
  g_circleY (updateAnimation s) = fst (axis_step (g_circleY s) (g_velocityY s)) /\
  g_velocityY (updateAnimation s) = snd (axis_step (g_circleY s) (g_velocityY s)).
Proof.
  unfold updateAnimation, axis_step. cbn [g_circleX g_circleY g_velocityX g_velocityY].
  destruct (hits_edge (fadd (g_circleX s) (g_velocityX s)));
    cbn [g_circleX g_circleY g_velocityX g_velocityY];
    destruct (hits_edge (fadd (g_circleY s) (g_velocityY s)));
    cbn [g_circleX g_circleY g_velocityX g_velocityY fst snd]; auto.
Qed.



End Bounce.

Module Binary32Bounce.
Import Binary32.

Lemma ltb_leb x y : SFltb x y = true -> SFleb x y = true.
Proof. unfold SFltb, SFleb. destruct (SFcompare x y) as [[| |]|]; congruence. Qed.

Lemma clamp_pos_bounds (pos : spec_float) :
  fleb g_circleRadius (clamp_pos pos) = true /\
  fleb (clamp_pos pos) (fsub (of_int 1) g_circleRadius) = true.
Proof.
  unfold clamp_pos, fmax, fmin. cbn [fltb fleb binary32_arith].
  destruct (SFltb pos (fsub (of_int 1) g_circleRadius)) eqn:Hhi.
  - destruct (SFltb g_circleRadius pos) eqn:Hlo.
    + split; now apply ltb_leb.
    + split; reflexivity.
  - split; reflexivity.
Qed.

Lemma ltb_asym x y : SFltb x y = true -> SFltb y x = false.
Proof.
  unfold SFltb.
  destruct x as [sx | sx | | sx mx ex], y as [sy | sy | | sy my ey]; cbn [SFcompare];
    try discriminate; try reflexivity;
    try (destruct sx; discriminate || reflexivity);
    try (destruct sy; discriminate || reflexivity);
    try (destruct sx, sy; discriminate || reflexivity).
  change (Pos.compare_cont Eq mx my) with (Pos.compare mx my).
  change (Pos.compare_cont Eq my mx) with (Pos.compare my mx).
  destruct sx, sy; try discriminate; try reflexivity;
    destruct (Z.compare_spec ex ey), (Z.compare_spec ey ex); try lia;
    cbn [CompOpp]; try discriminate; try reflexivity;
    destruct (Pos.compare_spec mx my), (Pos.compare_spec my mx); try lia;
    cbn [CompOpp]; discriminate || reflexivity.
Qed.

(** The two bounds of the clamp in single precision: 0.1f and
    1.0f - 0.1f. *)
Lemma radius_binary32 : @g_circleRadius spec_float _ = S754_finite false 13421773 (-27).
Proof. vm_compute. reflexivity. Qed.

Lemma top_binary32 :
  @fsub spec_float _ (of_int 1) g_circleRadius = S754_finite false 15099494 (-24).
Proof. vm_compute. reflexivity. Qed.

Lemma below_radius_below_top (x : spec_float) :
  SFltb x g_circleRadius = true -> SFltb x (fsub (of_int 1) g_circleRadius) = true.
Proof.
  rewrite top_binary32, radius_binary32. unfold SFltb.
  destruct x as [sx | sx | | sx mx ex]; cbn [SFcompare]; try discriminate; try reflexivity.
  - destruct sx; discriminate || reflexivity.
  - destruct sx; [reflexivity|].
    destruct (Z.compare_spec ex (-27)) as [-> | Hlt | Hgt]; try discriminate.
    + intros _. reflexivity.
    + intros _. destruct (Z.compare_spec ex (-24)) as [E | _ | Hgt]; [lia | reflexivity | lia].
Qed.

(** [std::max(radius, std::min(1.0f - radius, pos))], case by case. *)
Lemma clamp_pos_cases (pos : spec_float) :
  clamp_pos pos =
    (if fltb pos (fsub (of_int 1) g_circleRadius)
     then if fltb g_circleRadius pos then pos else g_circleRadius
     else fsub (of_int 1) g_circleRadius) /\
  (fltb pos g_circleRadius = true -> clamp_pos pos = g_circleRadius) /\
  (fltb (fsub (of_int 1) g_circleRadius) pos = true ->
   clamp_pos pos = fsub (of_int 1) g_circleRadius).
Proof.
  assert (Hspan : SFltb g_circleRadius (fsub (of_int 1) g_circleRadius) = true)
    by (vm_compute; reflexivity).
  assert (Hform : clamp_pos pos =
    (if fltb pos (fsub (of_int 1) g_circleRadius)
     then if fltb g_circleRadius pos then pos else g_circleRadius
     else fsub (of_int 1) g_circleRadius)).
  { unfold clamp_pos, fmax, fmin. cbn [fltb binary32_arith].
    destruct (SFltb pos (fsub (of_int 1) g_circleRadius)); [reflexivity|].
    now rewrite Hspan. }
  split; [exact Hform|]. rewrite Hform. cbn [fltb binary32_arith]. split.
  - intros Hlow. rewrite (below_radius_below_top pos Hlow), (ltb_asym _ _ Hlow). reflexivity.
  - intros Hhigh. rewrite (ltb_asym _ _ Hhigh). reflexivity.
Qed.

End Binary32Bounce.

(** *** The playable region *)

Module ExactBounce.

Lemma Qltb_true x y : Exact.Qltb x y = true <-> (x < y)%Q.
Proof.
  unfold Exact.Qltb. rewrite negb_true_iff. split.
  - intros Hb. apply Qnot_le_lt. intros Hle. apply Qle_bool_iff in Hle. congruence.
  - intros Hlt. destruct (Qle_bool y x) eqn:Hb; [|reflexivity].
    apply Qle_bool_iff in Hb. lra.
Qed.

Lemma Qltb_false x y : Exact.Qltb x y = false <-> (y <= x)%Q.
Proof.
  unfold Exact.Qltb. rewrite negb_false_iff. apply Qle_bool_iff.
Qed.

Lemma radius_value : (g_circleRadius : Q) = (1 # 10)%Q.
Proof. reflexivity. Qed.

Lemma clamp_pos_unit_exact (pos : Q) :
  (1 # 10 <= clamp_pos pos <= 9 # 10)%Q.
Proof.
  unfold clamp_pos, fmax, fmin. rewrite radius_value.
  cbn [fltb fsub of_int exact_arith].
  change (inject_Z 1 - (1 # 10))%Q with (9 # 10)%Q.
  destruct (Exact.Qltb pos (9 # 10)) eqn:Hhi.
  - destruct (Exact.Qltb (1 # 10) pos) eqn:Hlo.
    + apply Qltb_true in Hhi, Hlo. lra.
    + lra.
  - change (Exact.Qltb (1 # 10) (9 # 10)) with true. cbn iota. lra.
Qed.

Lemma no_hit_bounds (pos : Q) :
  hits_edge pos = false -> (1 # 10 <= pos <= 9 # 10)%Q.
Proof.
  unfold hits_edge. rewrite radius_value. cbn [fltb fsub fadd of_int exact_arith].
  intros Hh. apply orb_false_iff in Hh as [Hlo Hhi].
  apply Qltb_false in Hlo, Hhi.
  change (inject_Z 0) with 0%Q in Hlo. change (inject_Z 1) with 1%Q in Hhi. lra.
Qed.

Lemma hits_edge_exact (pos : Q) :
  (pos - (1 # 10) < 0 \/ 1 < pos + (1 # 10))%Q <-> hits_edge pos = true.
Proof.
  unfold hits_edge. rewrite radius_value. cbn [fltb fsub fadd of_int exact_arith].
  change (inject_Z 0) with 0%Q. change (inject_Z 1) with 1%Q.
  rewrite orb_true_iff, !Qltb_true. reflexivity.
Qed.

Lemma axis_step_bounds (pos vel : Q) :
  (1 # 10 <= fst (axis_step pos vel) <= 9 # 10)%Q.
Proof.
  unfold axis_step. destruct (hits_edge (fadd pos vel)) eqn:Hh; cbn [fst].
  - apply clamp_pos_unit_exact.
  - now apply no_hit_bounds.
Qed.

Lemma updateAnimation_in_region (s : circle_state Q) :
  in_playable_region (updateAnimation s) = true.
Proof.
  destruct (updateAnimation_axes s) as (Hx & _ & Hy & _).
  pose proof (axis_step_bounds (g_circleX s) (g_velocityX s)) as Bx.
  pose proof (axis_step_bounds (g_circleY s) (g_velocityY s)) as By.
  rewrite <- Hx in Bx. rewrite <- Hy in By.
  unfold in_playable_region. rewrite radius_value.
  cbn [fleb fsub of_int exact_arith].
  change (inject_Z 1 - (1 # 10))%Q with (9 # 10)%Q.
  rewrite !andb_true_iff, !Qle_bool_iff. tauto.
Qed.

End ExactBounce.

Module ExactWall.
Import ExactBounce.

Lemma clamp_pos_below (pos : Q) : (pos < 1 # 10)%Q -> (clamp_pos pos == 1 # 10)%Q.
Proof.
  intros Hlt. unfold clamp_pos, fmax, fmin. cbn [fltb fsub of_int exact_arith].
  pose proof radius_value as Hr.
  assert (H1 : Exact.Qltb pos (inject_Z 1 - g_circleRadius) = true).
  { apply Qltb_true. rewrite Hr. change (inject_Z 1) with 1%Q. lra. }
  rewrite H1.
  assert (H2 : Exact.Qltb g_circleRadius pos = false).
  { apply Qltb_false. rewrite Hr. lra. }
  rewrite H2, Hr. reflexivity.
Qed.

Lemma clamp_pos_above (pos : Q) : (9 # 10 < pos)%Q -> (clamp_pos pos == 9 # 10)%Q.
Proof.
  intros Hgt. unfold clamp_pos, fmax, fmin. cbn [fltb fsub of_int exact_arith].
  pose proof radius_value as Hr.
  assert (H1 : Exact.Qltb pos (inject_Z 1 - g_circleRadius) = false).
  { apply Qltb_false. rewrite Hr. change (inject_Z 1) with 1%Q. lra. }
  rewrite H1.
  assert (H2 : Exact.Qltb g_circleRadius (inject_Z 1 - g_circleRadius) = true).
  { apply Qltb_true. rewrite Hr. change (inject_Z 1) with 1%Q. lra. }
  rewrite H2, Hr. change (inject_Z 1) with 1%Q. lra.
Qed.

Lemma axis_step_wall (pos vel : Q) :
  ((pos + vel < 1 # 10)%Q -> (fst (axis_step pos vel) == 1 # 10)%Q) /\
  ((9 # 10 < pos + vel)%Q -> (fst (axis_step pos vel) == 9 # 10)%Q).
Proof.
  unfold axis_step. cbn [fadd exact_arith]. split; intros Hout.
  - assert (Hhit : hits_edge (pos + vel)%Q = true) by (apply hits_edge_exact; left; lra).
    rewrite Hhit. cbn [fst]. now apply clamp_pos_below.
  - assert (Hhit : hits_edge (pos + vel)%Q = true) by (apply hits_edge_exact; right; lra).
    rewrite Hhit. cbn [fst]. now apply clamp_pos_above.
Qed.

End ExactWall.

Module Binary32Run.

Lemma animate_plus (n k : nat) (s : circle_state spec_float) :
  animate (n + k) s = animate k (animate n s).
Proof.
  revert s. induction n as [|n IH]; intros s; [reflexivity|]. cbn [Nat.add animate]. apply IH.
Qed.

(** The run is periodic from the 41st frame on, with period 324. *)
Lemma run_cycle : animate 365 initial_circle = animate 41 (initial_circle : circle_state spec_float).
Proof. vm_compute. reflexivity. Qed.

Lemma run_within_first_cycle (n : nat) :
  exists k, (k < 365)%nat /\ animate n initial_circle = animate k (initial_circle : circle_state spec_float).
Proof.
  induction n as [n IH] using lt_wf_ind.
  destruct (Nat.lt_ge_cases n 365) as [Hlt | Hge].
  - exists n. auto.
  - destruct (IH (n - 324)%nat) as (k & Hk & E); [lia|].
    exists k. split; [exact Hk|]. rewrite <- E.
    replace n with (365 + (n - 365))%nat at 1 by lia.
    replace (n - 324)%nat with (41 + (n - 365))%nat by lia.
    rewrite !animate_plus. exact (f_equal (animate (n - 365)) run_cycle).
Qed.

Lemma region_holds_for_spec (n : nat) (s : circle_state spec_float) :
  region_holds_for n s = true ->
  forall k, (k < n)%nat -> in_playable_region (animate k s) = true.
Proof.
  revert s. induction n as [|n IH]; intros s Hn k Hk; [lia|].
  cbn [region_holds_for] in Hn. apply andb_true_iff in Hn as [H0 Hrest].
  destruct k as [|k]; [exact H0|].
  cbn [animate]. apply IH; [exact Hrest | lia].
Qed.

Lemma first_cycle_in_region : region_holds_for 365 initial_circle = true.
Proof. vm_compute. reflexivity. Qed.

Lemma run_in_region (n : nat) :
  in_playable_region (animate n (initial_circle : circle_state spec_float)) = true.
Proof.
  destruct (run_within_first_cycle n) as (k & Hk & ->).
  now apply (region_holds_for_spec 365 initial_circle first_cycle_in_region).
Qed.

End Binary32Run.

(** C4, as stated, fails in single precision: the code tests the rounded
    values of [pos - radius] and [pos + radius].  From the state
    [circle_near_edge] the advanced position is 15099495 * 2^-24; its
    edge [pos + radius] is 1 + 5 * 2^-27, outside [[0, 1]], but the sum
    rounds to 1.0f and the test [> 1.0f] fails: the velocity is not
    negated and the position is not clamped - it stays above
    [1.0f - radius]. *)
Lemma updateAnimation_misses_edge :
  fadd (g_circleX circle_near_edge) (g_velocityX circle_near_edge)
    = S754_finite false 15099495 (-24) /\
  (Binary32.to_Q (S754_finite false 15099495 (-24)) + Binary32.to_Q g_circleRadius
   == 1 + (5 # 134217728))%Q /\
  (1 < Binary32.to_Q (S754_finite false 15099495 (-24)) + Binary32.to_Q g_circleRadius)%Q /\
  g_velocityX (updateAnimation circle_near_edge) = g_velocityX circle_near_edge /\
  g_velocityX circle_near_edge <> fopp (g_velocityX circle_near_edge) /\
  g_circleX (updateAnimation circle_near_edge) = S754_finite false 15099495 (-24) /\
  fleb (S754_finite false 15099495 (-24)) (fsub (of_int 1) g_circleRadius) = false.
Proof. vm_compute. repeat split; (reflexivity || discriminate). Qed.

(** C4, amended.  Each axis is updated from its own position and velocity
    alone.
    - In exact arithmetic, for every state: when the advanced position
      puts the lower edge below 0, the velocity of that axis is negated,
      once, and the position becomes [radius]; when it puts the upper edge
      above 1, the velocity is negated, once, and the position becomes
      [1 - radius] - the nearer bound in each case; otherwise the velocity
      is unchanged and the position is the advanced one.
    - In single precision, for every state (NaN and the infinities
      included), with the test as the code evaluates it,
      [pos - radius < 0 || pos + radius > 1] on rounded values: when it
      holds, the velocity of that axis is negated, once, and the position
      becomes [1.0f - radius] unless the advanced position is below it,
      and then [radius] unless the advanced position is above it - so
      [radius] for an advanced position below [radius], [1.0f - radius]
      for one above [1.0f - radius], in any case a value in
      [[radius, 1.0f - radius]]; when it does not hold, the velocity is
      unchanged and the position is the advanced one. *)
Theorem updateAnimation_bounce :
  (forall s : circle_state Q,
     let s' := updateAnimation s in
     let x1 := (g_circleX s + g_velocityX s)%Q in
     let y1 := (g_circleY s + g_velocityY s)%Q in
     ((x1 - g_circleRadius < 0)%Q ->
      g_velocityX s' = (- g_velocityX s)%Q /\ (g_circleX s' == g_circleRadius)%Q) /\
     ((1 < x1 + g_circleRadius)%Q ->
      g_velocityX s' = (- g_velocityX s)%Q /\ (g_circleX s' == 1 - g_circleRadius)%Q) /\
     (~ (x1 - g_circleRadius < 0 \/ 1 < x1 + g_circleRadius)%Q ->
      g_velocityX s' = g_velocityX s /\ g_circleX s' = x1) /\
     ((y1 - g_circleRadius < 0)%Q ->
      g_velocityY s' = (- g_velocityY s)%Q /\ (g_circleY s' == g_circleRadius)%Q) /\
     ((1 < y1 + g_circleRadius)%Q ->
      g_velocityY s' = (- g_velocityY s)%Q /\ (g_circleY s' == 1 - g_circleRadius)%Q) /\
     (~ (y1 - g_circleRadius < 0 \/ 1 < y1 + g_circleRadius)%Q ->
      g_velocityY s' = g_velocityY s /\ g_circleY s' = y1)) /\
  (forall s : circle_state spec_float,
     let s' := updateAnimation s in
     let x1 := fadd (g_circleX s) (g_velocityX s) in
     let y1 := fadd (g_circleY s) (g_velocityY s) in
     let low := g_circleRadius in
     let high := fsub (of_int 1) g_circleRadius in
     (if hits_edge x1
      then g_velocityX s' = fopp (g_velocityX s) /\
           g_circleX s' = (if fltb x1 high then if fltb low x1 then x1 else low else high) /\
           (fltb x1 low = true -> g_circleX s' = low) /\
           (fltb high x1 = true -> g_circleX s' = high) /\
           fleb low (g_circleX s') = true /\
           fleb (g_circleX s') high = true
      else g_velocityX s' = g_velocityX s /\ g_circleX s' = x1) /\
     (if hits_edge y1
      then g_velocityY s' = fopp (g_velocityY s) /\
           g_circleY s' = (if fltb y1 high then if fltb low y1 then y1 else low else high) /\
           (fltb y1 low = true -> g_circleY s' = low) /\
           (fltb high y1 = true -> g_circleY s' = high) /\
           fleb low (g_circleY s') = true /\
           fleb (g_circleY s') high = true
      else g_velocityY s' = g_velocityY s /\ g_circleY s' = y1)).
Proof.
  split.
  - intros s s' x1 y1.
    destruct (updateAnimation_axes s) as (Hx & Hvx & Hy & Hvy).
    fold s' in Hx, Hvx, Hy, Hvy.
    destruct (ExactWall.axis_step_wall (g_circleX s) (g_velocityX s)) as [Wx1 Wx2].
    destruct (ExactWall.axis_step_wall (g_circleY s) (g_velocityY s)) as [Wy1 Wy2].
    rewrite <- Hx in Wx1, Wx2. rewrite <- Hy in Wy1, Wy2.
    unfold axis_step in Hx, Hvx, Hy, Hvy.
    cbn [fadd exact_arith] in Hx, Hvx, Hy, Hvy. fold x1 in Hx, Hvx, Wx1, Wx2.
    fold y1 in Hy, Hvy, Wy1, Wy2.
    pose proof (ExactBounce.hits_edge_exact x1) as Ex.
    pose proof (ExactBounce.hits_edge_exact y1) as Ey.
    rewrite ExactBounce.radius_value in *.
    split; [|split; [|split; [|split; [|split]]]].
    + intros Hlow. assert (Hhit : hits_edge x1 = true) by (apply Ex; now left).
      rewrite Hhit in Hvx. split; [exact Hvx | apply Wx1; lra].
    + intros Hhigh. assert (Hhit : hits_edge x1 = true) by (apply Ex; now right).
      rewrite Hhit in Hvx. split; [exact Hvx | rewrite Wx2 by lra; reflexivity].
    + intros Hno. destruct (hits_edge x1); [exfalso; apply Hno, Ex; reflexivity|].
      split; [exact Hvx | exact Hx].
    + intros Hlow. assert (Hhit : hits_edge y1 = true) by (apply Ey; now left).
      rewrite Hhit in Hvy. split; [exact Hvy | apply Wy1; lra].
    + intros Hhigh. assert (Hhit : hits_edge y1 = true) by (apply Ey; now right).
      rewrite Hhit in Hvy. split; [exact Hvy | rewrite Wy2 by lra; reflexivity].
    + intros Hno. destruct (hits_edge y1); [exfalso; apply Hno, Ey; reflexivity|].
      split; [exact Hvy | exact Hy].
  - intros s s' x1 y1 low high.
    destruct (updateAnimation_axes s) as (Hx & Hvx & Hy & Hvy).
    fold s' in Hx, Hvx, Hy, Hvy. unfold axis_step in Hx, Hvx, Hy, Hvy.
    fold x1 in Hx, Hvx. fold y1 in Hy, Hvy.
    split.
    + destruct (hits_edge x1); cbn [fst snd] in Hx, Hvx.
      * rewrite Hx, Hvx.
        destruct (Binary32Bounce.clamp_pos_bounds x1) as [Hlo Hhi].
        destruct (Binary32Bounce.clamp_pos_cases x1) as (Hform & Hbelow & Habove).
        repeat split; assumption.
      * now rewrite Hx, Hvx.
    + destruct (hits_edge y1); cbn [fst snd] in Hy, Hvy.
      * rewrite Hy, Hvy.
        destruct (Binary32Bounce.clamp_pos_bounds y1) as [Hlo Hhi].
        destruct (Binary32Bounce.clamp_pos_cases y1) as (Hform & Hbelow & Habove).
        repeat split; assumption.
      * now rewrite Hy, Hvy.
Qed.

Lemma updateAnimation_bounce_witness :
  (1 < g_circleX circle_before_edge + g_velocityX circle_before_edge + g_circleRadius)%Q /\
  g_velocityX (updateAnimation circle_before_edge) = (- g_velocityX circle_before_edge)%Q /\
  (g_circleX (updateAnimation circle_before_edge) == 1 - g_circleRadius)%Q.
Proof.
  assert (Hhit : (1 < g_circleX circle_before_edge + g_velocityX circle_before_edge
                      + g_circleRadius)%Q)
    by (vm_compute; reflexivity).
  split; [exact Hhit|].
  exact (proj1 (proj2 (proj1 updateAnimation_bounce circle_before_edge)) Hhit).
Defined.

(** C10, as stated, fails in single precision.  From x = 14931723 * 2^-24
    (inside the region) with the renderer's velocity 0.01f, the advanced
    position is 15099495 * 2^-24 = 0.90000003576...; its edge
    [pos + radius] rounds to exactly 1, so neither [if] is taken, and the
    centre ends above [1.0f - radius] = 15099494 * 2^-24, above the exact
    [1 - radius] and above 0.9. *)
Lemma updateAnimation_leaves_region :
  in_playable_region circle_near_edge = true /\
  hits_edge (fadd (g_circleX circle_near_edge) (g_velocityX circle_near_edge)) = false /\
  g_circleX (updateAnimation circle_near_edge) = S754_finite false 15099495 (-24) /\
  fsub (of_int 1) g_circleRadius = S754_finite false 15099494 (-24) /\
  in_playable_region (updateAnimation circle_near_edge) = false /\
  (1 - Binary32.to_Q g_circleRadius < Binary32.to_Q (g_circleX (updateAnimation circle_near_edge)))%Q /\
  (9 # 10 < Binary32.to_Q (g_circleX (updateAnimation circle_near_edge)))%Q.
Proof. vm_compute. repeat split; reflexivity. Qed.

(** C10, amended.  In the run of the renderer - any number of frames from
    the statics' initial values - both coordinates stay in
    [[radius, 1 - radius]].  From an arbitrary state: in exact arithmetic
    they are in the interval after every call; in single precision an axis
    whose [if] is taken is clamped into the interval, and an axis whose [if]
    is not taken keeps the advanced position (which the example above shows
    can be one unit in the last place above [1 - radius]). *)
Theorem updateAnimation_region_invariant :
  (forall n : nat,
     in_playable_region (animate n (initial_circle : circle_state spec_float)) = true) /\
  (forall s : circle_state Q, in_playable_region (updateAnimation s) = true) /\
  (forall s : circle_state spec_float,
     let x1 := fadd (g_circleX s) (g_velocityX s) in
     let y1 := fadd (g_circleY s) (g_velocityY s) in
     (if hits_edge x1
      then fleb g_circleRadius (g_circleX (updateAnimation s)) = true /\
           fleb (g_circleX (updateAnimation s)) (fsub (of_int 1) g_circleRadius) = true
      else g_circleX (updateAnimation s) = x1) /\
     (if hits_edge y1
      then fleb g_circleRadius (g_circleY (updateAnimation s)) = true /\
           fleb (g_circleY (updateAnimation s)) (fsub (of_int 1) g_circleRadius) = true
      else g_circleY (updateAnimation s) = y1)).
Proof.
  split; [exact Binary32Run.run_in_region|].
  split; [exact ExactBounce.updateAnimation_in_region|].
  intros s x1 y1.
  destruct (updateAnimation_axes s) as (Hx & _ & Hy & _).
  unfold axis_step in Hx, Hy. fold x1 in Hx. fold y1 in Hy.
  split.
  - destruct (hits_edge x1); cbn [fst] in Hx; rewrite Hx;
      [exact (Binary32Bounce.clamp_pos_bounds x1) | reflexivity].
  - destruct (hits_edge y1); cbn [fst] in Hy; rewrite Hy;
      [exact (Binary32Bounce.clamp_pos_bounds y1) | reflexivity].
Qed.

(** *** Frames without contact *)

Module ExactRun.


End ExactRun.

Module Binary32Stretch.
Import Binary32Run.







End Binary32Stretch.





(** *** The triangular wave, exact arithmetic *)

Module ExactWave.
Import ExactBounce.

Lemma Qtrunc_unique (q : Q) (k : Z) :
  0 <= k -> (inject_Z k <= q)%Q -> (q < inject_Z (k + 1))%Q -> Exact.Qtrunc q = k.
Proof.
  destruct q as [n d]. unfold Exact.Qtrunc, Qle, Qlt. cbn [Qnum Qden inject_Z].
  intros Hk Hlo Hhi.
  rewrite Z.quot_div_nonneg by nia.
  symmetry. apply (Z.div_unique n (Z.pos d) k (n - Z.pos d * k)); nia.
Qed.

Lemma Qtrunc_period (t : Q) :
  (0 <= t)%Q ->
  exists k, 0 <= k /\ (inject_Z (4 * k) <= t)%Q /\ (t < inject_Z (4 * k) + 4)%Q.
Proof.
  intros Ht. exists (Qfloor (t / 4)).
  assert (H0 : (0 <= t / 4)%Q) by (apply Qle_shift_div_l; lra).
  pose proof (Qfloor_le (t / 4)) as Hlo.
  pose proof (Qlt_floor (t / 4)) as Hhi.
  assert (Hk : 0 <= Qfloor (t / 4)).
  { change 0 with (Qfloor 0). now apply Qfloor_resp_le. }
  split; [exact Hk|].
  rewrite inject_Z_mult. rewrite inject_Z_plus in Hhi.
  change (inject_Z 4) with 4%Q. change (inject_Z 1) with 1%Q in Hhi.
  assert (E : (t == 4 * (t / 4))%Q) by (field).
  split; lra.
Qed.

Lemma fmodf_in_period (t : Q) (k : Z) :
  0 <= k -> (inject_Z (4 * k) <= t)%Q -> (t < inject_Z (4 * k) + 4)%Q ->
  (fmodf t (of_int 4) == t - inject_Z (4 * k))%Q.
Proof.
  intros Hk Hlo Hhi. cbn [fmodf of_int exact_arith]. unfold Exact.Q_fmod.
  change (inject_Z 4) with 4%Q.
  rewrite inject_Z_mult in Hlo, Hhi |- *. change (inject_Z 4) with 4%Q in *.
  assert (E : (t == 4 * (t / 4))%Q) by (field).
  rewrite (Qtrunc_unique (t / 4) k Hk).
  - ring.
  - lra.
  - rewrite inject_Z_plus. change (inject_Z 1) with 1%Q. lra.
Qed.

Lemma progress_rising (t : Q) (k : Z) :
  0 <= k -> (inject_Z (4 * k) <= t)%Q -> (t < inject_Z (4 * k) + 2)%Q ->
  (progress_of t == (t - inject_Z (4 * k)) / 2)%Q.
Proof.
  intros Hk Hlo Hhi.
  assert (Hc : (fmodf t (of_int 4) == t - inject_Z (4 * k))%Q)
    by (apply fmodf_in_period; [assumption | assumption | lra]).
  unfold progress_of. set (c := fmodf t (of_int 4)) in *.
  cbn [fltb fdiv fsub of_int exact_arith].
  change (inject_Z 2) with 2%Q. change (inject_Z 1) with 1%Q.
  destruct (Exact.Qltb c 2) eqn:Hlt.
  - rewrite Hc. reflexivity.
  - apply Qltb_false in Hlt. lra.
Qed.

Lemma progress_falling (t : Q) (k : Z) :
  0 <= k -> (inject_Z (4 * k) + 2 <= t)%Q -> (t < inject_Z (4 * k) + 4)%Q ->
  (progress_of t == 1 - (t - inject_Z (4 * k) - 2) / 2)%Q.
Proof.
  intros Hk Hlo Hhi.
  assert (Hc : (fmodf t (of_int 4) == t - inject_Z (4 * k))%Q)
    by (apply fmodf_in_period; [assumption | lra | assumption]).
  unfold progress_of. set (c := fmodf t (of_int 4)) in *.
  cbn [fltb fdiv fsub of_int exact_arith].
  change (inject_Z 2) with 2%Q. change (inject_Z 1) with 1%Q.
  destruct (Exact.Qltb c 2) eqn:Hlt.
  - apply Qltb_true in Hlt. lra.
  - rewrite Hc. reflexivity.
Qed.

(** On the closed interval [[4k, 4k+2]] the progress is [(t - 4k)/2], on
    [[4k+2, 4k+4]] it is [1 - (t - 4k - 2)/2]. *)
Lemma progress_rising_closed (t : Q) (k : Z) :
  0 <= k -> (inject_Z (4 * k) <= t)%Q -> (t <= inject_Z (4 * k) + 2)%Q ->
  (progress_of t == (t - inject_Z (4 * k)) / 2)%Q.
Proof.
  intros Hk Hlo Hhi. destruct (Qlt_le_dec t (inject_Z (4 * k) + 2)) as [Hlt | Hge].
  - now apply progress_rising.
  - rewrite (progress_falling t k) by (assumption || lra).
    assert (E : (t == inject_Z (4 * k) + 2)%Q) by lra.
    rewrite E. field.
Qed.

Lemma progress_falling_closed (t : Q) (k : Z) :
  0 <= k -> (inject_Z (4 * k) + 2 <= t)%Q -> (t <= inject_Z (4 * k) + 4)%Q ->
  (progress_of t == 1 - (t - inject_Z (4 * k) - 2) / 2)%Q.
Proof.
  intros Hk Hlo Hhi. destruct (Qlt_le_dec t (inject_Z (4 * k) + 4)) as [Hlt | Hge].
  - now apply progress_falling.
  - assert (E4 : (inject_Z (4 * (k + 1)) == inject_Z (4 * k) + 4)%Q).
    { replace (4 * (k + 1)) with (4 * k + 4) by lia. now rewrite inject_Z_plus. }
    rewrite (progress_rising t (k + 1)) by (lia || lra).
    rewrite E4. assert (E : (t == inject_Z (4 * k) + 4)%Q) by lra.
    rewrite E. field.
Qed.

Lemma half_lt (x y : Q) : (x < y)%Q -> (x / 2 < y / 2)%Q.
Proof. intros Hxy. unfold Qdiv. apply Qmult_lt_compat_r; [reflexivity | exact Hxy]. Qed.

Lemma half_unit (x : Q) : (0 <= x)%Q -> (x <= 2)%Q -> (0 <= x / 2)%Q /\ (x / 2 <= 1)%Q.
Proof.
  intros H0 H2. split.
  - apply Qle_shift_div_l; [reflexivity | lra].
  - apply Qle_shift_div_r; [reflexivity | lra].
Qed.

Lemma circle_cx_exact (b : ANativeWindow_Buffer) (t : Q) :
  (circle_cx b t == 100 + progress_of t * (inject_Z (width b) - 200))%Q.
Proof.
  unfold circle_cx, leftEdge, rightEdge. cbn [fadd fmul fsub of_int exact_arith].
  change (inject_Z 100) with 100%Q. ring.
Qed.

End ExactWave.

(** C2, as stated, fails for a buffer that is not wider than 200 pixels.
    At width 200 the right edge is the left edge and the centre does not
    move: the time counters of the first two frames, 0 and 0.05, are both
    in the rising part of the period and give the same cx = 100, in single
    precision and in exact arithmetic alike.  (At a width below 200 the
    interval from 100 to width - 100 is empty.) *)
Lemma circle_cx_constant_at_width_200 :
  fltb (of_int 0 : spec_float) (time_after 1 (of_int 0)) = true /\
  fltb (fmodf (of_int 0 : spec_float) (of_int 4)) (of_int 2) = true /\
  fltb (fmodf (time_after 1 (of_int 0 : spec_float)) (of_int 4)) (of_int 2) = true /\
  circle_cx buffer_200x480 (of_int 0 : spec_float) = of_int 100 /\
  circle_cx buffer_200x480 (time_after 1 (of_int 0 : spec_float)) = of_int 100 /\
  fltb (circle_cx buffer_200x480 (of_int 0 : spec_float))
       (circle_cx buffer_200x480 (time_after 1 (of_int 0 : spec_float))) = false /\
  fltb (of_int 0 : Q) (time_after 1 (of_int 0)) = true /\
  fltb (circle_cx buffer_200x480 (of_int 0 : Q))
       (circle_cx buffer_200x480 (time_after 1 (of_int 0 : Q))) = false.
Proof. vm_compute. repeat split; reflexivity. Qed.

(** C2, amended: for a buffer wider than 200 pixels and a time counter
    [t >= 0], in exact arithmetic.  [cx] has period 4; on each closed
    interval [[4k, 4k+2]] it is the line from 100 up to [width - 100], on
    each closed interval [[4k+2, 4k+4]] the line back down to 100 (the two
    lines meet at the breakpoints, which is the continuity there); it is
    strictly increasing on [[4k, 4k+2)], strictly decreasing on
    [[4k+2, 4k+4)], and stays within [[100, width - 100]]. *)
Theorem circle_cx_triangular_wave (b : ANativeWindow_Buffer) :
  200 < width b ->
  (forall t : Q, (0 <= t)%Q -> (circle_cx b (t + 4) == circle_cx b t)%Q) /\
  (forall (k : Z) (t : Q), 0 <= k ->
     (inject_Z (4 * k) <= t)%Q -> (t <= inject_Z (4 * k) + 2)%Q ->
     (circle_cx b t == 100 + (t - inject_Z (4 * k)) / 2 * (inject_Z (width b) - 200))%Q) /\
  (forall (k : Z) (t : Q), 0 <= k ->
     (inject_Z (4 * k) + 2 <= t)%Q -> (t <= inject_Z (4 * k) + 4)%Q ->
     (circle_cx b t ==
      inject_Z (width b) - 100 - (t - inject_Z (4 * k) - 2) / 2 * (inject_Z (width b) - 200))%Q) /\
  (forall (k : Z) (t1 t2 : Q), 0 <= k ->
     (inject_Z (4 * k) <= t1)%Q -> (t1 < t2)%Q -> (t2 < inject_Z (4 * k) + 2)%Q ->
     (circle_cx b t1 < circle_cx b t2)%Q) /\
  (forall (k : Z) (t1 t2 : Q), 0 <= k ->
     (inject_Z (4 * k) + 2 <= t1)%Q -> (t1 < t2)%Q -> (t2 < inject_Z (4 * k) + 4)%Q ->
     (circle_cx b t2 < circle_cx b t1)%Q) /\
  (forall t : Q, (0 <= t)%Q ->
     (100 <= circle_cx b t)%Q /\ (circle_cx b t <= inject_Z (width b) - 100)%Q).
Proof.
  intros Hw.
  assert (HD : (0 < inject_Z (width b) - 200)%Q).
  { assert (H200 : (inject_Z 200 < inject_Z (width b))%Q) by (rewrite <- Zlt_Qlt; exact Hw).
    change (inject_Z 200) with 200%Q in H200. lra. }
  set (D := (inject_Z (width b) - 200)%Q) in *.
  assert (Hrise : forall (k : Z) (t : Q), 0 <= k ->
     (inject_Z (4 * k) <= t)%Q -> (t <= inject_Z (4 * k) + 2)%Q ->
     (circle_cx b t == 100 + (t - inject_Z (4 * k)) / 2 * D)%Q).
  { intros k t Hk Hlo Hhi. rewrite ExactWave.circle_cx_exact.
    now rewrite (ExactWave.progress_rising_closed t k). }
  assert (Hfall : forall (k : Z) (t : Q), 0 <= k ->
     (inject_Z (4 * k) + 2 <= t)%Q -> (t <= inject_Z (4 * k) + 4)%Q ->
     (circle_cx b t == inject_Z (width b) - 100 - (t - inject_Z (4 * k) - 2) / 2 * D)%Q).
  { intros k t Hk Hlo Hhi. rewrite ExactWave.circle_cx_exact.
    rewrite (ExactWave.progress_falling_closed t k) by assumption.
    fold D. unfold D. field. }
  split; [|split; [exact Hrise | split; [exact Hfall | split; [|split]]]].
  - intros t Ht. destruct (ExactWave.Qtrunc_period t Ht) as (k & Hk & Hlo & Hhi).
    assert (E4 : (inject_Z (4 * (k + 1)) == inject_Z (4 * k) + 4)%Q).
    { replace (4 * (k + 1)) with (4 * k + 4) by lia. now rewrite inject_Z_plus. }
    destruct (Qlt_le_dec t (inject_Z (4 * k) + 2)) as [Hlt | Hge].
    + rewrite (Hrise (k + 1) (t + 4)%Q) by (lia || lra).
      rewrite (Hrise k t) by (lia || lra). rewrite E4. field.
    + rewrite (Hfall (k + 1) (t + 4)%Q) by (lia || lra).
      rewrite (Hfall k t) by (lia || lra). rewrite E4. field.
  - intros k t1 t2 Hk Hlo Hlt Hhi.
    rewrite (Hrise k t1), (Hrise k t2) by (lia || lra).
    assert (Hm : ((t1 - inject_Z (4 * k)) / 2 * D < (t2 - inject_Z (4 * k)) / 2 * D)%Q).
    { apply Qmult_lt_compat_r; [exact HD | apply ExactWave.half_lt; lra]. }
    lra.
  - intros k t1 t2 Hk Hlo Hlt Hhi.
    rewrite (Hfall k t1), (Hfall k t2) by (lia || lra).
    assert (Hm : ((t1 - inject_Z (4 * k) - 2) / 2 * D < (t2 - inject_Z (4 * k) - 2) / 2 * D)%Q).
    { apply Qmult_lt_compat_r; [exact HD | apply ExactWave.half_lt; lra]. }
    lra.
  - intros t Ht. destruct (ExactWave.Qtrunc_period t Ht) as (k & Hk & Hlo & Hhi).
    destruct (Qlt_le_dec t (inject_Z (4 * k) + 2)) as [Hlt | Hge].
    + rewrite (Hrise k t) by (lia || lra).
      destruct (ExactWave.half_unit (t - inject_Z (4 * k))) as [Ha Hb]; [lra | lra |].
      assert (H0 : (0 <= (t - inject_Z (4 * k)) / 2 * D)%Q)
        by (apply Qmult_le_0_compat; [exact Ha | lra]).
      assert (H1 : ((t - inject_Z (4 * k)) / 2 * D <= 1 * D)%Q)
        by (apply Qmult_le_compat_r; [exact Hb | lra]).
      unfold D in *. lra.
    + rewrite (Hfall k t) by (lia || lra).
      destruct (ExactWave.half_unit (t - inject_Z (4 * k) - 2)) as [Ha Hb]; [lra | lra |].
      assert (H0 : (0 <= (t - inject_Z (4 * k) - 2) / 2 * D)%Q)
        by (apply Qmult_le_0_compat; [exact Ha | lra]).
      assert (H1 : ((t - inject_Z (4 * k) - 2) / 2 * D <= 1 * D)%Q)
        by (apply Qmult_le_compat_r; [exact Hb | lra]).
      unfold D in *. lra.
Qed.

Lemma circle_cx_triangular_wave_witness :
  200 < width buffer_800x480 /\
  (forall t : Q, (0 <= t)%Q ->
     (100 <= circle_cx buffer_800x480 t)%Q /\
     (circle_cx buffer_800x480 t <= inject_Z (width buffer_800x480) - 100)%Q).
Proof.
  assert (Hw : 200 < width buffer_800x480) by reflexivity.
  split; [exact Hw|].
  exact (proj2 (proj2 (proj2 (proj2 (proj2 (circle_cx_triangular_wave buffer_800x480 Hw)))))).
Defined.

(** The specification's scenario: 800 x 480, RGBA, t = 0.  The background
    is the packed (20, 20, 30, 255) and the centre is at (100, 240). *)
Example scenario_800x480 :
  bgColor (format buffer_800x480) = 20 + 20 * 2 ^ 8 + 30 * 2 ^ 16 + 255 * 2 ^ 24 /\
  circle_cx buffer_800x480 (of_int 0 : spec_float) = of_int 100 /\
  circle_cy buffer_800x480 = (of_int 240 : spec_float).
Proof. vm_compute. repeat split; reflexivity. Qed.

(** *** The circle *)

(** A loop whose body writes the colour [c] to the watched cell [j] for
    the counters that [hit], and leaves it alone for the others. *)
Lemma for_loop_cells (hit : Z -> bool) (c j : Z) (body : Z -> pixel_memory -> pixel_memory) :
  (forall k p, cells (body k p) j = if hit k then c else cells p j) ->
  forall n i p,
    cells (for_loop n i body p) j = if existsb hit (zrange i n) then c else cells p j.
Proof.
  intros Hbody. induction n as [|n IH]; intros i p; cbn [for_loop zrange existsb].
  - reflexivity.
  - rewrite IH, Hbody. destruct (hit i), (existsb hit (zrange (i + 1) n)); reflexivity.
Qed.

Lemma cells_poke (i c : Z) (p : pixel_memory) (j : Z) :
  cells (poke i c p) j = if j =? i then c else cells p j.
Proof. reflexivity. Qed.

Lemma fill_background_cells (b : ANativeWindow_Buffer) (p : pixel_memory) (j : Z) :
  cells (fill_background b p) j =
    if existsb (fun y => existsb (fun x => j =? pixel_index b y x)
                           (zrange 0 (Z.to_nat (width b))))
               (zrange 0 (Z.to_nat (height b)))
    then bgColor (format b) else cells p j.
Proof.
  unfold fill_background, for_range. rewrite !Z.sub_0_r.
  apply for_loop_cells. intros y q.
  apply for_loop_cells. intros x r. apply cells_poke.
Qed.

Lemma bgColor_not_circleColor (fmt : Z) : bgColor fmt <> circleColor fmt.
Proof.
  unfold bgColor, circleColor.
  destruct (fmt =? WINDOW_FORMAT_RGBA_8888); vm_compute; discriminate.
Qed.

Lemma pixel_index_injective (b : ANativeWindow_Buffer) (y x y' x' : Z) :
  0 <= width b <= stride b ->
  0 <= x < width b -> 0 <= x' < width b ->
  y * stride b + x = y' * stride b + x' -> y = y' /\ x = x'.
Proof. intros Hw Hx Hx' E. assert (y = y') by nia. subst. lia. Qed.

Lemma fill_background_cell_in_buffer (b : ANativeWindow_Buffer) (p : pixel_memory) (x y : Z) :
  valid_buffer b -> 0 <= x < width b -> 0 <= y < height b ->
  cells (fill_background b p) (y * stride b + x) = bgColor (format b).
Proof.
  intros (Hw & Hh & Hs & Hhm & Hsz) Hx Hy. rewrite fill_background_cells.
  assert (E : existsb (fun y' => existsb (fun x' => y * stride b + x =? pixel_index b y' x')
                                   (zrange 0 (Z.to_nat (width b))))
                      (zrange 0 (Z.to_nat (height b))) = true).
  { apply existsb_exists. exists y. split; [apply In_zrange; lia|].
    apply existsb_exists. exists x. split; [apply In_zrange; lia|].
    rewrite pixel_index_exact by assumption. apply Z.eqb_refl. }
  now rewrite E.
Qed.

Section Circle.
Context {F : Type} `{FloatArith F}.

Lemma draw_circle_cells (b : ANativeWindow_Buffer) (cx cy : F)
    (minY maxY minX maxX : Z) (p : pixel_memory) (j : Z) :
  cells (draw_circle b cx cy (minY, maxY, minX, maxX) p) j =
    if existsb (fun y => existsb (fun x => inside_circle cx cy x y && (j =? pixel_index b y x))
                           (zrange minX (Z.to_nat (maxX + 1 - minX))))
               (zrange minY (Z.to_nat (maxY + 1 - minY)))
    then circleColor (format b) else cells p j.
Proof.
  unfold draw_circle, for_range.
  apply for_loop_cells. intros y q.
  apply for_loop_cells. intros x r.
  destruct (inside_circle cx cy x y); cbn [andb]; [apply cells_poke | reflexivity].
Qed.

Lemma circle_bbox_in_buffer (b : ANativeWindow_Buffer) (cx cy : F) (minY maxY minX maxX : Z) :
  valid_buffer b ->
  circle_bbox b cx cy = Some (minY, maxY, minX, maxX) ->
  0 <= minY /\ maxY < height b /\ 0 <= minX /\ maxX < width b.
Proof.
  intros (Hw & Hh & Hs & Hhm & Hsz) Hbox. unfold circle_bbox in Hbox.
  destruct (to_int (fsub cy radius)) as [lowY|]; [|discriminate].
  destruct (to_int (fadd cy radius)) as [highY|]; [|discriminate].
  destruct (to_int (fsub cx radius)) as [lowX|]; [|discriminate].
  destruct (to_int (fadd cx radius)) as [highX|]; [|discriminate].
  injection Hbox as <- <- <- <-.
  unfold int_sub. rewrite !int_wrap_id by (unfold INT_MIN, INT_MAX in *; lia). lia.
Qed.

Lemma draw_locked_cells (b : ANativeWindow_Buffer) (g_time : F) (p : pixel_memory)
    (t' : F) (p' : pixel_memory) :
  valid_buffer b ->
  draw_locked b g_time p = Some (t', p') ->
  exists minY maxY minX maxX,
    circle_bbox b (circle_cx b g_time) (circle_cy b) = Some (minY, maxY, minX, maxX) /\
    forall x y, 0 <= x < width b -> 0 <= y < height b ->
      (cells p' (y * stride b + x) = circleColor (format b) <->
       minY <= y <= maxY /\ minX <= x <= maxX /\
       inside_circle (circle_cx b g_time) (circle_cy b) x y = true).
Proof.
  intros Hb Hdraw. unfold draw_locked in Hdraw. cbv zeta in Hdraw.
  destruct (circle_bbox b (circle_cx b g_time) (circle_cy b))
    as [[[[minY maxY] minX] maxX]|] eqn:Hbox; [|discriminate].
  injection Hdraw as _ <-.
  exists minY, maxY, minX, maxX. split; [reflexivity|].
  destruct (circle_bbox_in_buffer _ _ _ _ _ _ _ Hb Hbox) as (HminY & HmaxY & HminX & HmaxX).
  pose proof Hb as (Hw & Hh & Hs & Hhm & Hsz).
  intros x y Hx Hy.
  pose proof (draw_circle_cells b (circle_cx b g_time) (circle_cy b) minY maxY minX maxX
                (fill_background b p) (y * stride b + x)) as Hcells.
  unfold draw_circle in Hcells. cbv beta iota in Hcells. rewrite Hcells. clear Hcells.
  match goal with |- context [if ?e then _ else _] => destruct e eqn:Hhit end.
  - split; [intros _ | reflexivity].
    apply existsb_exists in Hhit as (y' & Hy' & Hrow).
    apply existsb_exists in Hrow as (x' & Hx' & Hin).
    apply In_zrange in Hy', Hx'. apply andb_true_iff in Hin as [Hin Hidx].
    apply Z.eqb_eq in Hidx. rewrite pixel_index_exact in Hidx by lia.
    apply pixel_index_injective in Hidx as [-> ->]; [|lia..].
    repeat split; (lia || assumption).
  - rewrite fill_background_cell_in_buffer by assumption. split.
    + intros E. exfalso. exact (bgColor_not_circleColor _ E).
    + intros (Hby & Hbx & Hin). exfalso.
      assert (Htrue : existsb (fun y0 => existsb
                 (fun x0 => inside_circle (circle_cx b g_time) (circle_cy b) x0 y0 &&
                            (y * stride b + x =? pixel_index b y0 x0))
                 (zrange minX (Z.to_nat (maxX + 1 - minX))))
                 (zrange minY (Z.to_nat (maxY + 1 - minY))) = true).
      { apply existsb_exists. exists y. split; [apply In_zrange; lia|].
        apply existsb_exists. exists x. split; [apply In_zrange; lia|].
        rewrite Hin, pixel_index_exact by assumption. apply Z.eqb_refl. }
      congruence.
Qed.

End Circle.

(** *** The circle, exact arithmetic *)

Module ExactCircle.
Import ExactBounce ExactWave.

(** Truncation toward zero against integer bounds. *)
Lemma Qtrunc_ge (q : Q) (z : Z) : 0 <= z -> (inject_Z z <= q)%Q -> z <= Exact.Qtrunc q.
Proof.
  destruct q as [n d]. unfold Exact.Qtrunc, Qle. cbn [Qnum Qden inject_Z].
  intros Hz Hq. rewrite Z.quot_div_nonneg by nia.
  apply Z.div_le_lower_bound; nia.
Qed.

Lemma Qtrunc_le (q : Q) (z : Z) : 0 <= z -> (q <= inject_Z z)%Q -> Exact.Qtrunc q <= z.
Proof.
  destruct q as [n d]. unfold Exact.Qtrunc, Qle. cbn [Qnum Qden inject_Z].
  intros Hz Hq. destruct (Z.le_gt_cases 0 n) as [Hn | Hn].
  - rewrite Z.quot_div_nonneg by lia. apply Z.div_le_upper_bound; nia.
  - replace n with (- - n) by lia. rewrite Z.quot_opp_l by lia.
    assert (0 <= Z.quot (- n) (Z.pos d)) by (apply Z.quot_pos; lia). lia.
Qed.

Lemma Qtrunc_lower (q : Q) (z : Z) : z <= 0 -> (inject_Z z <= q)%Q -> z <= Exact.Qtrunc q.
Proof.
  destruct q as [n d]. unfold Exact.Qtrunc, Qle. cbn [Qnum Qden inject_Z].
  intros Hz Hq. destruct (Z.le_gt_cases 0 n) as [Hn | Hn].
  - assert (0 <= Z.quot n (Z.pos d)) by (apply Z.quot_pos; lia). lia.
  - replace n with (- - n) by lia. rewrite Z.quot_opp_l by lia.
    rewrite Z.quot_div_nonneg by lia.
    assert ((- n) / Z.pos d <= - z) by (apply Z.div_le_upper_bound; nia). lia.
Qed.

Lemma Q_to_int_in_range (q : Q) (lo hi : Z) :
  INT_MIN <= lo <= 0 -> 0 <= hi <= INT_MAX ->
  (inject_Z lo <= q)%Q -> (q <= inject_Z hi)%Q ->
  to_int q = Some (Exact.Qtrunc q).
Proof.
  intros Hlo Hhi Hq1 Hq2. cbn [to_int exact_arith]. unfold Exact.Q_to_int, in_int_range.
  pose proof (Qtrunc_lower q lo (proj2 Hlo) Hq1).
  pose proof (Qtrunc_le q hi (proj1 Hhi) Hq2).
  destruct (Z.leb_spec INT_MIN (Exact.Qtrunc q)); [|lia].
  destruct (Z.leb_spec (Exact.Qtrunc q) INT_MAX); [reflexivity | lia].
Qed.

Lemma progress_unit (t : Q) : (0 <= t)%Q -> (0 <= progress_of t)%Q /\ (progress_of t <= 1)%Q.
Proof.
  intros Ht. destruct (Qtrunc_period t Ht) as (k & Hk & Hlo & Hhi).
  destruct (Qlt_le_dec t (inject_Z (4 * k) + 2)) as [Hlt | Hge].
  - rewrite (progress_rising t k) by assumption.
    apply half_unit; lra.
  - rewrite (progress_falling t k) by assumption.
    destruct (half_unit (t - inject_Z (4 * k) - 2)) as [Ha Hb]; lra.
Qed.

Lemma circle_cx_range (b : ANativeWindow_Buffer) (t : Q) :
  0 <= width b -> (0 <= t)%Q ->
  (-100 <= circle_cx b t)%Q /\ (circle_cx b t <= inject_Z (Z.max 100 (width b - 100)))%Q.
Proof.
  intros Hw Ht. rewrite circle_cx_exact.
  destruct (progress_unit t Ht) as [H0 H1].
  set (pr := progress_of t) in *.
  assert (HW : (0 <= inject_Z (width b))%Q) by (change 0%Q with (inject_Z 0); now rewrite <- Zle_Qle).
  destruct (Z.le_gt_cases 200 (width b)) as [Hge | Hlt].
  - rewrite Z.max_r by lia.
    assert (HD : (0 <= inject_Z (width b) - 200)%Q).
    { assert (H200 : (inject_Z 200 <= inject_Z (width b))%Q) by now rewrite <- Zle_Qle.
      change (inject_Z 200) with 200%Q in H200. lra. }
    assert (Ha : (0 <= pr * (inject_Z (width b) - 200))%Q) by now apply Qmult_le_0_compat.
    assert (Hb : (pr * (inject_Z (width b) - 200) <= 1 * (inject_Z (width b) - 200))%Q)
      by now apply Qmult_le_compat_r.
    unfold Z.sub. rewrite inject_Z_plus. change (inject_Z (- (100))) with (-100)%Q. lra.
  - rewrite Z.max_l by lia. change (inject_Z 100) with 100%Q.
    assert (HD : (0 <= 200 - inject_Z (width b))%Q).
    { assert (H200 : (inject_Z (width b) <= inject_Z 200)%Q) by (rewrite <- Zle_Qle; lia).
      change (inject_Z 200) with 200%Q in H200. lra. }
    assert (Ha : (0 <= pr * (200 - inject_Z (width b)))%Q) by now apply Qmult_le_0_compat.
    assert (Hb : (pr * (200 - inject_Z (width b)) <= 1 * (200 - inject_Z (width b)))%Q)
      by now apply Qmult_le_compat_r.
    assert (E : (pr * (inject_Z (width b) - 200) == - (pr * (200 - inject_Z (width b))))%Q) by ring.
    rewrite E. lra.
Qed.

Lemma square_bound (a c : Q) : (a * a + c * c <= 80 * 80)%Q -> (-80 <= a)%Q /\ (a <= 80)%Q.
Proof.
  intros Hs. assert (Hc : (0 <= c * c)%Q) by nra. split; nra.
Qed.

Lemma inside_circle_exact (cx cy : Q) (x y : Z) :
  inside_circle cx cy x y = true <->
  ((inject_Z x - cx) * (inject_Z x - cx) + (inject_Z y - cy) * (inject_Z y - cy) <= 80 * 80)%Q.
Proof.
  unfold inside_circle, radius. cbn [fleb fadd fsub fmul of_int exact_arith].
  change (inject_Z 80) with 80%Q. apply Qle_bool_iff.
Qed.

Lemma circle_bbox_exact (b : ANativeWindow_Buffer) (t : Q) :
  valid_buffer b -> (0 <= t)%Q ->
  circle_bbox b (circle_cx b t) (circle_cy b) =
    Some (Z.max 0 (Exact.Qtrunc (circle_cy b - 80)),
          Z.min (height b - 1) (Exact.Qtrunc (circle_cy b + 80)),
          Z.max 0 (Exact.Qtrunc (circle_cx b t - 80)),
          Z.min (width b - 1) (Exact.Qtrunc (circle_cx b t + 80))).
Proof.
  intros (Hw & Hh & Hs & Hhm & Hsz) Ht.
  destruct (circle_cx_range b t (proj1 Hw) Ht) as [Hx0 Hx1].
  assert (Hx2 : (inject_Z (Z.max 100 (width b - 100)) <= inject_Z (INT_MAX - 100))%Q)
    by (rewrite <- Zle_Qle; unfold INT_MAX in *; lia).
  assert (Hy : (circle_cy b * 2 == inject_Z (height b))%Q).
  { unfold circle_cy. cbn [fdiv of_int exact_arith]. change (inject_Z 2) with 2%Q. field. }
  assert (Hh0 : (inject_Z 0 <= inject_Z (height b))%Q) by now rewrite <- Zle_Qle.
  assert (Hh1 : (inject_Z (height b) <= inject_Z INT_MAX)%Q) by now rewrite <- Zle_Qle.
  change (inject_Z 0) with 0%Q in Hh0.
  change (inject_Z INT_MAX) with 2147483647%Q in Hh1.
  change (inject_Z (INT_MAX - 100)) with 2147483547%Q in Hx2.
  unfold circle_bbox, radius. cbn [fadd fsub of_int exact_arith].
  change (inject_Z 80) with 80%Q.
  rewrite (Q_to_int_in_range (circle_cy b - 80) (-80) INT_MAX);
    [| unfold INT_MIN; lia | unfold INT_MAX; lia
     | change (inject_Z (-80)) with (-80)%Q; lra
     | change (inject_Z INT_MAX) with 2147483647%Q; lra].
  rewrite (Q_to_int_in_range (circle_cy b + 80) 0 INT_MAX);
    [| unfold INT_MIN; lia | unfold INT_MAX; lia
     | change (inject_Z 0) with 0%Q; lra
     | change (inject_Z INT_MAX) with 2147483647%Q; lra].
  rewrite (Q_to_int_in_range (circle_cx b t - 80) (-180) INT_MAX);
    [| unfold INT_MIN; lia | unfold INT_MAX; lia
     | change (inject_Z (-180)) with (-180)%Q; lra
     | change (inject_Z INT_MAX) with 2147483647%Q; lra].
  rewrite (Q_to_int_in_range (circle_cx b t + 80) (-20) INT_MAX);
    [| unfold INT_MIN; lia | unfold INT_MAX; lia
     | change (inject_Z (-20)) with (-20)%Q; lra
     | change (inject_Z INT_MAX) with 2147483647%Q; lra].
  unfold int_sub. rewrite !int_wrap_id by (unfold INT_MIN, INT_MAX in *; lia).
  reflexivity.
Qed.

Lemma inside_circle_in_bbox (b : ANativeWindow_Buffer) (cx cy : Q) (x y : Z) :
  0 <= x < width b -> 0 <= y < height b ->
  inside_circle cx cy x y = true ->
  Z.max 0 (Exact.Qtrunc (cy - 80)) <= y <= Z.min (height b - 1) (Exact.Qtrunc (cy + 80)) /\
  Z.max 0 (Exact.Qtrunc (cx - 80)) <= x <= Z.min (width b - 1) (Exact.Qtrunc (cx + 80)).
Proof.
  intros Hx Hy Hin. apply inside_circle_exact in Hin.
  destruct (square_bound _ _ Hin) as [Hx0 Hx1].
  assert (Hin' : ((inject_Z y - cy) * (inject_Z y - cy) + (inject_Z x - cx) * (inject_Z x - cx)
                  <= 80 * 80)%Q) by lra.
  destruct (square_bound _ _ Hin') as [Hy0 Hy1].
  assert (y <= Exact.Qtrunc (cy + 80)) by (apply Qtrunc_ge; [lia | lra]).
  assert (Exact.Qtrunc (cy - 80) <= y) by (apply Qtrunc_le; [lia | lra]).
  assert (x <= Exact.Qtrunc (cx + 80)) by (apply Qtrunc_ge; [lia | lra]).
  assert (Exact.Qtrunc (cx - 80) <= x) by (apply Qtrunc_le; [lia | lra]).
  lia.
Qed.

Lemma drawFrame_exact (b : ANativeWindow_Buffer) (w : Z) (t : Q) (p : pixel_memory) :
  valid_buffer b -> (0 <= t)%Q ->
  exists t' p',
    drawFrame (Some w) (Some b) t p = Some (t', p') /\
    forall x y, 0 <= x < width b -> 0 <= y < height b ->
      (cells p' (y * stride b + x) = circleColor (format b) <->
       ((inject_Z x - circle_cx b t) * (inject_Z x - circle_cx b t) +
        (inject_Z y - circle_cy b) * (inject_Z y - circle_cy b) <= 80 * 80)%Q).
Proof.
  intros Hb Ht. pose proof (circle_bbox_exact b t Hb Ht) as Hbox.
  cbn [drawFrame].
  destruct (draw_locked b t p) as [[t' p']|] eqn:Hdraw.
  - exists t', p'. split; [reflexivity|].
    destruct (draw_locked_cells b t p t' p' Hb Hdraw)
      as (minY & maxY & minX & maxX & Hbox' & Hcells).
    rewrite Hbox in Hbox'. injection Hbox' as <- <- <- <-.
    intros x y Hx Hy. rewrite (Hcells x y Hx Hy), <- inside_circle_exact. split.
    + tauto.
    + intros Hin. pose proof (inside_circle_in_bbox b _ _ x y Hx Hy Hin). tauto.
  - exfalso. unfold draw_locked in Hdraw. cbv zeta in Hdraw.
    rewrite Hbox in Hdraw. discriminate.
Qed.

End ExactCircle.

Lemma valid_buffer_800x480 : valid_buffer buffer_800x480.
Proof. unfold valid_buffer. vm_compute. repeat split; congruence. Qed.

Lemma valid_wide_buffer : valid_buffer wide_buffer.
Proof. unfold valid_buffer. vm_compute. repeat split; congruence. Qed.

(** C3, as stated, fails in single precision, whichever way the inequality
    is read.
    - Read as an inequality between numbers, on the specification's own
      800 x 480 buffer: in the tenth frame the centre is
      cx = 15400961 * 2^-16 = 235.0000152..., cy = 240.  For the pixel
      (235, 160), dx*dx rounds to about 2.3e-10, dy*dy is 6400, and their
      sum rounds to 6400, so the test passes and the pixel holds the circle
      colour, while (x-cx)^2 + (y-cy)^2 is larger than radius^2.
    - Read as the test the code evaluates, on a buffer wider than 2^24: in
      frame 41 of [wide_buffer] the centre is cx = 16777408, cy = 1 and the
      bounding box ends at maxX = 16777488.  The column 16777489 is not a
      single-precision number and converts to 16777488, so dx = 80 and the
      pixel (16777489, 1) passes the test; it lies outside the box, is never
      tested, and does not hold the circle colour. *)
Lemma circle_pixels_differ_from_the_test :
  (exists t' p',
     drawFrame (Some 1) (Some buffer_800x480) tenth_frame_time blank_memory = Some (t', p') /\
     cells p' (160 * stride buffer_800x480 + 235) = circleColor (format buffer_800x480) /\
     (80 * 80 <
      (235 - Binary32.to_Q (circle_cx buffer_800x480 tenth_frame_time)) *
      (235 - Binary32.to_Q (circle_cx buffer_800x480 tenth_frame_time)) +
      (160 - Binary32.to_Q (circle_cy buffer_800x480)) *
      (160 - Binary32.to_Q (circle_cy buffer_800x480)))%Q) /\
  (exists t' p',
     drawFrame (Some 1) (Some wide_buffer) (time_after 40 (of_int 0 : spec_float)) blank_memory
       = Some (t', p') /\
     circle_bbox wide_buffer (circle_cx wide_buffer (time_after 40 (of_int 0 : spec_float)))
       (circle_cy wide_buffer) = Some (0, 1, 16777328, 16777488) /\
     inside_circle (circle_cx wide_buffer (time_after 40 (of_int 0 : spec_float)))
       (circle_cy wide_buffer) 16777489 1 = true /\
     cells p' (1 * stride wide_buffer + 16777489) <> circleColor (format wide_buffer)).
Proof.
  split.
  - assert (Hbox : circle_bbox buffer_800x480 (circle_cx buffer_800x480 tenth_frame_time)
                     (circle_cy buffer_800x480) = Some (160, 320, 155, 315))
      by (vm_compute; reflexivity).
    cbn [drawFrame].
    destruct (draw_locked buffer_800x480 tenth_frame_time blank_memory) as [[t' p']|] eqn:Hdraw.
    + exists t', p'. split; [reflexivity|]. split.
      * destruct (draw_locked_cells _ _ _ _ _ valid_buffer_800x480 Hdraw)
          as (minY & maxY & minX & maxX & Hbox' & Hcells).
        rewrite Hbox in Hbox'. injection Hbox' as <- <- <- <-.
        apply Hcells; [vm_compute; split; congruence | vm_compute; split; congruence |].
        vm_compute. repeat split; congruence.
      * vm_compute. reflexivity.
    + exfalso. unfold draw_locked in Hdraw. cbv zeta in Hdraw.
      rewrite Hbox in Hdraw. discriminate.
  - assert (Hbox : circle_bbox wide_buffer
                     (circle_cx wide_buffer (time_after 40 (of_int 0 : spec_float)))
                     (circle_cy wide_buffer) = Some (0, 1, 16777328, 16777488))
      by (vm_compute; reflexivity).
    cbn [drawFrame].
    destruct (draw_locked wide_buffer (time_after 40 (of_int 0 : spec_float)) blank_memory)
      as [[t' p']|] eqn:Hdraw.
    + exists t', p'. split; [reflexivity|]. split; [exact Hbox|].
      split; [vm_compute; reflexivity|].
      destruct (draw_locked_cells _ _ _ _ _ valid_wide_buffer Hdraw)
        as (minY & maxY & minX & maxX & Hbox' & Hcells).
      rewrite Hbox in Hbox'. injection Hbox' as <- <- <- <-.
      intros Hcol. apply Hcells in Hcol; [| vm_compute; split; congruence..].
      destruct Hcol as (_ & [_ Hx] & _). revert Hx. vm_compute. congruence.
    + exfalso. unfold draw_locked in Hdraw. cbv zeta in Hdraw.
      rewrite Hbox in Hdraw. discriminate.
Qed.

(** C3, amended.  In a frame drawn into a valid buffer, a pixel of the
    buffer holds the circle colour after the circle loops exactly when it
    lies in the clamped bounding box and passes the test
    [dx*dx + dy*dy <= radius*radius] as the code evaluates it, rounding
    included; equality passes.  In exact arithmetic, for a time counter
    [t >= 0], that is exactly when (x-cx)^2 + (y-cy)^2 <= radius^2: there
    the bounding box excludes no pixel that passes the test. *)
Theorem circle_pixels (b : ANativeWindow_Buffer) (w : Z) :
  valid_buffer b ->
  (forall (F : Type) (A : FloatArith F) (g_time : F) (p : pixel_memory)
          (t' : F) (p' : pixel_memory),
     drawFrame (Some w) (Some b) g_time p = Some (t', p') ->
     exists minY maxY minX maxX,
       circle_bbox b (circle_cx b g_time) (circle_cy b) = Some (minY, maxY, minX, maxX) /\
       forall x y, 0 <= x < width b -> 0 <= y < height b ->
         (cells p' (y * stride b + x) = circleColor (format b) <->
          minY <= y <= maxY /\ minX <= x <= maxX /\
          inside_circle (circle_cx b g_time) (circle_cy b) x y = true)) /\
  (forall (g_time : Q) (p : pixel_memory), (0 <= g_time)%Q ->
     exists t' p',
       drawFrame (Some w) (Some b) g_time p = Some (t', p') /\
       forall x y, 0 <= x < width b -> 0 <= y < height b ->
         (cells p' (y * stride b + x) = circleColor (format b) <->
          ((inject_Z x - circle_cx b g_time) * (inject_Z x - circle_cx b g_time) +
           (inject_Z y - circle_cy b) * (inject_Z y - circle_cy b) <= 80 * 80)%Q)).
Proof.
  intros Hb. split.
  - intros F A g_time p t' p' Hdraw. now apply (draw_locked_cells b g_time p t' p').
  - intros g_time p Ht. now apply ExactCircle.drawFrame_exact.
Qed.

Lemma circle_pixels_witness :
  valid_buffer buffer_800x480 /\
  (forall (g_time : Q) (p : pixel_memory), (0 <= g_time)%Q ->
     exists t' p',
       drawFrame (Some 1) (Some buffer_800x480) g_time p = Some (t', p') /\
       forall x y, 0 <= x < width buffer_800x480 -> 0 <= y < height buffer_800x480 ->
         (cells p' (y * stride buffer_800x480 + x) = circleColor (format buffer_800x480) <->
          ((inject_Z x - circle_cx buffer_800x480 g_time) *
           (inject_Z x - circle_cx buffer_800x480 g_time) +
           (inject_Z y - circle_cy buffer_800x480) *
           (inject_Z y - circle_cy buffer_800x480) <= 80 * 80)%Q)).
Proof.
  assert (Hb : valid_buffer buffer_800x480)
    by (unfold valid_buffer; vm_compute; repeat split; congruence).
  split; [exact Hb|].
  exact (proj2 (circle_pixels buffer_800x480 1 Hb)).
Defined.

(** *** Shader objects *)

Lemma set_objects_same (c : gl_context) : set_objects c (objects c) = c.
Proof. destruct c; reflexivity. Qed.

Lemma with_objects_eval (f : gmap positive gl_object -> gmap positive gl_object) (c : gl_context) :
  with_objects f c = (tt, set_objects c (f (objects c))).
Proof. reflexivity. Qed.

Lemma attached_somewhere_false (objs : gmap positive gl_object) (s : positive) :
  (forall p att lnk fl, objs !! p = Some (ProgramObject att lnk fl) -> s ∉ att) ->
  attached_somewhere objs s = false.
Proof.
  intros Hno. unfold attached_somewhere.
  destruct (existsb _ _) eqn:E; [|reflexivity].
  apply existsb_exists in E as ([p o] & Hin & Hatt).
  apply list_elem_of_In, elem_of_map_to_list in Hin.
  destruct o as [| att lnk fl]; cbn in Hatt; [discriminate|].
  apply bool_decide_eq_true in Hatt. exfalso. exact (Hno p att lnk fl Hin Hatt).
Qed.

(** A name that is not in use is attached nowhere, also after shaders
    have been added to the table. *)
Lemma unused_not_attached (objs : gmap positive gl_object) (s : positive) :
  (forall p att lnk fl s', objs !! p = Some (ProgramObject att lnk fl) -> s' ∈ att ->
     is_Some (objs !! s')) ->
  objs !! s = None ->
  forall p att lnk fl, objs !! p = Some (ProgramObject att lnk fl) -> s ∉ att.
Proof.
  intros Hwf Hs p att lnk fl Hp Hin.
  destruct (Hwf p att lnk fl s Hp Hin) as [o Ho]. congruence.
Qed.

Lemma fresh_unused (objs : gmap positive gl_object) : objs !! fresh (dom objs) = None.
Proof. apply not_elem_of_dom. apply is_fresh. Qed.

Lemma programs_after_insert_shader (objs : gmap positive gl_object) (n : positive)
    (t : Z) (src : string) (cmp fl : bool) :
  (forall p att lnk fl' s', objs !! p = Some (ProgramObject att lnk fl') -> s' ∈ att ->
     is_Some (objs !! s')) ->
  objs !! n = None ->
  forall s, (s = n \/ objs !! s = None) ->
  attached_somewhere (<[n := ShaderObject t src cmp fl]> objs) s = false.
Proof.
  intros Hwf Hn s Hs. apply attached_somewhere_false.
  intros p att lnk fl' Hp Hin.
  destruct (decide (p = n)) as [-> | Hne].
  - rewrite lookup_insert_eq in Hp. discriminate.
  - rewrite lookup_insert_ne in Hp by congruence.
    destruct (Hwf p att lnk fl' s Hp Hin) as [o Ho].
    destruct Hs as [-> | Hs]; congruence.
Qed.

Lemma compileShader_result (drv : gl_driver) (ty : Z) (src : string) (c : gl_context) :
  gl_wf c ->
  compileShader drv ty src c =
    if creation_succeeds drv (objects c) && compiles drv ty src
    then (Zpos (fresh (dom (objects c))),
          set_objects c (<[fresh (dom (objects c)) := ShaderObject ty src true false]> (objects c)))
    else (0, c).
Proof.
  intros [Hatt Hcur]. unfold compileShader, gl_bind, glCreateShader.
  destruct (creation_succeeds drv (objects c)); cbn [andb]; [|reflexivity].
  set (n := fresh (dom (objects c))).
  assert (Hn : objects c !! n = None) by apply fresh_unused.
  rewrite with_objects_eval. cbn [snd]. cbn [Z.eqb].
  unfold glShaderSource, glCompileShader. rewrite !with_objects_eval.
  cbn [objects set_objects]. rewrite !alter_insert_eq.
  unfold glGetShaderiv_COMPILE_STATUS. cbn [objects set_objects object_of].
  rewrite lookup_insert_eq.
  destruct (compiles drv ty src) eqn:Hc; cbn [negb].
  - reflexivity.
  - unfold glDeleteShader. rewrite with_objects_eval. cbn [objects set_objects].
    rewrite lookup_insert_eq.
    rewrite (programs_after_insert_shader _ _ _ _ _ _ Hatt Hn n) by auto.
    rewrite delete_insert_id by exact Hn.
    unfold gl_ret. f_equal. destruct c; reflexivity.
Qed.

Lemma attached_somewhere_false_inv (objs : gmap positive gl_object) (s : positive) :
  attached_somewhere objs s = false ->
  forall p att lnk fl, objs !! p = Some (ProgramObject att lnk fl) -> s ∉ att.
Proof.
  unfold attached_somewhere. intros E p att lnk fl Hp Hin.
  assert (Ht : existsb (fun no => is_attached_to s (snd no)) (map_to_list objs) = true).
  { apply existsb_exists. exists (p, ProgramObject att lnk fl). split.
    - apply list_elem_of_In, elem_of_map_to_list. exact Hp.
    - cbn. now apply bool_decide_eq_true. }
  congruence.
Qed.

Lemma not_attached_insert_shader (objs : gmap positive gl_object) (n s : positive)
    (t : Z) (src : string) (cmp fl : bool) :
  attached_somewhere objs s = false ->
  attached_somewhere (<[n := ShaderObject t src cmp fl]> objs) s = false.
Proof.
  intros E. apply attached_somewhere_false. intros p att lnk fl' Hp.
  destruct (decide (p = n)) as [-> | Hne].
  - rewrite lookup_insert_eq in Hp. discriminate.
  - rewrite lookup_insert_ne in Hp by congruence.
    exact (attached_somewhere_false_inv objs s E p att lnk fl' Hp).
Qed.

Lemma attached_somewhere_true (objs : gmap positive gl_object) (s p : positive)
    (att : list positive) (lnk fl : bool) :
  objs !! p = Some (ProgramObject att lnk fl) -> s ∈ att ->
  attached_somewhere objs s = true.
Proof.
  intros Hp Hin. destruct (attached_somewhere objs s) eqn:E; [reflexivity|].
  exfalso. exact (attached_somewhere_false_inv objs s E p att lnk fl Hp Hin).
Qed.

Lemma gl_wf_insert_shader (c : gl_context) (n : positive) (t : Z) (src : string) (cmp fl : bool) :
  gl_wf c -> objects c !! n = None ->
  gl_wf (set_objects c (<[n := ShaderObject t src cmp fl]> (objects c))).
Proof.
  intros [Hatt Hcur] Hn. split; cbn [objects set_objects current_program].
  - intros p att lnk fl' s Hp Hin.
    destruct (decide (p = n)) as [-> | Hne].
    + rewrite lookup_insert_eq in Hp. discriminate.
    + rewrite lookup_insert_ne in Hp by congruence.
      destruct (Hatt p att lnk fl' s Hp Hin) as [o Ho].
      destruct (decide (s = n)) as [-> | Hsn]; [congruence|].
      rewrite lookup_insert_ne by congruence. eauto.
  - intros m Hm. destruct (Hcur m Hm) as [o Ho].
    destruct (decide (m = n)) as [-> | Hmn]; [congruence|].
    rewrite lookup_insert_ne by congruence. eauto.
Qed.

Lemma glDeleteShader_unattached (c : gl_context) (n : positive)
    (t : Z) (src : string) (cmp fl : bool) :
  objects c !! n = Some (ShaderObject t src cmp fl) ->
  attached_somewhere (objects c) n = false ->
  glDeleteShader (Zpos n) c = (tt, set_objects c (delete n (objects c))).
Proof.
  intros Hn Hatt. unfold glDeleteShader. rewrite with_objects_eval, Hn, Hatt. reflexivity.
Qed.

Lemma set_objects_twice (c : gl_context) (a b : gmap positive gl_object) :
  set_objects (set_objects c a) b = set_objects c b.
Proof. reflexivity. Qed.

(** [createProgram], step by step.  [n1], [n2] and [p] are the names the
    context gives to the vertex stage, the fragment stage and the program. *)
Lemma createProgram_result (drv : gl_driver) (vsrc fsrc : string) (c : gl_context) :
  gl_wf c ->
  let n1 := fresh (dom (objects c)) in
  let objs1 := <[n1 := ShaderObject GL_VERTEX_SHADER vsrc true false]> (objects c) in
  let n2 := fresh (dom objs1) in
  let objs2 := <[n2 := ShaderObject GL_FRAGMENT_SHADER fsrc true false]> objs1 in
  let p := fresh (dom objs2) in
  createProgram drv vsrc fsrc c =
    if creation_succeeds drv (objects c) && compiles drv GL_VERTEX_SHADER vsrc &&
       (creation_succeeds drv objs1 && compiles drv GL_FRAGMENT_SHADER fsrc) &&
       creation_succeeds drv objs2 &&
       links drv [(GL_VERTEX_SHADER, vsrc); (GL_FRAGMENT_SHADER, fsrc)]
    then (Zpos p,
          set_objects c
            (<[n2 := ShaderObject GL_FRAGMENT_SHADER fsrc true true]>
               (<[n1 := ShaderObject GL_VERTEX_SHADER vsrc true true]>
                  (<[p := ProgramObject [n1; n2] true false]> objs2))))
    else (0, c).
Proof.
  intros Hwf n1 objs1 n2 objs2 p.
  pose proof Hwf as [Hatt Hcur].
  assert (Hn1 : objects c !! n1 = None) by apply fresh_unused.
  assert (Hn2 : objs1 !! n2 = None) by apply fresh_unused.
  assert (Hp : objs2 !! p = None) by apply fresh_unused.
  assert (Hn21 : n2 <> n1).
  { intros E. rewrite E in Hn2. unfold objs1 in Hn2. rewrite lookup_insert_eq in Hn2. discriminate. }
  assert (Hpn2 : p <> n2).
  { intros E. rewrite E in Hp. unfold objs2 in Hp. rewrite lookup_insert_eq in Hp. discriminate. }
  assert (Hpn1 : p <> n1).
  { intros E. rewrite E in Hp. unfold objs2, objs1 in Hp.
    rewrite lookup_insert_ne, lookup_insert_eq in Hp by congruence. discriminate. }
  assert (Hn2' : objects c !! n2 = None).
  { unfold objs1 in Hn2. now rewrite lookup_insert_ne in Hn2 by congruence. }
  assert (Hp' : objects c !! p = None).
  { unfold objs2, objs1 in Hp. now rewrite !lookup_insert_ne in Hp by congruence. }
  pose proof (gl_wf_insert_shader c n1 GL_VERTEX_SHADER vsrc true false Hwf Hn1) as Hwf1.
  fold objs1 in Hwf1.
  unfold createProgram, gl_bind.
  rewrite (compileShader_result drv GL_VERTEX_SHADER vsrc c Hwf). fold n1. fold objs1.
  destruct (creation_succeeds drv (objects c) && compiles drv GL_VERTEX_SHADER vsrc);
    cbn [andb Z.eqb]; [|reflexivity].
  rewrite (compileShader_result drv GL_FRAGMENT_SHADER fsrc _ Hwf1).
  cbn [objects set_objects]. fold n2. rewrite set_objects_twice. fold objs2.
  (* the vertex stage alone, when the fragment stage fails *)
  assert (Hdel1 : glDeleteShader (Z.pos n1) (set_objects c objs1) = (tt, c)).
  { rewrite (glDeleteShader_unattached _ n1 GL_VERTEX_SHADER vsrc true false).
    - cbn [objects set_objects]. unfold objs1. rewrite delete_insert_id by exact Hn1.
      now rewrite set_objects_twice, set_objects_same.
    - cbn [objects set_objects]. unfold objs1. apply lookup_insert_eq.
    - cbn [objects set_objects]. unfold objs1.
      apply (programs_after_insert_shader _ _ _ _ _ _ Hatt Hn1). now left. }
  destruct (creation_succeeds drv objs1 && compiles drv GL_FRAGMENT_SHADER fsrc);
    cbn [andb Z.eqb].
  2: { rewrite Hdel1. reflexivity. }
  (* both stages, when the program cannot be created or does not link *)
  assert (Hdel2 : forall c', c' = set_objects c objs2 ->
            (let (_, c'') := glDeleteShader (Z.pos n1) c' in
             let (_, c''') := glDeleteShader (Z.pos n2) c'' in gl_ret 0 c''') = (0, c)).
  { intros c' ->.
    rewrite (glDeleteShader_unattached _ n1 GL_VERTEX_SHADER vsrc true false).
    - cbn [objects set_objects]. rewrite set_objects_twice.
      assert (E : delete n1 objs2 = <[n2 := ShaderObject GL_FRAGMENT_SHADER fsrc true false]> (objects c)).
      { unfold objs2, objs1. rewrite delete_insert_ne by congruence.
        now rewrite delete_insert_id by exact Hn1. }
      rewrite E.
      rewrite (glDeleteShader_unattached _ n2 GL_FRAGMENT_SHADER fsrc true false).
      + cbn [objects set_objects]. rewrite delete_insert_id by exact Hn2'.
        now rewrite set_objects_twice, set_objects_same.
      + cbn [objects set_objects]. apply lookup_insert_eq.
      + cbn [objects set_objects].
        apply (programs_after_insert_shader _ _ _ _ _ _ Hatt Hn2'). now left.
    - cbn [objects set_objects]. unfold objs2.
      rewrite lookup_insert_ne by congruence. unfold objs1. apply lookup_insert_eq.
    - cbn [objects set_objects]. unfold objs2. apply not_attached_insert_shader.
      unfold objs1. apply (programs_after_insert_shader _ _ _ _ _ _ Hatt Hn1). now left. }
  assert (L1 : objs2 !! n1 = Some (ShaderObject GL_VERTEX_SHADER vsrc true false)).
  { unfold objs2. rewrite lookup_insert_ne by congruence. unfold objs1. apply lookup_insert_eq. }
  assert (L2 : objs2 !! n2 = Some (ShaderObject GL_FRAGMENT_SHADER fsrc true false)).
  { unfold objs2. apply lookup_insert_eq. }
  unfold glCreateProgram. cbn [objects set_objects]. fold p.
  destruct (creation_succeeds drv objs2); cbn [andb].
  2: { cbn [Z.eqb]. now apply Hdel2. }
  rewrite with_objects_eval. cbn [snd Z.eqb objects set_objects]. rewrite set_objects_twice.
  (* attach the two stages *)
  unfold glAttachShader. rewrite with_objects_eval. cbn [objects set_objects].
  rewrite lookup_insert_eq, lookup_insert_ne, L1 by congruence.
  rewrite bool_decide_eq_false_2 by (apply not_elem_of_nil).
  rewrite insert_insert_eq, set_objects_twice. cbn [app].
  rewrite with_objects_eval. cbn [objects set_objects].
  rewrite lookup_insert_eq, lookup_insert_ne, L2 by congruence.
  rewrite bool_decide_eq_false_2
    by (rewrite list_elem_of_singleton; congruence).
  rewrite insert_insert_eq, set_objects_twice. cbn [app].
  (* link *)
  unfold glLinkProgram. rewrite with_objects_eval. cbn [objects set_objects].
  rewrite lookup_insert_eq.
  assert (Hst : omap (stage_of (<[p := ProgramObject [n1; n2] false false]> objs2)) [n1; n2]
                = [(GL_VERTEX_SHADER, vsrc, true); (GL_FRAGMENT_SHADER, fsrc, true)]).
  { cbn [omap list_omap]. unfold stage_of.
    rewrite !lookup_insert_ne, L1, L2 by congruence. reflexivity. }
  rewrite Hst. cbn [forallb map fst snd andb].
  rewrite insert_insert_eq, set_objects_twice.
  unfold glGetProgramiv_LINK_STATUS. cbn [objects set_objects object_of].
  rewrite lookup_insert_eq.
  destruct (links drv [(GL_VERTEX_SHADER, vsrc); (GL_FRAGMENT_SHADER, fsrc)]); cbn [negb].
  - (* linked: the stages are flagged, the program keeps them *)
    unfold glDeleteShader. rewrite with_objects_eval. cbn [objects set_objects].
    rewrite lookup_insert_ne, L1 by congruence.
    rewrite (attached_somewhere_true _ n1 p [n1; n2] true false)
      by (rewrite ?lookup_insert_eq; set_solver).
    rewrite set_objects_twice, with_objects_eval. cbn [objects set_objects].
    rewrite !lookup_insert_ne, L2 by congruence.
    rewrite (attached_somewhere_true _ n2 p [n1; n2] true false)
      by (rewrite ?lookup_insert_ne, ?lookup_insert_eq by congruence; set_solver).
    rewrite set_objects_twice. reflexivity.
  - (* not linked: the program goes, then the stages *)
    unfold glDeleteProgram. cbn [objects set_objects current_program].
    rewrite lookup_insert_eq.
    destruct (Z.eqb_spec (current_program c) (Z.pos p)) as [Ecur | _].
    { destruct (Hcur p Ecur) as [o Ho]. congruence. }
    rewrite with_objects_eval. cbn [objects set_objects].
    rewrite delete_insert_id by exact Hp. cbn [fold_left].
    unfold release_detached. rewrite L1, L2. rewrite set_objects_twice.
    now apply Hdel2.
Qed.

Lemma createProgram_failure (drv : gl_driver) (vsrc fsrc : string) (c : gl_context) :
  gl_wf c ->
  compiles drv GL_VERTEX_SHADER vsrc = false \/
  compiles drv GL_FRAGMENT_SHADER fsrc = false \/
  links drv [(GL_VERTEX_SHADER, vsrc); (GL_FRAGMENT_SHADER, fsrc)] = false ->
  createProgram drv vsrc fsrc c = (0, c).
Proof.
  intros Hwf Hfail. rewrite (createProgram_result drv vsrc fsrc c Hwf).
  match goal with |- (if ?cond then _ else _) = _ => destruct cond eqn:Hall end;
    [|reflexivity].
  exfalso. rewrite !andb_true_iff in Hall.
  destruct Hfail as [Hf | [Hf | Hf]]; rewrite Hf in Hall; intuition discriminate.
Qed.

(** C8. When the vertex stage or the fragment stage does not compile, or
    the program does not link, [createProgram] returns 0 and [initGL]
    returns [false] with [g_shaderProgram = 0], and the context is the one
    from before the call: no shader object and no program object is left
    (whatever had been created on the way has been deleted), and no buffer
    was made.  The other statics keep their values. *)
Theorem initGL_failure_leaves_nothing (drv : gl_driver) (g : gl_globals) (c : gl_context) :
  gl_wf c ->
  compiles drv GL_VERTEX_SHADER vertexShaderSource = false \/
  compiles drv GL_FRAGMENT_SHADER fragmentShaderSource = false \/
  links drv [(GL_VERTEX_SHADER, vertexShaderSource);
             (GL_FRAGMENT_SHADER, fragmentShaderSource)] = false ->
  createProgram drv vertexShaderSource fragmentShaderSource c = (0, c) /\
  initGL drv g c =
    ((false, {| g_shaderProgram := 0;
                g_mvpMatrixLocation := g_mvpMatrixLocation g;
                g_colorLocation := g_colorLocation g;
                g_vbo := g_vbo g; g_width := g_width g; g_height := g_height g |}), c).
Proof.
  intros Hwf Hfail.
  pose proof (createProgram_failure drv _ _ c Hwf Hfail) as Hcreate.
  split; [exact Hcreate|].
  unfold initGL, gl_bind. rewrite Hcreate. reflexivity.
Qed.

Lemma initGL_failure_leaves_nothing_witness :
  gl_wf empty_context /\
  compiles fragment_rejecting_driver GL_FRAGMENT_SHADER fragmentShaderSource = false /\
  createProgram fragment_rejecting_driver vertexShaderSource fragmentShaderSource empty_context
    = (0, empty_context) /\
  initGL fragment_rejecting_driver initial_globals empty_context
    = ((false, initial_globals), empty_context).
Proof.
  assert (Hwf : gl_wf empty_context).
  { split; cbn [objects current_program empty_context].
    - intros p att lnk fl s Hp. rewrite lookup_empty in Hp. discriminate.
    - intros n Hn. discriminate. }
  assert (Hfs : compiles fragment_rejecting_driver GL_FRAGMENT_SHADER fragmentShaderSource = false)
    by reflexivity.
  split; [exact Hwf|]. split; [exact Hfs|].
  exact (initGL_failure_leaves_nothing fragment_rejecting_driver initial_globals empty_context
           Hwf (or_intror (or_introl Hfs))).
Defined.

(** *** Thread creation failure *)

(** C9. When [pthread_create] fails in [nativeOnSurfaceCreated], the
    handler ends with the running flag cleared and the window handle
    [nullptr], the values of the state before any session; the reference it
    had acquired on the window is released (the count of every window is
    what it was before the call), no render thread is running, and the time
    counter is untouched. *)
Theorem thread_creation_failure_reverts_to_idle {F : Type}
    (w : Z) (out : pthread_outcome) (s : native_state F) (pf : platform) :
  pc_result out <> 0 ->
  let s' := fst (nativeOnSurfaceCreated (Some w) out s pf) in
  let pf' := snd (nativeOnSurfaceCreated (Some w) out s pf) in
  g_running s' = false /\
  g_window s' = None /\
  (forall v, window_refs pf' v = window_refs pf v) /\
  threads pf' = threads pf /\
  g_time s' = g_time s.
Proof.
  intros Hfail s' pf'. subst s' pf'. unfold nativeOnSurfaceCreated, pthread_create.
  destruct (Z.eqb_spec (pc_result out) 0) as [E | _]; [contradiction|].
  cbn. repeat split.
  intros v. destruct (Z.eqb_spec v w); lia.
Qed.

Lemma thread_creation_failure_reverts_to_idle_witness :
  pc_result failed_thread_creation <> 0 /\
  g_running (fst (nativeOnSurfaceCreated (Some 7) failed_thread_creation
                    (idle_state : native_state spec_float) quiet_platform)) = false /\
  g_window (fst (nativeOnSurfaceCreated (Some 7) failed_thread_creation
                   (idle_state : native_state spec_float) quiet_platform)) = None.
Proof.
  assert (Hfail : pc_result failed_thread_creation <> 0) by (vm_compute; discriminate).
  split; [exact Hfail|].
  destruct (thread_creation_failure_reverts_to_idle 7 failed_thread_creation
              (idle_state : native_state spec_float) quiet_platform Hfail) as (Hr & Hw & _).
  split; [exact Hr | exact Hw].
Defined.

(** * Further properties of the code *)

(** ** The pixel renderer: a whole frame *)

Lemma writes_within_refl (P : Z -> Prop) (p : pixel_memory) : writes_within P p p.
Proof. split; [exists []; split; [reflexivity | constructor] | reflexivity]. Qed.

Lemma writes_within_trans (P : Z -> Prop) (p q r : pixel_memory) :
  writes_within P p q -> writes_within P q r -> writes_within P p r.
Proof.
  intros [(ws1 & E1 & F1) C1] [(ws2 & E2 & F2) C2]. split.
  - exists (ws2 ++ ws1). split.
    + rewrite E2, E1. apply List.app_assoc.
    + apply Forall_app; split; assumption.
  - intros j Hj. rewrite (C2 j Hj). exact (C1 j Hj).
Qed.

Lemma writes_within_poke (P : Z -> Prop) (i c : Z) (p : pixel_memory) :
  P i -> writes_within P p (poke i c p).
Proof.
  intros Hi. split.
  - exists [i]. split; [reflexivity | repeat constructor; exact Hi].
  - intros j Hj. cbn [poke cells].
    destruct (Z.eqb_spec j i) as [-> | _]; [contradiction | reflexivity].
Qed.

Lemma for_loop_writes_within (P : Z -> Prop) (body : Z -> pixel_memory -> pixel_memory)
    (n : nat) :
  forall i p,
    (forall k q, i <= k < i + Z.of_nat n -> writes_within P q (body k q)) ->
    writes_within P p (for_loop n i body p).
Proof.
  induction n as [|n IH]; intros i p Hbody; cbn [for_loop].
  - apply writes_within_refl.
  - apply writes_within_trans with (q := body i p).
    + apply Hbody. lia.
    + apply IH. intros k q Hk. apply Hbody. lia.
Qed.

Lemma logical_pixel_in_buffer (b : ANativeWindow_Buffer) (i : Z) :
  0 <= width b <= stride b -> logical_pixel b i ->
  0 <= i < height b * stride b /\
  forall row, ~ (row * stride b + width b <= i < row * stride b + stride b).
Proof.
  intros Hw (x & y & Hx & Hy & ->). split; [nia|].
  intros row Hrow. destruct (Z.lt_trichotomy row y) as [Hlt | [-> | Hgt]]; nia.
Qed.

Lemma fill_background_within (b : ANativeWindow_Buffer) (p : pixel_memory) :
  valid_buffer b -> writes_within (logical_pixel b) p (fill_background b p).
Proof.
  intros (Hw & Hh & Hs & Hhm & Hsz). unfold fill_background, for_range.
  apply for_loop_writes_within. intros y q Hy.
  apply for_loop_writes_within. intros x r Hx.
  apply writes_within_poke.
  rewrite pixel_index_exact by lia. exists x, y. repeat split; lia.
Qed.

Section WholeFrame.
Context {F : Type} `{FloatArith F}.

Lemma draw_circle_within (b : ANativeWindow_Buffer) (cx cy : F)
    (minY maxY minX maxX : Z) (p : pixel_memory) :
  valid_buffer b ->
  0 <= minY -> maxY < height b -> 0 <= minX -> maxX < width b ->
  writes_within (logical_pixel b) p (draw_circle b cx cy (minY, maxY, minX, maxX) p).
Proof.
  intros (Hw & Hh & Hs & Hhm & Hsz) HminY HmaxY HminX HmaxX.
  unfold draw_circle, for_range.
  apply for_loop_writes_within. intros y q Hy.
  apply for_loop_writes_within. intros x r Hx.
  destruct (inside_circle cx cy x y); [|apply writes_within_refl].
  apply writes_within_poke.
  rewrite pixel_index_exact by lia. exists x, y. repeat split; lia.
Qed.

Lemma draw_locked_within (b : ANativeWindow_Buffer) (g_time : F) (p : pixel_memory)
    (t' : F) (p' : pixel_memory) :
  valid_buffer b ->
  draw_locked b g_time p = Some (t', p') ->
  writes_within (logical_pixel b) p p'.
Proof.
  intros Hb Hdraw. unfold draw_locked in Hdraw. cbv zeta in Hdraw.
  destruct (circle_bbox b (circle_cx b g_time) (circle_cy b))
    as [[[[minY maxY] minX] maxX]|] eqn:Hbox; [|discriminate].
  injection Hdraw as _ <-.
  destruct (circle_bbox_in_buffer _ _ _ _ _ _ _ Hb Hbox) as (HminY & HmaxY & HminX & HmaxX).
  apply writes_within_trans with (q := fill_background b p).
  - now apply fill_background_within.
  - now apply draw_circle_within.
Qed.

(** The colour of a pixel of the buffer after the frame, whatever the
    memory held before. *)
Lemma draw_locked_pixel (b : ANativeWindow_Buffer) (g_time : F) (p : pixel_memory)
    (t' : F) (p' : pixel_memory) (x y : Z) :
  valid_buffer b ->
  draw_locked b g_time p = Some (t', p') ->
  0 <= x < width b -> 0 <= y < height b ->
  exists minY maxY minX maxX,
    circle_bbox b (circle_cx b g_time) (circle_cy b) = Some (minY, maxY, minX, maxX) /\
    cells p' (y * stride b + x) =
      if existsb (fun y0 => existsb
            (fun x0 => inside_circle (circle_cx b g_time) (circle_cy b) x0 y0 &&
                       (y * stride b + x =? pixel_index b y0 x0))
            (zrange minX (Z.to_nat (maxX + 1 - minX))))
            (zrange minY (Z.to_nat (maxY + 1 - minY)))
      then circleColor (format b) else bgColor (format b).
Proof.
  intros Hb Hdraw Hx Hy. unfold draw_locked in Hdraw. cbv zeta in Hdraw.
  destruct (circle_bbox b (circle_cx b g_time) (circle_cy b))
    as [[[[minY maxY] minX] maxX]|] eqn:Hbox; [|discriminate].
  injection Hdraw as _ <-.
  exists minY, maxY, minX, maxX. split; [reflexivity|].
  pose proof (draw_circle_cells b (circle_cx b g_time) (circle_cy b) minY maxY minX maxX
                (fill_background b p) (y * stride b + x)) as Hcells.
  unfold draw_circle in Hcells. cbv beta iota in Hcells. rewrite Hcells.
  now rewrite fill_background_cell_in_buffer.
Qed.

End WholeFrame.

(** X1. A frame stays inside the buffer.  When [drawFrame] has locked a
    valid buffer, every write of the frame - background and circle, in any
    arithmetic, wherever rounding puts the centre - goes to the cell
    [y * stride + x] of a pixel of the buffer: an index from 0 to
    [height * stride - 1] that is not in the padding of a row.  All other
    cells keep their content. *)
Theorem drawFrame_stays_in_buffer {F : Type} `{FloatArith F}
    (b : ANativeWindow_Buffer) (w : Z) (g_time : F) (p : pixel_memory)
    (t' : F) (p' : pixel_memory) :
  valid_buffer b ->
  drawFrame (Some w) (Some b) g_time p = Some (t', p') ->
  exists ws,
    written p' = ws ++ written p /\
    (forall i, In i ws ->
       (exists x y, 0 <= x < width b /\ 0 <= y < height b /\ i = y * stride b + x) /\
       0 <= i < height b * stride b /\
       (forall row, ~ (row * stride b + width b <= i < row * stride b + stride b))) /\
    (forall j, ~ (exists x y, 0 <= x < width b /\ 0 <= y < height b /\ j = y * stride b + x) ->
       cells p' j = cells p j).
Proof.
  intros Hb Hdraw. cbn [drawFrame] in Hdraw.
  destruct (draw_locked_within b g_time p t' p' Hb Hdraw) as [(ws & Ews & Hws) Hcells].
  exists ws. split; [exact Ews|]. split.
  - intros i Hi. rewrite List.Forall_forall in Hws. pose proof (Hws i Hi) as Hpix.
    split; [exact Hpix|].
    apply logical_pixel_in_buffer; [apply Hb | exact Hpix].
  - exact Hcells.
Qed.

Lemma drawFrame_stays_in_buffer_witness :
  valid_buffer padded_buffer /\
  exists t' p',
    drawFrame (Some 1) (Some padded_buffer) (of_int 0 : Q) blank_memory = Some (t', p') /\
    (forall j, ~ (exists x y, 0 <= x < width padded_buffer /\ 0 <= y < height padded_buffer /\
                              j = y * stride padded_buffer + x) ->
       cells p' j = cells blank_memory j).
Proof.
  assert (Hb : valid_buffer padded_buffer)
    by (unfold valid_buffer; vm_compute; repeat split; congruence).
  split; [exact Hb|].
  destruct (drawFrame (Some 1) (Some padded_buffer) (of_int 0 : Q) blank_memory)
    as [[t' p']|] eqn:Hdraw.
  - exists t', p'. split; [reflexivity|].
    destruct (drawFrame_stays_in_buffer padded_buffer 1 (of_int 0 : Q) blank_memory t' p'
                Hb Hdraw) as (ws & _ & _ & Hcells).
    exact Hcells.
  - exfalso. vm_compute in Hdraw. discriminate Hdraw.
Defined.

(** X2. A frame repaints every pixel.  After [drawFrame] on a valid
    buffer each pixel of the buffer holds the background colour or the
    circle colour, and which one does not depend on what the memory held
    before the frame: two frames drawn at the same time counter into
    different memories leave the same picture. *)
Theorem drawFrame_repaints_every_pixel {F : Type} `{FloatArith F}
    (b : ANativeWindow_Buffer) (w : Z) (g_time : F) (p1 p2 : pixel_memory)
    (t1 : F) (p1' : pixel_memory) :
  valid_buffer b ->
  drawFrame (Some w) (Some b) g_time p1 = Some (t1, p1') ->
  exists p2',
    drawFrame (Some w) (Some b) g_time p2 = Some (t1, p2') /\
    forall x y, 0 <= x < width b -> 0 <= y < height b ->
      cells p1' (y * stride b + x) = cells p2' (y * stride b + x) /\
      (cells p1' (y * stride b + x) = bgColor (format b) \/
       cells p1' (y * stride b + x) = circleColor (format b)).
Proof.
  intros Hb Hdraw1. cbn [drawFrame] in *.
  destruct (draw_locked b g_time p2) as [[t2 p2']|] eqn:Hdraw2.
  - assert (Et : t2 = t1).
    { unfold draw_locked in Hdraw1, Hdraw2. cbv zeta in Hdraw1, Hdraw2.
      destruct (circle_bbox b (circle_cx b g_time) (circle_cy b)); [|discriminate].
      injection Hdraw1 as <- _. injection Hdraw2 as <- _. reflexivity. }
    subst t2. exists p2'. split; [reflexivity|].
    intros x y Hx Hy.
    destruct (draw_locked_pixel b g_time p1 t1 p1' x y Hb Hdraw1 Hx Hy)
      as (minY & maxY & minX & maxX & Hbox1 & E1).
    destruct (draw_locked_pixel b g_time p2 t1 p2' x y Hb Hdraw2 Hx Hy)
      as (minY' & maxY' & minX' & maxX' & Hbox2 & E2).
    rewrite Hbox1 in Hbox2. injection Hbox2 as <- <- <- <-.
    rewrite E1, E2. split; [reflexivity|].
    match goal with |- context [if ?e then _ else _] => destruct e end; [right | left];
      reflexivity.
  - exfalso. unfold draw_locked in Hdraw1, Hdraw2. cbv zeta in Hdraw1, Hdraw2.
    destruct (circle_bbox b (circle_cx b g_time) (circle_cy b)); discriminate.
Qed.

Lemma drawFrame_repaints_every_pixel_witness :
  valid_buffer padded_buffer /\
  exists t1 p1' p2',
    drawFrame (Some 1) (Some padded_buffer) (of_int 0 : Q) blank_memory = Some (t1, p1') /\
    drawFrame (Some 1) (Some padded_buffer) (of_int 0 : Q)
      {| cells := fun j => j; written := [] |} = Some (t1, p2') /\
    forall x y, 0 <= x < width padded_buffer -> 0 <= y < height padded_buffer ->
      cells p1' (y * stride padded_buffer + x) = cells p2' (y * stride padded_buffer + x) /\
      (cells p1' (y * stride padded_buffer + x) = bgColor (format padded_buffer) \/
       cells p1' (y * stride padded_buffer + x) = circleColor (format padded_buffer)).
Proof.
  assert (Hb : valid_buffer padded_buffer)
    by (unfold valid_buffer; vm_compute; repeat split; congruence).
  split; [exact Hb|].
  destruct (drawFrame (Some 1) (Some padded_buffer) (of_int 0 : Q) blank_memory)
    as [[t1 p1']|] eqn:Hdraw.
  - destruct (drawFrame_repaints_every_pixel padded_buffer 1 (of_int 0 : Q) blank_memory
                {| cells := fun j => j; written := [] |} t1 p1' Hb Hdraw)
      as (p2' & Hdraw2 & Hcells).
    exists t1, p1', p2'. split; [reflexivity|]. split; [exact Hdraw2 | exact Hcells].
  - exfalso. vm_compute in Hdraw. discriminate Hdraw.
Defined.

(** X24. The pixel format changes the colour words and nothing else.
    Two valid buffers of the same width, height and stride, whatever their
    formats, drawn at the same time counter in any arithmetic: a pixel
    holds the circle colour of the one format in the one frame exactly
    when it holds the circle colour of the other format in the other
    frame, and likewise for the background colour; the time counter
    advances alike. *)
Theorem drawFrame_shape_independent_of_format {F : Type} `{FloatArith F}
    (b b' : ANativeWindow_Buffer) (w : Z) (g_time : F) (p p' : pixel_memory)
    (t1 t2 : F) (q q' : pixel_memory) :
  valid_buffer b ->
  width b' = width b -> height b' = height b -> stride b' = stride b ->
  drawFrame (Some w) (Some b) g_time p = Some (t1, q) ->
  drawFrame (Some w) (Some b') g_time p' = Some (t2, q') ->
  t1 = t2 /\
  forall x y, 0 <= x < width b -> 0 <= y < height b ->
    (cells q (y * stride b + x) = circleColor (format b) <->
     cells q' (y * stride b + x) = circleColor (format b')) /\
    (cells q (y * stride b + x) = bgColor (format b) <->
     cells q' (y * stride b + x) = bgColor (format b')).
Proof.
  intros Hb Ew Eh Es Hdraw Hdraw'. cbn [drawFrame] in Hdraw, Hdraw'.
  destruct b as [wd ht st fmt], b' as [wd' ht' st' fmt'].
  cbn [width height stride format] in *. subst wd' ht' st'.
  assert (Hb' : valid_buffer {| width := wd; height := ht; stride := st; format := fmt' |})
    by exact Hb.
  split.
  - unfold draw_locked in Hdraw, Hdraw'. cbv zeta in Hdraw, Hdraw'.
    change (circle_bbox {| width := wd; height := ht; stride := st; format := fmt' |}
              (circle_cx {| width := wd; height := ht; stride := st; format := fmt' |} g_time)
              (circle_cy {| width := wd; height := ht; stride := st; format := fmt' |}))
      with (circle_bbox {| width := wd; height := ht; stride := st; format := fmt |}
              (circle_cx {| width := wd; height := ht; stride := st; format := fmt |} g_time)
              (circle_cy {| width := wd; height := ht; stride := st; format := fmt |}))
      in Hdraw'.
    destruct (circle_bbox _ _ _); [|discriminate].
    injection Hdraw as <- _. injection Hdraw' as <- _. reflexivity.
  - intros x y Hx Hy.
    destruct (draw_locked_pixel _ g_time p t1 q x y Hb Hdraw Hx Hy)
      as (minY & maxY & minX & maxX & Hbox & E).
    destruct (draw_locked_pixel _ g_time p' t2 q' x y Hb' Hdraw' Hx Hy)
      as (minY' & maxY' & minX' & maxX' & Hbox' & E').
    cbn [width height stride format] in E, E'.
    change (circle_bbox {| width := wd; height := ht; stride := st; format := fmt' |}
              (circle_cx {| width := wd; height := ht; stride := st; format := fmt' |} g_time)
              (circle_cy {| width := wd; height := ht; stride := st; format := fmt' |}))
      with (circle_bbox {| width := wd; height := ht; stride := st; format := fmt |}
              (circle_cx {| width := wd; height := ht; stride := st; format := fmt |} g_time)
              (circle_cy {| width := wd; height := ht; stride := st; format := fmt |}))
      in Hbox'.
    rewrite Hbox in Hbox'. injection Hbox' as <- <- <- <-.
    rewrite E, E'.
    change (circle_cx {| width := wd; height := ht; stride := st; format := fmt' |} g_time)
      with (circle_cx {| width := wd; height := ht; stride := st; format := fmt |} g_time).
    change (circle_cy {| width := wd; height := ht; stride := st; format := fmt' |})
      with (circle_cy {| width := wd; height := ht; stride := st; format := fmt |}).
    change (pixel_index {| width := wd; height := ht; stride := st; format := fmt' |})
      with (pixel_index {| width := wd; height := ht; stride := st; format := fmt |}).
    pose proof (bgColor_not_circleColor fmt) as Hne.
    pose proof (bgColor_not_circleColor fmt') as Hne'.
    match goal with |- context [if ?e then _ else _] => destruct e end;
      split; split; intros Hc; (reflexivity || congruence).
Qed.

Lemma drawFrame_shape_independent_of_format_witness :
  valid_buffer padded_buffer /\
  exists t1 q q',
    drawFrame (Some 1) (Some padded_buffer) (of_int 0 : Q) blank_memory = Some (t1, q) /\
    drawFrame (Some 1)
      (Some {| width := 3; height := 2; stride := 4; format := 2 |})
      (of_int 0 : Q) blank_memory = Some (t1, q') /\
    forall x y, 0 <= x < width padded_buffer -> 0 <= y < height padded_buffer ->
      (cells q (y * stride padded_buffer + x) = circleColor (format padded_buffer) <->
       cells q' (y * stride padded_buffer + x) = circleColor 2).
Proof.
  assert (Hb : valid_buffer padded_buffer)
    by (unfold valid_buffer; vm_compute; repeat split; congruence).
  split; [exact Hb|].
  destruct (drawFrame (Some 1) (Some padded_buffer) (of_int 0 : Q) blank_memory)
    as [[t1 q]|] eqn:Hdraw; [|exfalso; vm_compute in Hdraw; discriminate Hdraw].
  destruct (drawFrame (Some 1) (Some {| width := 3; height := 2; stride := 4; format := 2 |})
              (of_int 0 : Q) blank_memory)
    as [[t2 q']|] eqn:Hdraw'; [|exfalso; vm_compute in Hdraw'; discriminate Hdraw'].
  destruct (drawFrame_shape_independent_of_format padded_buffer
              {| width := 3; height := 2; stride := 4; format := 2 |} 1 (of_int 0 : Q)
              blank_memory blank_memory t1 t2 q q' Hb eq_refl eq_refl eq_refl Hdraw Hdraw')
    as [Et Hcells].
  exists t1, q, q'. split; [reflexivity|]. split; [now rewrite Et|].
  intros x y Hx Hy. exact (proj1 (Hcells x y Hx Hy)).
Defined.

(** *** The whole circle, in exact arithmetic *)

Module ExactFrame.
Import ExactWave ExactCircle.

Lemma circle_cx_between_edges (b : ANativeWindow_Buffer) (t : Q) :
  200 <= width b -> (0 <= t)%Q ->
  (100 <= circle_cx b t)%Q /\ (circle_cx b t <= inject_Z (width b) - 100)%Q.
Proof.
  intros Hw Ht. rewrite circle_cx_exact.
  destruct (progress_unit t Ht) as [H0 H1].
  set (pr := progress_of t) in *.
  assert (HW : (200 <= inject_Z (width b))%Q).
  { change 200%Q with (inject_Z 200). rewrite <- Zle_Qle. exact Hw. }
  split; nra.
Qed.

Lemma circle_cy_half (b : ANativeWindow_Buffer) :
  (circle_cy b * 2 == inject_Z (height b))%Q.
Proof.
  unfold circle_cy. cbn [fdiv of_int exact_arith].
  change (inject_Z 2) with 2%Q. field.
Qed.

End ExactFrame.

(** X3. The circle is never cut off.  In exact arithmetic, on a valid
    buffer at least 200 pixels wide and 161 pixels high, every integer
    point within distance 80 of the centre is a pixel of the buffer - at
    least 20 columns away from the left and the right border - and holds
    the circle colour after the frame. *)
Theorem drawFrame_circle_entirely_visible (b : ANativeWindow_Buffer) (w : Z) (t : Q)
    (p : pixel_memory) :
  valid_buffer b -> 200 <= width b -> 161 <= height b -> (0 <= t)%Q ->
  exists t' p',
    drawFrame (Some w) (Some b) t p = Some (t', p') /\
    forall x y : Z,
      ((inject_Z x - circle_cx b t) * (inject_Z x - circle_cx b t) +
       (inject_Z y - circle_cy b) * (inject_Z y - circle_cy b) <= 80 * 80)%Q ->
      20 <= x <= width b - 20 /\ 0 <= y < height b /\
      cells p' (y * stride b + x) = circleColor (format b).
Proof.
  intros Hb Hw Hh Ht.
  destruct (ExactCircle.drawFrame_exact b w t p Hb Ht) as (t' & p' & Hdraw & Hcells).
  exists t', p'. split; [exact Hdraw|].
  intros x y Hin.
  destruct (ExactFrame.circle_cx_between_edges b t Hw Ht) as [Hlo Hhi].
  pose proof (ExactFrame.circle_cy_half b) as Hcy.
  destruct (ExactCircle.square_bound _ _ Hin) as [Hx1 Hx2].
  assert (Hin' : ((inject_Z y - circle_cy b) * (inject_Z y - circle_cy b) +
                  (inject_Z x - circle_cx b t) * (inject_Z x - circle_cx b t) <= 80 * 80)%Q)
    by lra.
  destruct (ExactCircle.square_bound _ _ Hin') as [Hy1 Hy2].
  assert (Hx : 20 <= x <= width b - 20).
  { split.
    - rewrite Zle_Qle. change (inject_Z 20) with 20%Q. lra.
    - rewrite Zle_Qle. unfold Z.sub. rewrite inject_Z_plus, inject_Z_opp.
      change (inject_Z 20) with 20%Q. lra. }
  assert (Hy : 0 <= y < height b).
  { assert (H1 : height b - 160 <= 2 * y).
    { rewrite Zle_Qle. unfold Z.sub. rewrite inject_Z_plus, inject_Z_opp, inject_Z_mult.
      change (inject_Z 160) with 160%Q. change (inject_Z 2) with 2%Q. lra. }
    assert (H2 : 2 * y <= height b + 160).
    { rewrite Zle_Qle. rewrite inject_Z_plus, inject_Z_mult.
      change (inject_Z 160) with 160%Q. change (inject_Z 2) with 2%Q. lra. }
    lia. }
  split; [exact Hx|]. split; [exact Hy|].
  apply Hcells; [lia | exact Hy | exact Hin].
Qed.

Lemma drawFrame_circle_entirely_visible_witness :
  valid_buffer buffer_800x480 /\
  exists t' p',
    drawFrame (Some 1) (Some buffer_800x480) (1 : Q) blank_memory = Some (t', p') /\
    forall x y : Z,
      ((inject_Z x - circle_cx buffer_800x480 1) * (inject_Z x - circle_cx buffer_800x480 1) +
       (inject_Z y - circle_cy buffer_800x480) * (inject_Z y - circle_cy buffer_800x480)
       <= 80 * 80)%Q ->
      20 <= x <= width buffer_800x480 - 20 /\ 0 <= y < height buffer_800x480 /\
      cells p' (y * stride buffer_800x480 + x) = circleColor (format buffer_800x480).
Proof.
  assert (Hb : valid_buffer buffer_800x480)
    by (unfold valid_buffer; vm_compute; repeat split; congruence).
  split; [exact Hb|].
  apply (drawFrame_circle_entirely_visible buffer_800x480 1 1 blank_memory Hb).
  - vm_compute. congruence.
  - vm_compute. congruence.
  - vm_compute. congruence.
Defined.

(** *** The time counter *)

Lemma time_after_plus {F : Type} `{FloatArith F} (n k : nat) (t : F) :
  time_after (n + k) t = time_after k (time_after n t).
Proof. revert t. induction n as [|n IH]; intros t; [reflexivity | apply IH]. Qed.

Module Binary32Time.

Lemma time_cycle : time_after 2000 (of_int 0 : spec_float) = of_int 0.
Proof. vm_compute. reflexivity. Qed.

Lemma time_cycles (q : nat) : time_after (q * 2000) (of_int 0 : spec_float) = of_int 0.
Proof.
  induction q as [|q IH]; [reflexivity|].
  replace (Datatypes.S q * 2000)%nat with (2000 + q * 2000)%nat by lia.
  rewrite time_after_plus, time_cycle. exact IH.
Qed.

Lemma time_within_first_cycle (n : nat) :
  exists k, (k < 2000)%nat /\
    time_after n (of_int 0 : spec_float) = time_after k (of_int 0).
Proof.
  exists (n mod 2000)%nat. split; [apply Nat.mod_upper_bound; discriminate|].
  rewrite (Nat.div_mod_eq n 2000) at 1.
  rewrite (Nat.mul_comm 2000), time_after_plus, time_cycles. reflexivity.
Qed.

Lemma time_in_range_for_spec (n : nat) (t : spec_float) :
  time_in_range_for n t = true ->
  forall k, (k < n)%nat ->
    fleb (of_int 0) (time_after k t) = true /\ fleb (time_after k t) (of_int 100) = true.
Proof.
  revert t. induction n as [|n IH]; intros t Hall k Hk; [lia|].
  cbn [time_in_range_for] in Hall.
  apply andb_true_iff in Hall as [Hhere Hrest]. apply andb_true_iff in Hhere as [Hlo Hhi].
  destruct k as [|k]; [split; assumption|].
  cbn [time_after]. apply IH; [exact Hrest | lia].
Qed.

Lemma first_cycle_in_range : time_in_range_for 2000 (of_int 0) = true.
Proof. vm_compute. reflexivity. Qed.

End Binary32Time.

Module ExactTime.
Import ExactBounce.

Lemma step_value : (flit 5 100 : Q) == 1 # 20.
Proof. vm_compute. reflexivity. Qed.

Lemma advance_time_range (t : Q) :
  (0 <= t)%Q -> (t <= 100)%Q -> (0 <= advance_time t)%Q /\ (advance_time t <= 100)%Q.
Proof.
  intros H0 H100. unfold advance_time. cbn [fadd fltb of_int exact_arith].
  pose proof step_value as Hstep.
  destruct (Exact.Qltb (inject_Z 100) (t + flit 5 100)) eqn:Hcmp.
  - split; vm_compute; discriminate.
  - apply Qltb_false in Hcmp. change (inject_Z 100) with 100%Q in Hcmp. split; lra.
Qed.

(** Below the reset the counter of frame [n] is [n / 20]. *)
Lemma counter_before_reset (k : nat) :
  forall (n : nat) (t : Q),
    (t == inject_Z (Z.of_nat n) * (1 # 20))%Q -> (n + k <= 2000)%nat ->
    (time_after k t == inject_Z (Z.of_nat (n + k)) * (1 # 20))%Q.
Proof.
  induction k as [|k IH]; intros n t Ht Hn; cbn [time_after].
  - now rewrite Nat.add_0_r.
  - replace (n + Datatypes.S k)%nat with (Datatypes.S n + k)%nat by lia.
    apply IH; [|lia].
    assert (Hn' : (inject_Z (Z.of_nat (Datatypes.S n)) <= 2000)%Q).
    { change 2000%Q with (inject_Z 2000). rewrite <- Zle_Qle. lia. }
    assert (Hs : (inject_Z (Z.of_nat (Datatypes.S n)) == inject_Z (Z.of_nat n) + 1)%Q).
    { rewrite Nat2Z.inj_succ. unfold Z.succ. rewrite inject_Z_plus. reflexivity. }
    pose proof step_value as Hstep.
    unfold advance_time. cbn [fadd fltb of_int exact_arith].
    assert (Hcmp : Exact.Qltb (inject_Z 100) (t + flit 5 100) = false).
    { apply Qltb_false. change (inject_Z 100) with 100%Q. lra. }
    rewrite Hcmp. lra.
Qed.

Lemma exact_2000th_sum : (time_after 2000 (of_int 0 : Q) == 100)%Q.
Proof.
  rewrite (counter_before_reset 2000 0 (of_int 0)).
  - reflexivity.
  - reflexivity.
  - lia.
Qed.

Lemma exact_2001st_reset : time_after 2001 (of_int 0 : Q) = 0%Q.
Proof.
  pose proof exact_2000th_sum as Hsum. pose proof step_value as Hstep.
  rewrite (time_after_plus 2000 1 (of_int 0 : Q) : time_after 2001 _ = _).
  generalize dependent (time_after 2000 (of_int 0 : Q)). intros T Hsum.
  cbn [time_after]. unfold advance_time. cbn [fadd fltb of_int exact_arith].
  assert (Hcmp : Exact.Qltb (inject_Z 100) (T + flit 5 100) = true).
  { apply Qltb_true. change (inject_Z 100) with 100%Q. lra. }
  rewrite Hcmp. reflexivity.
Qed.

End ExactTime.

(** X4. The time counter stays within [[0, 100]].  In single precision the
    run from [g_time = 0.0f] is periodic: the 2000th addition of [0.05f]
    gives a sum above 100 and resets the counter to exactly 0, so the
    counter of frame [n + 2000] is that of frame [n], and every value on
    the way is between 0 and 100.  In exact arithmetic the 2000th sum is
    exactly 100, which is not above 100, and the reset comes one frame
    later; from any counter in [[0, 100]] the next one is in [[0, 100]]. *)
Theorem time_counter_stays_in_range :
  (forall n : nat,
     time_after (n + 2000) (of_int 0 : spec_float) = time_after n (of_int 0)) /\
  (forall n : nat,
     fleb (of_int 0) (time_after n (of_int 0 : spec_float)) = true /\
     fleb (time_after n (of_int 0 : spec_float)) (of_int 100) = true) /\
  (time_after 2000 (of_int 0 : Q) == 100)%Q /\
  time_after 2001 (of_int 0 : Q) = 0%Q /\
  (forall t : Q, (0 <= t)%Q /\ (t <= 100)%Q ->
     (0 <= advance_time t)%Q /\ (advance_time t <= 100)%Q).
Proof.
  split; [|split; [|split; [|split]]].
  - intros n. rewrite Nat.add_comm, time_after_plus, Binary32Time.time_cycle. reflexivity.
  - intros n. destruct (Binary32Time.time_within_first_cycle n) as (k & Hk & ->).
    exact (Binary32Time.time_in_range_for_spec 2000 _ Binary32Time.first_cycle_in_range k Hk).
  - exact ExactTime.exact_2000th_sum.
  - exact ExactTime.exact_2001st_reset.
  - intros t [H0 H100]. now apply ExactTime.advance_time_range.
Qed.

Lemma time_counter_stays_in_range_witness :
  ((0 <= 100)%Q /\ (100 <= 100)%Q) /\
  (0 <= advance_time (100 : Q))%Q /\ (advance_time (100 : Q) <= 100)%Q.
Proof.
  assert (Hin : (0 <= 100)%Q /\ (100 <= 100)%Q) by (split; vm_compute; discriminate).
  split; [exact Hin|].
  exact (proj2 (proj2 (proj2 (proj2 time_counter_stays_in_range))) 100%Q Hin).
Defined.

(** ** The pixel renderer: a session *)

Lemma remove_thread_head (t : Z) (l : list Z) : remove_thread t (t :: l) = l.
Proof. cbn [remove_thread]. now rewrite Z.eqb_refl. Qed.

Lemma nativeOnSurfaceCreated_started {F : Type}
    (w : Z) (out : pthread_outcome) (s : native_state F) (pf : platform) :
  pc_result out = 0 ->
  nativeOnSurfaceCreated (Some w) out s pf =
    ({| g_window := Some w; g_render_thread := pc_thread out;
        g_running := true; g_time := g_time s |},
     {| window_refs := fun v => if v =? w then window_refs pf v + 1 else window_refs pf v;
        window_format := fun v => if v =? w then WINDOW_FORMAT_RGBA_8888
                                  else window_format pf v;
        threads := pc_thread out :: threads pf |}).
Proof.
  intros Hres. unfold nativeOnSurfaceCreated, pthread_create. rewrite Hres. reflexivity.
Qed.

Lemma nativeOnSurfaceDestroyed_running {F : Type}
    (w thr : Z) (rn : bool) (t : F) (pf : platform) :
  thr <> 0 ->
  nativeOnSurfaceDestroyed
    {| g_window := Some w; g_render_thread := thr; g_running := rn; g_time := t |} pf =
    ({| g_window := None; g_render_thread := 0; g_running := false; g_time := t |},
     ANativeWindow_release w (pthread_join thr pf)).
Proof.
  intros Hthr. unfold nativeOnSurfaceDestroyed.
  cbn [g_window g_render_thread g_running g_time].
  destruct (Z.eqb_spec thr 0) as [E | _]; [contradiction | reflexivity].
Qed.

Lemma renderLoop_running {F : Type} `{FloatArith F}
    (locks : list (option ANativeWindow_Buffer)) :
  forall (w thr : Z) (t : F) (p : pixel_memory) (s1 : native_state F) (p1 : pixel_memory),
    renderLoop locks
      {| g_window := Some w; g_render_thread := thr; g_running := true; g_time := t |} p
      = Some (s1, p1) ->
    s1 = {| g_window := Some w; g_render_thread := thr; g_running := true;
            g_time := time_after (locked_frames locks) t |}.
Proof.
  induction locks as [|lock rest IH]; intros w thr t p s1 p1 Hloop;
    cbn [renderLoop g_window g_running g_render_thread g_time] in Hloop.
  - injection Hloop as <- _. reflexivity.
  - destruct lock as [b|]; cbn [drawFrame locked_frames time_after] in *.
    + unfold draw_locked in Hloop. cbv zeta in Hloop.
      destruct (circle_bbox b (circle_cx b t) (circle_cy b)); [|discriminate].
      exact (IH _ _ _ _ _ _ Hloop).
    + exact (IH _ _ _ _ _ _ Hloop).
Qed.

(** X5. A session gives back what it took.  When the surface has a window
    and the render thread starts (with a handle that is not 0, which
    [nativeOnSurfaceDestroyed] takes for "no thread"),
    [nativeOnSurfaceCreated] holds one reference on the window and one
    running thread.  The thread runs [renderLoop]; whatever frames it
    draws, the following [nativeOnSurfaceDestroyed] joins that thread,
    releases that reference and clears the window, the thread handle and
    the running flag.  Every window's reference count and the list of
    threads are then what they were before the session, and the buffer
    format set on the window stays; the time counter has advanced once
    for each frame that was drawn into a locked buffer. *)
Theorem surface_session_round_trip {F : Type} `{FloatArith F}
    (w : Z) (out : pthread_outcome) (s : native_state F) (pf : platform)
    (locks : list (option ANativeWindow_Buffer)) (p : pixel_memory)
    (drawn : native_state F) (p' : pixel_memory) :
  pc_result out = 0 -> pc_thread out <> 0 ->
  let created := nativeOnSurfaceCreated (Some w) out s pf in
  renderLoop locks (fst created) p = Some (drawn, p') ->
  let destroyed := nativeOnSurfaceDestroyed drawn (snd created) in
  (g_window (fst created) = Some w /\
   g_running (fst created) = true /\
   g_render_thread (fst created) = pc_thread out /\
   window_refs (snd created) w = window_refs pf w + 1 /\
   threads (snd created) = pc_thread out :: threads pf) /\
  (fst destroyed =
     {| g_window := None; g_render_thread := 0; g_running := false;
        g_time := time_after (locked_frames locks) (g_time s) |} /\
   (forall v, window_refs (snd destroyed) v = window_refs pf v) /\
   threads (snd destroyed) = threads pf /\
   window_format (snd destroyed) w = WINDOW_FORMAT_RGBA_8888 /\
   (forall v, v <> w -> window_format (snd destroyed) v = window_format pf v)).
Proof.
  intros Hres Hthr created Hloop destroyed. subst destroyed. subst created.
  rewrite (nativeOnSurfaceCreated_started w out s pf Hres) in Hloop |- *.
  cbn [fst snd] in Hloop |- *.
  rewrite (renderLoop_running locks _ _ _ _ _ _ Hloop).
  rewrite (nativeOnSurfaceDestroyed_running w (pc_thread out) true _ _ Hthr).
  cbn [fst snd g_window g_render_thread g_running g_time
       pthread_join ANativeWindow_release window_refs window_format threads].
  rewrite Z.eqb_refl, remove_thread_head.
  repeat split; try reflexivity.
  - intros v. destruct (v =? w); lia.
  - intros v Hv. destruct (Z.eqb_spec v w); [contradiction | reflexivity].
Qed.

Lemma surface_session_round_trip_witness :
  pc_result started_thread = 0 /\ pc_thread started_thread <> 0 /\
  exists drawn p',
    renderLoop [Some padded_buffer; None; Some padded_buffer]
      (fst (nativeOnSurfaceCreated (Some 7) started_thread
              (idle_state : native_state Q) quiet_platform)) blank_memory
      = Some (drawn, p') /\
    fst (nativeOnSurfaceDestroyed drawn
           (snd (nativeOnSurfaceCreated (Some 7) started_thread
                   (idle_state : native_state Q) quiet_platform)))
      = {| g_window := None; g_render_thread := 0; g_running := false;
           g_time := time_after
                       (locked_frames [Some padded_buffer; None; Some padded_buffer])
                       (g_time (idle_state : native_state Q)) |} /\
    threads (snd (nativeOnSurfaceDestroyed drawn
           (snd (nativeOnSurfaceCreated (Some 7) started_thread
                   (idle_state : native_state Q) quiet_platform))))
      = threads quiet_platform.
Proof.
  assert (Hres : pc_result started_thread = 0) by reflexivity.
  assert (Hthr : pc_thread started_thread <> 0) by (vm_compute; discriminate).
  split; [exact Hres|]. split; [exact Hthr|].
  destruct (renderLoop [Some padded_buffer; None; Some padded_buffer]
              (fst (nativeOnSurfaceCreated (Some 7) started_thread
                      (idle_state : native_state Q) quiet_platform)) blank_memory)
    as [[drawn p']|] eqn:Hloop; [|exfalso; vm_compute in Hloop; discriminate Hloop].
  exists drawn, p'. split; [reflexivity|].
  pose proof (surface_session_round_trip 7 started_thread (idle_state : native_state Q)
                quiet_platform [Some padded_buffer; None; Some padded_buffer]
                blank_memory drawn p' Hres Hthr Hloop) as Hsession.
  cbv zeta in Hsession.
  destruct Hsession as [_ (Hstate & _ & Hthreads & _)].
  split; [exact Hstate | exact Hthreads].
Defined.

(** X6. [nativeOnSurfaceDestroyed] releases and joins at most once.  From
    any state, a second call directly after the first changes nothing:
    the first call has cleared the window and the thread handle, so no
    reference is released twice and no thread is joined twice.  Without a
    window and without a thread the first call, too, leaves the platform
    as it is. *)
Theorem nativeOnSurfaceDestroyed_idempotent {F : Type} (s : native_state F) (pf : platform) :
  let once := nativeOnSurfaceDestroyed s pf in
  nativeOnSurfaceDestroyed (fst once) (snd once) = once /\
  g_window (fst once) = None /\
  g_running (fst once) = false /\
  g_render_thread (fst once) = 0 /\
  (g_window s = None -> g_render_thread s = 0 -> snd once = pf).
Proof.
  intros once. subst once. unfold nativeOnSurfaceDestroyed.
  cbn [g_window g_render_thread g_running g_time].
  destruct s as [[w|] thr rn t]; cbn [g_window g_render_thread g_running g_time];
    destruct (Z.eqb_spec thr 0) as [-> | Hthr];
    cbn [negb g_window g_render_thread g_running g_time fst snd Z.eqb];
    repeat split; try reflexivity; try discriminate; try contradiction.
Qed.

Lemma nativeOnSurfaceDestroyed_idempotent_witness :
  g_window (idle_state : native_state spec_float) = None /\
  g_render_thread (idle_state : native_state spec_float) = 0 /\
  snd (nativeOnSurfaceDestroyed (idle_state : native_state spec_float) quiet_platform)
    = quiet_platform.
Proof.
  split; [reflexivity|]. split; [reflexivity|].
  exact (proj2 (proj2 (proj2 (proj2
           (nativeOnSurfaceDestroyed_idempotent (idle_state : native_state spec_float)
              quiet_platform)))) eq_refl eq_refl).
Defined.

(** X7. A failed start is not released twice.  When [pthread_create]
    fails, [nativeOnSurfaceCreated] has already released the window and
    cleared [g_window]; a following [nativeOnSurfaceDestroyed] releases
    nothing, and every window's reference count is what it was before the
    two calls. *)
Theorem failed_start_then_destroyed {F : Type}
    (w : Z) (out : pthread_outcome) (s : native_state F) (pf : platform) :
  pc_result out <> 0 ->
  let created := nativeOnSurfaceCreated (Some w) out s pf in
  let destroyed := nativeOnSurfaceDestroyed (fst created) (snd created) in
  (forall v, window_refs (snd destroyed) v = window_refs pf v) /\
  g_window (fst destroyed) = None /\
  g_running (fst destroyed) = false /\
  g_time (fst destroyed) = g_time s.
Proof.
  intros Hres created destroyed. subst destroyed created.
  unfold nativeOnSurfaceCreated, pthread_create.
  destruct (Z.eqb_spec (pc_result out) 0) as [E | _]; [contradiction|].
  cbn [negb fst snd g_window].
  unfold nativeOnSurfaceDestroyed.
  cbn [g_window g_render_thread g_running g_time].
  destruct (pc_thread out =? 0);
    cbn [negb g_window g_render_thread g_running g_time fst snd
         pthread_join ANativeWindow_release ANativeWindow_setBuffersGeometry
         ANativeWindow_acquire window_refs];
    (repeat split; try reflexivity; intros v; destruct (v =? w); lia).
Qed.

Lemma failed_start_then_destroyed_witness :
  pc_result failed_thread_creation <> 0 /\
  forall v,
    window_refs (snd (nativeOnSurfaceDestroyed
      (fst (nativeOnSurfaceCreated (Some 7) failed_thread_creation
              (idle_state : native_state spec_float) quiet_platform))
      (snd (nativeOnSurfaceCreated (Some 7) failed_thread_creation
              (idle_state : native_state spec_float) quiet_platform)))) v
    = window_refs quiet_platform v.
Proof.
  assert (Hres : pc_result failed_thread_creation <> 0) by (vm_compute; discriminate).
  split; [exact Hres|].
  exact (proj1 (failed_start_then_destroyed 7 failed_thread_creation
                  (idle_state : native_state spec_float) quiet_platform Hres)).
Defined.

(** X8. A second [nativeOnSurfaceCreated] without a
    [nativeOnSurfaceDestroyed] in between overwrites [g_window] and
    [g_render_thread].  The [nativeOnSurfaceDestroyed] that follows joins
    the second thread and releases the second window only: the first
    window keeps the reference taken for it, and the first thread is never
    joined. *)
Theorem second_surface_created_overwrites {F : Type}
    (w1 w2 : Z) (out1 out2 : pthread_outcome) (s : native_state F) (pf : platform) :
  pc_result out1 = 0 -> pc_result out2 = 0 -> pc_thread out2 <> 0 ->
  let first := nativeOnSurfaceCreated (Some w1) out1 s pf in
  let second := nativeOnSurfaceCreated (Some w2) out2 (fst first) (snd first) in
  let destroyed := nativeOnSurfaceDestroyed (fst second) (snd second) in
  (forall v, window_refs (snd destroyed) v
             = window_refs pf v + (if v =? w1 then 1 else 0)) /\
  threads (snd destroyed) = pc_thread out1 :: threads pf /\
  g_window (fst destroyed) = None /\
  g_render_thread (fst destroyed) = 0.
Proof.
  intros Hres1 Hres2 Hthr first second destroyed. subst destroyed second first.
  rewrite (nativeOnSurfaceCreated_started w1 out1 s pf Hres1). cbn [fst snd].
  rewrite (nativeOnSurfaceCreated_started w2 out2 _ _ Hres2). cbn [fst snd g_time].
  rewrite (nativeOnSurfaceDestroyed_running w2 (pc_thread out2) true (g_time s) _ Hthr).
  cbn [fst snd g_window g_render_thread g_running g_time
       pthread_join ANativeWindow_release window_refs window_format threads].
  rewrite remove_thread_head.
  repeat split; try reflexivity.
  intros v. destruct (v =? w2), (v =? w1); lia.
Qed.

Lemma second_surface_created_overwrites_witness :
  pc_result started_thread = 0 /\ pc_thread started_thread <> 0 /\
  threads (snd (nativeOnSurfaceDestroyed
    (fst (nativeOnSurfaceCreated (Some 8) started_thread
       (fst (nativeOnSurfaceCreated (Some 7) started_thread
               (idle_state : native_state spec_float) quiet_platform))
       (snd (nativeOnSurfaceCreated (Some 7) started_thread
               (idle_state : native_state spec_float) quiet_platform))))
    (snd (nativeOnSurfaceCreated (Some 8) started_thread
       (fst (nativeOnSurfaceCreated (Some 7) started_thread
               (idle_state : native_state spec_float) quiet_platform))
       (snd (nativeOnSurfaceCreated (Some 7) started_thread
               (idle_state : native_state spec_float) quiet_platform))))))
  = pc_thread started_thread :: threads quiet_platform.
Proof.
  assert (Hres : pc_result started_thread = 0) by reflexivity.
  assert (Hthr : pc_thread started_thread <> 0) by (vm_compute; discriminate).
  split; [exact Hres|]. split; [exact Hthr|].
  exact (proj1 (proj2 (second_surface_created_overwrites 7 8 started_thread started_thread
                         (idle_state : native_state spec_float) quiet_platform
                         Hres Hres Hthr))).
Defined.

(** ** The GPU renderer: the matrices *)

Section MatrixCells.
Context {F : Type} `{FloatArith F}.

Lemma fstore_offset (m : float_memory F) (base i j : Z) (v : F) :
  fstore m (base + i) v (base + j) = if j =? i then v else m (base + j).
Proof.
  unfold fstore.
  destruct (Z.eqb_spec (base + j) (base + i)), (Z.eqb_spec j i); (reflexivity || lia).
Qed.

Lemma fstore_other (m : float_memory F) (a addr : Z) (v : F) :
  addr <> a -> fstore m a v addr = m addr.
Proof. intros Hne. unfold fstore. destruct (Z.eqb_spec addr a); [contradiction | reflexivity]. Qed.

Lemma createTranslationMatrix_cell (matrix : Z) (tx ty : F) (m : float_memory F) (idx : Z) :
  0 <= idx < 16 ->
  createTranslationMatrix matrix tx ty m (matrix + idx) = translation_matrix tx ty idx.
Proof.
  intros Hidx. unfold createTranslationMatrix. cbv zeta. rewrite !fstore_offset.
  unfold for_range. rewrite (for_loop_fstore_at (fun _ => of_int 0)) by lia.
  matrix_cell_cases idx; reflexivity.
Qed.

Lemma createTranslationMatrix_frame (matrix : Z) (tx ty : F) (m : float_memory F) (addr : Z) :
  ~ (matrix <= addr < matrix + 16) ->
  createTranslationMatrix matrix tx ty m addr = m addr.
Proof.
  intros Hout. unfold createTranslationMatrix. cbv zeta.
  rewrite !fstore_other by lia.
  unfold for_range. apply (for_loop_fstore_other (fun _ => of_int 0)). lia.
Qed.

Lemma createOrthoMatrix_cell (matrix : Z) (l r b t : F) (m : float_memory F) (idx : Z) :
  0 <= idx < 16 ->
  createOrthoMatrix matrix l r b t m (matrix + idx) = ortho_matrix l r b t idx.
Proof.
  intros Hidx. unfold createOrthoMatrix. cbv zeta. rewrite !fstore_offset.
  unfold for_range. rewrite (for_loop_fstore_at (fun _ => of_int 0)) by lia.
  matrix_cell_cases idx; reflexivity.
Qed.

Lemma createOrthoMatrix_frame (matrix : Z) (l r b t : F) (m : float_memory F) (addr : Z) :
  ~ (matrix <= addr < matrix + 16) ->
  createOrthoMatrix matrix l r b t m addr = m addr.
Proof.
  intros Hout. unfold createOrthoMatrix. cbv zeta.
  rewrite !fstore_other by lia.
  unfold for_range. apply (for_loop_fstore_other (fun _ => of_int 0)). lia.
Qed.

Lemma multiplyMatrix_result (result a b : Z) (m : float_memory F) (idx : Z) :
  0 <= idx < 16 ->
  multiplyMatrix result a b m (result + idx)
  = matrix_product (matrix_at m a) (matrix_at m b) idx.
Proof. apply multiplyMatrix_from_result. Qed.

Lemma multiplyMatrix_frame (result a b : Z) (m : float_memory F) (addr : Z) :
  ~ (result <= addr < result + 16) -> multiplyMatrix result a b m addr = m addr.
Proof. apply multiplyMatrix_from_frame. Qed.

End MatrixCells.

(** X9. [createOrthoMatrix] lays out the map from the box
    [[left, right] x [bottom, top]] to [[-1, 1] x [-1, 1]].  In exact
    arithmetic, for [left <> right] and [bottom <> top], whatever the
    array held before: the vertex shader sends [(x, y)] to
    [((2x - (right + left)) / (right - left),
      (2y - (top + bottom)) / (top - bottom), 0, 1)],
    so the corner [(left, bottom)] goes to [(-1, -1)] and [(right, top)]
    to [(1, 1)]. *)
Theorem createOrthoMatrix_maps_box (matrix : Z) (l r b t : Q) (m : float_memory Q) :
  ~ (l == r)%Q -> ~ (b == t)%Q ->
  let M := matrix_at (createOrthoMatrix matrix l r b t m) matrix in
  (forall x y : Q, exists px py pz pw,
     gl_Position M x y = (px, py, pz, pw) /\
     (px == (2 * x - (r + l)) / (r - l))%Q /\
     (py == (2 * y - (t + b)) / (t - b))%Q /\
     (pz == 0)%Q /\ (pw == 1)%Q) /\
  (exists px py pz pw,
     gl_Position M l b = (px, py, pz, pw) /\ (px == -1)%Q /\ (py == -1)%Q) /\
  (exists px py pz pw,
     gl_Position M r t = (px, py, pz, pw) /\ (px == 1)%Q /\ (py == 1)%Q).
Proof.
  intros Hlr Hbt M.
  assert (Hcell : forall idx, 0 <= idx < 16 -> M idx = ortho_matrix l r b t idx).
  { intros idx Hidx. unfold M, matrix_at. now apply createOrthoMatrix_cell. }
  assert (Hd1 : ~ (r - l == 0)%Q) by (intros E; apply Hlr; lra).
  assert (Hd2 : ~ (t - b == 0)%Q) by (intros E; apply Hbt; lra).
  assert (Hpos : forall x y : Q, exists px py pz pw,
     gl_Position M x y = (px, py, pz, pw) /\
     (px == (2 * x - (r + l)) / (r - l))%Q /\
     (py == (2 * y - (t + b)) / (t - b))%Q /\
     (pz == 0)%Q /\ (pw == 1)%Q).
  { intros x y. unfold gl_Position. do 4 eexists. split; [reflexivity|].
    rewrite !Hcell by lia.
    cbv -[Qplus Qmult Qeq Qdiv Qminus Qopp]. repeat split; field; assumption. }
  split; [exact Hpos|]. split.
  - destruct (Hpos l b) as (px & py & pz & pw & E & Hx & Hy & _).
    exists px, py, pz, pw. split; [exact E|]. split.
    + rewrite Hx. field. exact Hd1.
    + rewrite Hy. field. exact Hd2.
  - destruct (Hpos r t) as (px & py & pz & pw & E & Hx & Hy & _).
    exists px, py, pz, pw. split; [exact E|]. split.
    + rewrite Hx. field. exact Hd1.
    + rewrite Hy. field. exact Hd2.
Qed.

Lemma createOrthoMatrix_maps_box_witness :
  ~ (-2 # 1 == 2 # 1)%Q /\ ~ (-1 # 1 == 1 # 1)%Q /\
  exists px py pz pw,
    gl_Position (matrix_at (createOrthoMatrix 0 (-2 # 1)%Q (2 # 1)%Q (-1 # 1)%Q (1 # 1)%Q
                              (fun _ => 0%Q)) 0) (2 # 1)%Q (1 # 1)%Q
      = (px, py, pz, pw) /\ (px == 1)%Q /\ (py == 1)%Q.
Proof.
  assert (H1 : ~ (-2 # 1 == 2 # 1)%Q) by (intros E; vm_compute in E; discriminate E).
  assert (H2 : ~ (-1 # 1 == 1 # 1)%Q) by (intros E; vm_compute in E; discriminate E).
  split; [exact H1|]. split; [exact H2|].
  exact (proj2 (proj2 (createOrthoMatrix_maps_box 0 (-2 # 1)%Q (2 # 1)%Q (-1 # 1)%Q (1 # 1)%Q
                         (fun _ => 0%Q) H1 H2))).
Defined.

(** X10. Translations compose by adding their offsets.  In exact
    arithmetic, the product [multiplyMatrix] computes from the matrices
    that [createTranslationMatrix] wrote for [(tx1, ty1)] and [(tx2, ty2)]
    into two arrays that do not overlap has the 16 values that
    [createTranslationMatrix] writes for [(tx1 + tx2, ty1 + ty2)],
    wherever the result is stored. *)
Theorem translations_compose (result a b c : Z) (tx1 ty1 tx2 ty2 : Q)
    (m m' : float_memory Q) (idx : Z) :
  disjoint_matrices a b -> 0 <= idx < 16 ->
  let m1 := createTranslationMatrix a tx1 ty1 m in
  let m2 := createTranslationMatrix b tx2 ty2 m1 in
  Qeq (multiplyMatrix result a b m2 (result + idx))
      (createTranslationMatrix c (tx1 + tx2)%Q (ty1 + ty2)%Q m' (c + idx)).
Proof.
  intros Hab Hidx m1 m2.
  rewrite multiplyMatrix_result by exact Hidx.
  rewrite createTranslationMatrix_cell by exact Hidx.
  rewrite (matrix_product_ext _ (translation_matrix tx1 ty1) _ (translation_matrix tx2 ty2)).
  - matrix_cell_cases idx; cbv -[Qplus Qmult Qeq]; ring.
  - intros i Hi. unfold matrix_at, m2.
    rewrite createTranslationMatrix_frame by (unfold disjoint_matrices in Hab; lia).
    now apply createTranslationMatrix_cell.
  - intros i Hi. unfold matrix_at, m2. now apply createTranslationMatrix_cell.
  - exact Hidx.
Qed.

Lemma translations_compose_witness :
  disjoint_matrices 0 16 /\ 0 <= 12 < 16 /\
  Qeq (multiplyMatrix 32 0 16
         (createTranslationMatrix 16 (1 # 4)%Q (1 # 2)%Q
            (createTranslationMatrix 0 (1 # 2)%Q (1 # 3)%Q (fun _ => 0%Q))) (32 + 12))
      (createTranslationMatrix 48 ((1 # 2) + (1 # 4))%Q ((1 # 3) + (1 # 2))%Q
         (fun _ => 0%Q) (48 + 12)).
Proof.
  assert (Hab : disjoint_matrices 0 16) by (left; vm_compute; congruence).
  assert (Hidx : 0 <= 12 < 16) by (vm_compute; split; congruence).
  split; [exact Hab|]. split; [exact Hidx|].
  exact (translations_compose 32 0 16 48 (1 # 2)%Q (1 # 3)%Q (1 # 4)%Q (1 # 2)%Q
           (fun _ => 0%Q) (fun _ => 0%Q) 12 Hab Hidx).
Defined.

Lemma matrix_product_assoc_exact (A B C : Z -> Q) (idx : Z) :
  0 <= idx < 16 ->
  (matrix_product (matrix_product A B) C idx == matrix_product A (matrix_product B C) idx)%Q.
Proof.
  intros Hidx. matrix_cell_cases idx; cbv -[Qplus Qmult Qeq]; ring.
Qed.

(** X11. [multiplyMatrix] is associative in exact arithmetic: computing
    (A B) C through a temporary array and A (B C) through another leaves
    the same 16 values in the result, provided each temporary does not
    overlap the operand that is still to be read. *)
Theorem multiplyMatrix_associative (a b c t1 t2 r1 r2 : Z) (m : float_memory Q) (idx : Z) :
  disjoint_matrices t1 c -> disjoint_matrices t2 a -> 0 <= idx < 16 ->
  Qeq (multiplyMatrix r1 t1 c (multiplyMatrix t1 a b m) (r1 + idx))
      (multiplyMatrix r2 a t2 (multiplyMatrix t2 b c m) (r2 + idx)).
Proof.
  intros Ht1 Ht2 Hidx. unfold disjoint_matrices in Ht1, Ht2.
  rewrite !multiplyMatrix_result by exact Hidx.
  rewrite (matrix_product_ext
             (matrix_at (multiplyMatrix t1 a b m) t1)
             (matrix_product (matrix_at m a) (matrix_at m b))
             (matrix_at (multiplyMatrix t1 a b m) c) (matrix_at m c)); cycle 1.
  { intros i Hi. unfold matrix_at. now apply multiplyMatrix_result. }
  { intros i Hi. unfold matrix_at. apply multiplyMatrix_frame. lia. }
  { exact Hidx. }
  rewrite (matrix_product_ext
             (matrix_at (multiplyMatrix t2 b c m) a) (matrix_at m a)
             (matrix_at (multiplyMatrix t2 b c m) t2)
             (matrix_product (matrix_at m b) (matrix_at m c))); cycle 1.
  { intros i Hi. unfold matrix_at. apply multiplyMatrix_frame. lia. }
  { intros i Hi. unfold matrix_at. now apply multiplyMatrix_result. }
  { exact Hidx. }
  now apply matrix_product_assoc_exact.
Qed.

Lemma multiplyMatrix_associative_witness :
  disjoint_matrices 48 32 /\ disjoint_matrices 64 0 /\ 0 <= 7 < 16 /\
  Qeq (multiplyMatrix 80 48 32 (multiplyMatrix 48 0 16 (fun i => inject_Z i)) (80 + 7))
      (multiplyMatrix 96 0 64 (multiplyMatrix 64 16 32 (fun i => inject_Z i)) (96 + 7)).
Proof.
  assert (H1 : disjoint_matrices 48 32) by (right; vm_compute; congruence).
  assert (H2 : disjoint_matrices 64 0) by (right; vm_compute; congruence).
  assert (Hidx : 0 <= 7 < 16) by (vm_compute; split; congruence).
  split; [exact H1|]. split; [exact H2|]. split; [exact Hidx|].
  exact (multiplyMatrix_associative 0 16 32 48 64 80 96 (fun i => inject_Z i) 7 H1 H2 Hidx).
Defined.

Module ExactFrameMatrices.
Import ExactBounce.

Lemma aspect_at_least_one (g : gl_globals) :
  0 < g_height g ->
  fleb (of_int 1) (aspect_of g : Q) = true <-> g_height g <= g_width g.
Proof.
  intros Hh. unfold aspect_of. cbn [fleb fdiv of_int exact_arith].
  rewrite Qle_bool_iff.
  assert (HhQ : (0 < inject_Z (g_height g))%Q).
  { change 0%Q with (inject_Z 0). rewrite <- Zlt_Qlt. exact Hh. }
  rewrite Zle_Qle. change (inject_Z 1) with 1%Q. split; intros Hle.
  - apply Qle_shift_div_l in Hle || idtac.
    assert (E : (inject_Z (g_width g) ==
                 inject_Z (g_width g) / inject_Z (g_height g) * inject_Z (g_height g))%Q)
      by (field; lra).
    rewrite E. nra.
  - apply Qle_shift_div_l; [exact HhQ | lra].
Qed.

(** The cells of the model matrix of a frame: the translation with the
    two scale factors stored over its cells 0 and 5. *)
Lemma model_cells (mm : Z) (tx ty sx sy : Q) (m : float_memory Q) (i : Z) :
  0 <= i < 16 ->
  fstore (fstore (createTranslationMatrix mm tx ty m) (mm + 0) sx) (mm + 5) sy (mm + i)
  = if i =? 5 then sy else if i =? 0 then sx else translation_matrix tx ty i.
Proof.
  intros Hi. rewrite !fstore_offset. now rewrite createTranslationMatrix_cell.
Qed.

(** The position the shader computes for a vertex, from the matrix of a
    frame. *)
Lemma vertex_of_frame (projectionMatrix modelMatrix mvpMatrix : Z)
    (g : gl_globals) (s : circle_state Q) (m : float_memory Q) (x y : Q) :
  0 < g_width g -> 0 < g_height g ->
  disjoint_matrices projectionMatrix modelMatrix ->
  let aspect := (inject_Z (g_width g) / inject_Z (g_height g))%Q in
  let M := matrix_at (renderFrame_matrices projectionMatrix modelMatrix mvpMatrix g s m)
             mvpMatrix in
  exists px py pz pw,
    gl_Position M x y = (px, py, pz, pw) /\
    (g_height g <= g_width g ->
       (px == (1 # 10) * x + (2 * g_circleX s - 1) * aspect)%Q /\
       (py == (1 # 10) * y + (2 * g_circleY s - 1))%Q) /\
    (g_width g < g_height g ->
       (px == (1 # 10) * aspect * x + (2 * g_circleX s - 1) * aspect)%Q /\
       (py == (1 # 10) * aspect * y + (2 * g_circleY s - 1))%Q) /\
    (pz == 0)%Q /\ (pw == 1)%Q.
Proof.
  intros Hw Hh Hdis aspect M. unfold disjoint_matrices in Hdis.
  assert (HwQ : (0 < inject_Z (g_width g))%Q).
  { change 0%Q with (inject_Z 0). rewrite <- Zlt_Qlt. exact Hw. }
  assert (HhQ : (0 < inject_Z (g_height g))%Q).
  { change 0%Q with (inject_Z 0). rewrite <- Zlt_Qlt. exact Hh. }
  assert (Hw0 : ~ (inject_Z (g_width g) == 0)%Q) by lra.
  assert (Hh0 : ~ (inject_Z (g_height g) == 0)%Q) by lra.
  pose proof (aspect_at_least_one g Hh) as Hbranch.
  unfold gl_Position. do 4 eexists. split; [reflexivity|].
  unfold M, matrix_at, renderFrame_matrices. cbv zeta.
  rewrite !multiplyMatrix_result by lia.
  destruct (fleb (of_int 1) (aspect_of g : Q)) eqn:Hcmp.
  - assert (Hge : g_height g <= g_width g) by (now apply Hbranch).
    match goal with
    | |- context [matrix_product (matrix_at ?mem projectionMatrix) (matrix_at ?mem modelMatrix)] =>
        assert (Hprod : forall idx, 0 <= idx < 16 ->
          matrix_product (matrix_at mem projectionMatrix) (matrix_at mem modelMatrix) idx
          = matrix_product
              (ortho_matrix (fopp (aspect_of g)) (aspect_of g) (fopp (of_int 1)) (of_int 1))
              (fun i => if i =? 5 then g_circleRadius
                        else if i =? 0 then fmul g_circleRadius (aspect_of g)
                        else translation_matrix
                               (fmul (fsub (fmul (g_circleX s) (of_int 2)) (of_int 1))
                                     (aspect_of g))
                               (fsub (fmul (g_circleY s) (of_int 2)) (of_int 1)) i)
              idx)
    end.
    { intros idx Hidx. apply matrix_product_ext; [| | exact Hidx].
      - intros i Hi. unfold matrix_at.
        rewrite !fstore_other by lia.
        rewrite createTranslationMatrix_frame by lia.
        now apply createOrthoMatrix_cell.
      - intros i Hi. unfold matrix_at. now apply model_cells. }
    rewrite !Hprod by lia. clear Hprod.
    split; [|split].
    + intros _. unfold aspect.
      cbv -[Qplus Qmult Qeq Qdiv Qminus Qopp inject_Z g_width g_height g_circleX g_circleY].
      split; field; split; try assumption; lra.
    + intros Hlt. lia.
    + cbv -[Qplus Qmult Qeq Qdiv Qminus Qopp inject_Z g_width g_height g_circleX g_circleY].
      split; field; split; try assumption; lra.
  - assert (Hlt : g_width g < g_height g).
    { destruct (Z.le_gt_cases (g_height g) (g_width g)) as [Hle | Hgt]; [|lia].
      apply Hbranch in Hle. congruence. }
    match goal with
    | |- context [matrix_product (matrix_at ?mem projectionMatrix) (matrix_at ?mem modelMatrix)] =>
        assert (Hprod : forall idx, 0 <= idx < 16 ->
          matrix_product (matrix_at mem projectionMatrix) (matrix_at mem modelMatrix) idx
          = matrix_product
              (ortho_matrix (fopp (of_int 1)) (of_int 1)
                 (fdiv (fopp (of_int 1)) (aspect_of g)) (fdiv (of_int 1) (aspect_of g)))
              (fun i => if i =? 5 then g_circleRadius
                        else if i =? 0 then fmul g_circleRadius (aspect_of g)
                        else translation_matrix
                               (fmul (fsub (fmul (g_circleX s) (of_int 2)) (of_int 1))
                                     (aspect_of g))
                               (fsub (fmul (g_circleY s) (of_int 2)) (of_int 1)) i)
              idx)
    end.
    { intros idx Hidx. apply matrix_product_ext; [| | exact Hidx].
      - intros i Hi. unfold matrix_at.
        rewrite !fstore_other by lia.
        rewrite createTranslationMatrix_frame by lia.
        now apply createOrthoMatrix_cell.
      - intros i Hi. unfold matrix_at. now apply model_cells. }
    rewrite !Hprod by lia. clear Hprod.
    split; [|split].
    + intros Hge. lia.
    + intros _. unfold aspect.
      cbv -[Qplus Qmult Qeq Qdiv Qminus Qopp inject_Z g_width g_height g_circleX g_circleY].
      split; field; repeat split; try assumption; lra.
    + cbv -[Qplus Qmult Qeq Qdiv Qminus Qopp inject_Z g_width g_height g_circleX g_circleY].
      split; field; repeat split; try assumption; lra.
Qed.

End ExactFrameMatrices.

(** X12. Where a frame puts a vertex.  In exact arithmetic, for a surface
    of positive width and height and local arrays that do not overlap,
    the matrix [renderFrame] hands to the shader sends the vertex [(x, y)]
    of the unit circle to
    - [(r x + (2 g_circleX - 1) aspect, r y + (2 g_circleY - 1), 0, 1)]
      when the surface is at least as wide as high, and to
    - [(r aspect x + (2 g_circleX - 1) aspect,
        r aspect y + (2 g_circleY - 1), 0, 1)] when it is higher than wide,
    with [r] the circle radius 1/10 and [aspect = width / height].
    ([multiplyMatrix] takes the projection as the left operand of its
    row-major product; read column-major, as the shader does, the
    projection acts on the vertex first and the model matrix second, so
    the scale of the projection reaches the radius and not the offset of
    the centre.) *)
Theorem renderFrame_vertex_position (projectionMatrix modelMatrix mvpMatrix : Z)
    (g : gl_globals) (s : circle_state Q) (m : float_memory Q) (x y : Q) :
  0 < g_width g -> 0 < g_height g ->
  disjoint_matrices projectionMatrix modelMatrix ->
  let aspect := (inject_Z (g_width g) / inject_Z (g_height g))%Q in
  let M := matrix_at (renderFrame_matrices projectionMatrix modelMatrix mvpMatrix g s m)
             mvpMatrix in
  exists px py pz pw,
    gl_Position M x y = (px, py, pz, pw) /\
    (g_height g <= g_width g ->
       (px == (1 # 10) * x + (2 * g_circleX s - 1) * aspect)%Q /\
       (py == (1 # 10) * y + (2 * g_circleY s - 1))%Q) /\
    (g_width g < g_height g ->
       (px == (1 # 10) * aspect * x + (2 * g_circleX s - 1) * aspect)%Q /\
       (py == (1 # 10) * aspect * y + (2 * g_circleY s - 1))%Q) /\
    (pz == 0)%Q /\ (pw == 1)%Q.
Proof.
  intros Hw Hh Hdis aspect M.
  exact (ExactFrameMatrices.vertex_of_frame projectionMatrix modelMatrix mvpMatrix g s m x y
           Hw Hh Hdis).
Qed.

Lemma renderFrame_vertex_position_witness :
  0 < g_width landscape_globals /\ 0 < g_height landscape_globals /\
  disjoint_matrices 0 16 /\
  exists px py pz pw,
    gl_Position (matrix_at (renderFrame_matrices 0 16 32 landscape_globals
                              (initial_circle : circle_state Q) (fun _ => 0%Q)) 32)
                (1 # 1)%Q (0 # 1)%Q = (px, py, pz, pw) /\
    (pz == 0)%Q /\ (pw == 1)%Q.
Proof.
  assert (Hw : 0 < g_width landscape_globals) by reflexivity.
  assert (Hh : 0 < g_height landscape_globals) by reflexivity.
  assert (Hdis : disjoint_matrices 0 16) by (left; vm_compute; congruence).
  split; [exact Hw|]. split; [exact Hh|]. split; [exact Hdis|].
  destruct (renderFrame_vertex_position 0 16 32 landscape_globals
              (initial_circle : circle_state Q) (fun _ => 0%Q) (1 # 1)%Q (0 # 1)%Q Hw Hh Hdis)
    as (px & py & pz & pw & E & _ & _ & Hz & Hone).
  exists px, py, pz, pw. split; [exact E|]. split; [exact Hz | exact Hone].
Defined.

(** *** The circle's vertices *)

Lemma vertex_index (i : Z) :
  0 <= i < 2 ^ 30 - 1 ->
  int_add (int_mul (int_add i 1) 2) 0 = 2 * (i + 1) /\
  int_add (int_mul (int_add i 1) 2) 1 = 2 * (i + 1) + 1.
Proof.
  intros Hi. unfold int_add, int_mul.
  rewrite (int_wrap_id (i + 1)) by (unfold INT_MIN, INT_MAX; lia).
  rewrite (int_wrap_id ((i + 1) * 2)) by (unfold INT_MIN, INT_MAX; lia).
  rewrite !int_wrap_id by (unfold INT_MIN, INT_MAX; lia). lia.
Qed.

(** The loop of [generateCircleVertices] from step [i] on: [cos_of k] and
    [sin_of k] are the two values stored for step [k]. *)
Lemma vertex_loop {F : Type} (cos_of sin_of : Z -> F) (vertices : Z) (n : nat) :
  forall i (m : float_memory F), 0 <= i -> i + Z.of_nat n <= 2 ^ 30 - 1 ->
    let loop :=
      for_loop n i (fun i m =>
        fstore (fstore m (vertices + int_add (int_mul (int_add i 1) 2) 0) (cos_of i))
               (vertices + int_add (int_mul (int_add i 1) 2) 1) (sin_of i)) m in
    (forall addr,
       ~ (vertices + 2 * (i + 1) <= addr < vertices + 2 * (i + Z.of_nat n + 1)) ->
       loop addr = m addr) /\
    (forall k, i <= k < i + Z.of_nat n ->
       loop (vertices + 2 * (k + 1)) = cos_of k /\
       loop (vertices + 2 * (k + 1) + 1) = sin_of k).
Proof.
  induction n as [|n IH]; intros i m Hi Hn; cbn [for_loop]; cbv zeta.
  - split; [reflexivity | intros k Hk; lia].
  - match goal with
    | |- context [for_loop n (i + 1) _ ?mem] =>
        destruct (IH (i + 1) mem ltac:(lia) ltac:(lia)) as [IHframe IHval]
    end.
    cbv zeta in IHframe, IHval.
    destruct (vertex_index i ltac:(lia)) as [E0 E1].
    split.
    + intros addr Hout. rewrite IHframe by lia.
      rewrite E0, E1. rewrite !fstore_other by lia. reflexivity.
    + intros k Hk. destruct (Z.eq_dec k i) as [-> | Hne].
      * rewrite !IHframe by lia. rewrite E0, E1. split.
        -- rewrite fstore_other by lia. unfold fstore. now rewrite Z.eqb_refl.
        -- unfold fstore at 1.
           match goal with |- context [?a =? ?b] => destruct (Z.eqb_spec a b) end;
             [reflexivity | lia].
      * apply IHval. lia.
Qed.

(** X13. [generateCircleVertices] fills exactly [(segmentCount + 2) * 2]
    floats.  For [0 <= segmentCount] (small enough for the indices to be
    [int]s), whatever the library computes for the angles, cosines and
    sines: the first two cells are the centre (0, 0), the cells
    [2 (i + 1)] and [2 (i + 1) + 1] are [radius * cosf(angle i)] and
    [radius * sinf(angle i)] for every [i] from 0 to [segmentCount], and
    no cell outside [vertices[0 .. (segmentCount + 2) * 2 - 1]] is
    written.  For the 64 segments of [initGL] these are the 132 floats of
    the array declared there. *)
Theorem generateCircleVertices_fills_array {F : Type} `{FloatArith F}
    (angle_of : Z -> Z -> F) (cosf sinf : F -> F)
    (vertices segmentCount : Z) (radius : F) (m : float_memory F) :
  0 <= segmentCount < 2 ^ 30 - 1 ->
  let out := generateCircleVertices angle_of cosf sinf vertices segmentCount radius m in
  out vertices = of_int 0 /\
  out (vertices + 1) = of_int 0 /\
  (forall i, 0 <= i <= segmentCount ->
     out (vertices + 2 * (i + 1)) = fmul radius (cosf (angle_of i segmentCount)) /\
     out (vertices + 2 * (i + 1) + 1) = fmul radius (sinf (angle_of i segmentCount))) /\
  (forall addr, ~ (vertices <= addr < vertices + (segmentCount + 2) * 2) ->
     out addr = m addr).
Proof.
  intros Hseg out. subst out. unfold generateCircleVertices, for_range. cbv zeta.
  rewrite Z.sub_0_r.
  match goal with
  | |- context [for_loop ?n 0 _ ?mem] =>
      destruct (vertex_loop (fun i => fmul radius (cosf (angle_of i segmentCount)))
                  (fun i => fmul radius (sinf (angle_of i segmentCount)))
                  vertices n 0 mem ltac:(lia) ltac:(lia)) as [Hframe Hval]
  end.
  cbv zeta in Hframe, Hval.
  split; [|split; [|split]].
  - rewrite Hframe by lia. rewrite fstore_other by lia.
    unfold fstore. destruct (Z.eqb_spec vertices (vertices + 0)); [reflexivity | lia].
  - rewrite Hframe by lia. unfold fstore at 1. now rewrite Z.eqb_refl.
  - intros i Hi. apply Hval. lia.
  - intros addr Hout. rewrite Hframe by lia. rewrite !fstore_other by lia. reflexivity.
Qed.

Lemma generateCircleVertices_fills_array_witness :
  0 <= 64 < 2 ^ 30 - 1 /\
  forall addr, ~ (0 <= addr < 0 + (64 + 2) * 2) ->
    generateCircleVertices (fun i n => (inject_Z i / inject_Z n)%Q) (fun a => a) (fun a => a)
      0 64 (1 # 1)%Q (fun _ => (7 # 1)%Q) addr = (7 # 1)%Q.
Proof.
  assert (Hseg : 0 <= 64 < 2 ^ 30 - 1) by (vm_compute; split; congruence).
  split; [exact Hseg|].
  exact (proj2 (proj2 (proj2
           (generateCircleVertices_fills_array
              (fun i n => (inject_Z i / inject_Z n)%Q) (fun a => a) (fun a => a)
              0 64 (1 # 1)%Q (fun _ => (7 # 1)%Q) Hseg)))).
Defined.

(** ** The GPU renderer: initialization and cleanup *)

Lemma fresh_buffer_unused (bufs : gmap positive Z) : bufs !! fresh (dom bufs) = None.
Proof. apply not_elem_of_dom. apply is_fresh. Qed.

Lemma initGL_result (drv : gl_driver) (g : gl_globals) (c : gl_context) :
  gl_wf c ->
  let n1 := fresh (dom (objects c)) in
  let objs1 := <[n1 := ShaderObject GL_VERTEX_SHADER vertexShaderSource true false]> (objects c) in
  let n2 := fresh (dom objs1) in
  let objs2 := <[n2 := ShaderObject GL_FRAGMENT_SHADER fragmentShaderSource true false]> objs1 in
  let p := fresh (dom objs2) in
  let vbo := fresh (dom (buffers c)) in
  initGL drv g c =
    if creation_succeeds drv (objects c) && compiles drv GL_VERTEX_SHADER vertexShaderSource &&
       (creation_succeeds drv objs1 && compiles drv GL_FRAGMENT_SHADER fragmentShaderSource) &&
       creation_succeeds drv objs2 &&
       links drv [(GL_VERTEX_SHADER, vertexShaderSource);
                  (GL_FRAGMENT_SHADER, fragmentShaderSource)]
    then ((true, {| g_shaderProgram := Zpos p;
                    g_mvpMatrixLocation := uniform_location drv "uMVPMatrix";
                    g_colorLocation := uniform_location drv "uColor";
                    g_vbo := Zpos vbo; g_width := g_width g; g_height := g_height g |}),
          {| objects :=
               <[n2 := ShaderObject GL_FRAGMENT_SHADER fragmentShaderSource true true]>
                 (<[n1 := ShaderObject GL_VERTEX_SHADER vertexShaderSource true true]>
                    (<[p := ProgramObject [n1; n2] true false]> objs2));
             current_program := current_program c;
             buffers := <[vbo := 528]> (buffers c);
             array_buffer := Zpos vbo |})
    else ((false, {| g_shaderProgram := 0;
                     g_mvpMatrixLocation := g_mvpMatrixLocation g;
                     g_colorLocation := g_colorLocation g;
                     g_vbo := g_vbo g; g_width := g_width g; g_height := g_height g |}), c).
Proof.
  intros Hwf n1 objs1 n2 objs2 p vbo.
  unfold initGL, gl_bind.
  rewrite (createProgram_result drv vertexShaderSource fragmentShaderSource c Hwf).
  cbv zeta. fold n1. fold objs1. fold n2. fold objs2. fold p.
  match goal with |- context [if ?cond then (Z.pos p, _) else _] => destruct cond end.
  - cbn [g_shaderProgram Z.eqb]. unfold glGenBuffers1, glBindBuffer_ARRAY, glBufferData_ARRAY, gl_ret.
    cbn [objects current_program buffers array_buffer set_objects
         g_shaderProgram g_width g_height].
    fold vbo. rewrite alter_insert_eq. reflexivity.
  - reflexivity.
Qed.

(** X14. What [initGL] leaves in the context.  In a context whose
    attachments and current program name existing objects, [initGL]
    returns [true] exactly when the driver creates both shader objects
    and the program object, compiles both stages and links them.  Then the
    context holds three objects more than before - the linked program with
    the two stages attached, and the two shaders, flagged for deletion and
    kept by their attachment - and one buffer more, of 528 bytes (132
    floats), bound to [GL_ARRAY_BUFFER]; the statics hold the program, the
    two uniform locations and the buffer.  In every other case, a failure
    to create an object included, the context is the one before the call
    and [g_shaderProgram] is 0. *)
Theorem initGL_outcome (drv : gl_driver) (g : gl_globals) (c : gl_context) :
  gl_wf c ->
  let n1 := fresh (dom (objects c)) in
  let objs1 := <[n1 := ShaderObject GL_VERTEX_SHADER vertexShaderSource true false]> (objects c) in
  let n2 := fresh (dom objs1) in
  let objs2 := <[n2 := ShaderObject GL_FRAGMENT_SHADER fragmentShaderSource true false]> objs1 in
  let p := fresh (dom objs2) in
  let vbo := fresh (dom (buffers c)) in
  initGL drv g c =
    if creation_succeeds drv (objects c) && compiles drv GL_VERTEX_SHADER vertexShaderSource &&
       (creation_succeeds drv objs1 && compiles drv GL_FRAGMENT_SHADER fragmentShaderSource) &&
       creation_succeeds drv objs2 &&
       links drv [(GL_VERTEX_SHADER, vertexShaderSource);
                  (GL_FRAGMENT_SHADER, fragmentShaderSource)]
    then ((true, {| g_shaderProgram := Zpos p;
                    g_mvpMatrixLocation := uniform_location drv "uMVPMatrix";
                    g_colorLocation := uniform_location drv "uColor";
                    g_vbo := Zpos vbo; g_width := g_width g; g_height := g_height g |}),
          {| objects :=
               <[n2 := ShaderObject GL_FRAGMENT_SHADER fragmentShaderSource true true]>
                 (<[n1 := ShaderObject GL_VERTEX_SHADER vertexShaderSource true true]>
                    (<[p := ProgramObject [n1; n2] true false]> objs2));
             current_program := current_program c;
             buffers := <[vbo := 528]> (buffers c);
             array_buffer := Zpos vbo |})
    else ((false, {| g_shaderProgram := 0;
                     g_mvpMatrixLocation := g_mvpMatrixLocation g;
                     g_colorLocation := g_colorLocation g;
                     g_vbo := g_vbo g; g_width := g_width g; g_height := g_height g |}), c).
Proof. exact (initGL_result drv g c). Qed.

Lemma initGL_outcome_witness :
  gl_wf empty_context /\
  fst (fst (initGL accepting_driver initial_globals empty_context)) = true /\
  buffers (snd (initGL accepting_driver initial_globals empty_context))
    = <[fresh (dom (buffers empty_context)) := 528]> (buffers empty_context).
Proof.
  assert (Hwf : gl_wf empty_context).
  { split; cbn [objects current_program empty_context].
    - intros p att lnk fl s Hp. rewrite lookup_empty in Hp. discriminate.
    - intros n Hn. discriminate. }
  split; [exact Hwf|].
  pose proof (initGL_outcome accepting_driver initial_globals empty_context Hwf) as Hout.
  cbv zeta in Hout. cbn [accepting_driver creation_succeeds compiles links andb] in Hout.
  rewrite Hout. split; reflexivity.
Defined.

(** The objects of a successful [initGL] go with the program: deleting the
    program detaches the two flagged shaders, and they go too. *)
Lemma program_objects_released (c : gl_context) (vsrc fsrc : string) :
  gl_wf c ->
  let n1 := fresh (dom (objects c)) in
  let objs1 := <[n1 := ShaderObject GL_VERTEX_SHADER vsrc true false]> (objects c) in
  let n2 := fresh (dom objs1) in
  let objs2 := <[n2 := ShaderObject GL_FRAGMENT_SHADER fsrc true false]> objs1 in
  let p := fresh (dom objs2) in
  let objs3 := <[n2 := ShaderObject GL_FRAGMENT_SHADER fsrc true true]>
                 (<[n1 := ShaderObject GL_VERTEX_SHADER vsrc true true]>
                    (<[p := ProgramObject [n1; n2] true false]> objs2)) in
  n1 <> n2 /\ n1 <> p /\ n2 <> p /\
  objects c !! n1 = None /\ objects c !! n2 = None /\ objects c !! p = None /\
  objs3 !! p = Some (ProgramObject [n1; n2] true false) /\
  fold_left release_detached [n1; n2] (delete p objs3) = objects c.
Proof.
  intros Hwf n1 objs1 n2 objs2 p objs3.
  pose proof Hwf as [Hatt Hcur].
  assert (Hn1 : objects c !! n1 = None) by apply fresh_unused.
  assert (Hn2 : objs1 !! n2 = None) by apply fresh_unused.
  assert (Hp : objs2 !! p = None) by apply fresh_unused.
  assert (N12 : n1 <> n2).
  { intros E. rewrite <- E in Hn2. unfold objs1 in Hn2.
    rewrite lookup_insert_eq in Hn2. discriminate. }
  assert (N2p : n2 <> p).
  { intros E. rewrite <- E in Hp. unfold objs2 in Hp.
    rewrite lookup_insert_eq in Hp. discriminate. }
  assert (N1p : n1 <> p).
  { intros E. rewrite <- E in Hp. unfold objs2, objs1 in Hp.
    rewrite lookup_insert_ne, lookup_insert_eq in Hp by congruence. discriminate. }
  assert (Hn2' : objects c !! n2 = None).
  { unfold objs1 in Hn2. now rewrite lookup_insert_ne in Hn2 by congruence. }
  assert (Hp' : objects c !! p = None).
  { unfold objs2, objs1 in Hp. now rewrite !lookup_insert_ne in Hp by congruence. }
  repeat (split; [assumption|]).
  split.
  { unfold objs3. rewrite !lookup_insert_ne by congruence. apply lookup_insert_eq. }
  assert (E : delete p objs3 =
              <[n2 := ShaderObject GL_FRAGMENT_SHADER fsrc true true]>
                (<[n1 := ShaderObject GL_VERTEX_SHADER vsrc true true]> (objects c))).
  { apply map_eq. intros k. unfold objs3, objs2, objs1.
    destruct (decide (k = p)) as [-> | Hkp].
    - rewrite lookup_delete_eq, !lookup_insert_ne by congruence. now rewrite Hp'.
    - rewrite lookup_delete_ne by congruence.
      destruct (decide (k = n2)) as [-> | Hk2]; [now rewrite !lookup_insert_eq|].
      rewrite !(lookup_insert_ne _ n2) by congruence.
      destruct (decide (k = n1)) as [-> | Hk1]; [now rewrite !lookup_insert_eq|].
      now rewrite !lookup_insert_ne by congruence. }
  rewrite E. cbn [fold_left].
  unfold release_detached at 2.
  rewrite lookup_insert_ne, lookup_insert_eq by congruence.
  rewrite not_attached_insert_shader
    by (apply (programs_after_insert_shader _ _ _ _ _ _ Hatt Hn1); now left).
  rewrite delete_insert_ne, delete_insert_id by (congruence || assumption).
  unfold release_detached. rewrite lookup_insert_eq.
  rewrite (programs_after_insert_shader _ _ _ _ _ _ Hatt Hn2') by now left.
  now rewrite delete_insert_id.
Qed.

(** X15. [cleanupGL] undoes [initGL].  From a context whose attachments
    and current program name existing objects, and statics that hold no
    buffer yet: whatever the driver decides, after [initGL] followed by
    [cleanupGL] the context has the objects, the buffers and the current
    program it had before, and the statics hold neither a program nor a
    buffer.  (When [initGL] had succeeded, the binding of
    [GL_ARRAY_BUFFER] is reset, as the bound buffer was deleted.) *)
Theorem initGL_cleanupGL_round_trip (drv : gl_driver) (g : gl_globals) (c : gl_context) :
  gl_wf c -> g_vbo g = 0 ->
  let initialized := initGL drv g c in
  let cleaned := cleanupGL (snd (fst initialized)) (snd initialized) in
  objects (snd cleaned) = objects c /\
  buffers (snd cleaned) = buffers c /\
  current_program (snd cleaned) = current_program c /\
  array_buffer (snd cleaned)
    = (if fst (fst initialized) then 0 else array_buffer c) /\
  g_shaderProgram (fst cleaned) = 0 /\
  g_vbo (fst cleaned) = 0.
Proof.
  intros Hwf Hvbo initialized cleaned. subst cleaned initialized.
  pose proof (initGL_result drv g c Hwf) as Hout. cbv zeta in Hout. rewrite Hout. clear Hout.
  destruct (program_objects_released c vertexShaderSource fragmentShaderSource Hwf)
    as (N12 & N1p & N2p & Hn1 & Hn2 & Hp & Hlook & Hrel).
  match goal with |- context [if ?cond then _ else _] => destruct cond end;
    cbn [fst snd].
  - unfold cleanupGL, gl_bind, gl_ret. cbn [g_vbo g_shaderProgram Z.eqb].
    unfold glDeleteBuffers1. cbn [objects current_program buffers array_buffer
                                  g_vbo g_shaderProgram Z.eqb].
    unfold glDeleteProgram. cbn [objects current_program buffers array_buffer].
    rewrite Hlook.
    destruct (Z.eqb_spec (current_program c)
                (Z.pos (fresh (dom
                   (<[fresh (dom (<[fresh (dom (objects c)) :=
                         ShaderObject GL_VERTEX_SHADER vertexShaderSource true false]>
                        (objects c))) :=
                        ShaderObject GL_FRAGMENT_SHADER fragmentShaderSource true false]>
                      (<[fresh (dom (objects c)) :=
                           ShaderObject GL_VERTEX_SHADER vertexShaderSource true false]>
                         (objects c))))))) as [Ecur | _].
    { destruct Hwf as [_ Hcur]. destruct (Hcur _ Ecur) as [o Ho]. congruence. }
    rewrite with_objects_eval. cbn [fst snd objects current_program buffers array_buffer
                                    set_objects g_vbo g_shaderProgram].
    rewrite Hrel, Pos.eqb_refl.
    rewrite delete_insert_id by apply fresh_buffer_unused.
    repeat split; reflexivity.
  - unfold cleanupGL, gl_bind, gl_ret. cbn [g_vbo g_shaderProgram]. rewrite Hvbo.
    cbn [Z.eqb fst snd g_vbo g_shaderProgram]. rewrite ?Hvbo. repeat split; reflexivity.
Qed.

Lemma initGL_cleanupGL_round_trip_witness :
  gl_wf empty_context /\ g_vbo initial_globals = 0 /\
  objects (snd (cleanupGL
                  (snd (fst (initGL accepting_driver initial_globals empty_context)))
                  (snd (initGL accepting_driver initial_globals empty_context))))
    = objects empty_context.
Proof.
  assert (Hwf : gl_wf empty_context).
  { split; cbn [objects current_program empty_context].
    - intros p att lnk fl s Hp. rewrite lookup_empty in Hp. discriminate.
    - intros n Hn. discriminate. }
  split; [exact Hwf|]. split; [reflexivity|].
  exact (proj1 (initGL_cleanupGL_round_trip accepting_driver initial_globals empty_context
                  Hwf eq_refl)).
Defined.

Lemma cleanupGL_eval (g : gl_globals) (c : gl_context) :
  cleanupGL g c =
    ({| g_shaderProgram := 0;
        g_mvpMatrixLocation := g_mvpMatrixLocation g;
        g_colorLocation := g_colorLocation g;
        g_vbo := 0; g_width := g_width g; g_height := g_height g |},
     let c1 := if g_vbo g =? 0 then c else snd (glDeleteBuffers1 (g_vbo g) c) in
     if g_shaderProgram g =? 0 then c1 else snd (glDeleteProgram (g_shaderProgram g) c1)).
Proof.
  destruct g as [prog mvp col vbo wd ht]. unfold cleanupGL, gl_bind, gl_ret.
  cbn [g_shaderProgram g_mvpMatrixLocation g_colorLocation g_vbo g_width g_height].
  destruct (Z.eqb_spec vbo 0) as [-> | Nvbo];
    cbn [g_shaderProgram g_mvpMatrixLocation g_colorLocation g_vbo g_width g_height
         glDeleteBuffers1 snd];
    destruct (Z.eqb_spec prog 0) as [-> | Nprog];
    cbn [g_shaderProgram g_mvpMatrixLocation g_colorLocation g_vbo g_width g_height];
    try reflexivity;
    match goal with
    | |- context [glDeleteProgram ?h ?ctx] => destruct (glDeleteProgram h ctx) as [[] c']
    end; reflexivity.
Qed.

(** X16. [cleanupGL] deletes at most once.  From any statics and any
    context, after one call the statics hold neither a buffer nor a
    program, and a second call directly after it changes nothing; with the
    initial statics the first call, too, changes nothing. *)
Theorem cleanupGL_idempotent (g : gl_globals) (c : gl_context) :
  let once := cleanupGL g c in
  g_vbo (fst once) = 0 /\
  g_shaderProgram (fst once) = 0 /\
  cleanupGL (fst once) (snd once) = once /\
  cleanupGL initial_globals c = (initial_globals, c).
Proof.
  intros once. subst once. rewrite (cleanupGL_eval g c). cbn [fst snd].
  split; [reflexivity|]. split; [reflexivity|]. split.
  - rewrite cleanupGL_eval. reflexivity.
  - rewrite cleanupGL_eval. reflexivity.
Qed.

(** X17. After a frame, [cleanupGL] does not free the program.
    [renderFrame] makes the program current, and a current program that
    is deleted is only flagged.  So when [initGL] has succeeded in a
    context without a current program and one frame has been rendered,
    [cleanupGL] clears [g_shaderProgram] and deletes the buffer, but the
    program object stays in the context - current, flagged for deletion,
    with its two shaders still attached. *)
Theorem cleanupGL_after_frame_keeps_program (drv : gl_driver) (g : gl_globals)
    (c : gl_context) :
  gl_wf c -> current_program c = 0 ->
  fst (fst (initGL drv g c)) = true ->
  let initialized := initGL drv g c in
  let drawn := snd (renderFrame_context (snd (fst initialized)) (snd initialized)) in
  let cleaned := cleanupGL (snd (fst initialized)) drawn in
  exists p n1 n2 : positive,
    g_shaderProgram (snd (fst initialized)) = Zpos p /\
    objects c !! p = None /\ objects c !! n1 = None /\ objects c !! n2 = None /\
    current_program drawn = Zpos p /\
    g_shaderProgram (fst cleaned) = 0 /\
    g_vbo (fst cleaned) = 0 /\
    current_program (snd cleaned) = Zpos p /\
    objects (snd cleaned) !! p = Some (ProgramObject [n1; n2] true true) /\
    is_Some (objects (snd cleaned) !! n1) /\
    is_Some (objects (snd cleaned) !! n2) /\
    buffers (snd cleaned) = buffers c.
Proof.
  intros Hwf Hcur Hok initialized drawn cleaned. subst cleaned drawn initialized.
  pose proof (initGL_result drv g c Hwf) as Hout. cbv zeta in Hout.
  rewrite Hout in Hok |- *. clear Hout.
  destruct (program_objects_released c vertexShaderSource fragmentShaderSource Hwf)
    as (N12 & N1p & N2p & Hn1 & Hn2 & Hp & Hlook & _).
  match type of Hok with context [if ?cond then _ else _] => destruct cond end;
    cbn [fst snd] in Hok |- *; [|discriminate].
  match type of Hp with _ !! ?p = None => exists p end.
  match type of Hn1 with _ !! ?n = None => exists n end.
  match type of Hn2 with _ !! ?n = None => exists n end.
  rewrite cleanupGL_eval.
  unfold renderFrame_context, gl_bind, glUseProgram, glBindBuffer_ARRAY.
  cbn [g_shaderProgram g_vbo objects current_program buffers array_buffer object_of
       fst snd].
  rewrite Hlook, Hcur. cbn [Z.eqb negb andb leave_current fst snd
                            objects current_program buffers array_buffer
                            g_shaderProgram g_vbo glDeleteBuffers1].
  unfold glDeleteProgram. cbn [objects current_program buffers array_buffer].
  rewrite Hlook, Z.eqb_refl, with_objects_eval.
  cbn [fst snd objects current_program buffers array_buffer set_objects].
  split; [reflexivity|]. split; [exact Hp|]. split; [exact Hn1|]. split; [exact Hn2|].
  split; [reflexivity|]. split; [reflexivity|]. split; [reflexivity|].
  split; [reflexivity|]. split; [apply lookup_insert_eq|].
  split; [|split].
  - rewrite !lookup_insert_ne, lookup_insert_eq by congruence. eexists; reflexivity.
  - rewrite lookup_insert_ne, lookup_insert_eq by congruence. eexists; reflexivity.
  - apply delete_insert_id, fresh_buffer_unused.
Qed.

Lemma cleanupGL_after_frame_keeps_program_witness :
  gl_wf empty_context /\ current_program empty_context = 0 /\
  fst (fst (initGL accepting_driver initial_globals empty_context)) = true /\
  exists p : positive,
    current_program
      (snd (cleanupGL
              (snd (fst (initGL accepting_driver initial_globals empty_context)))
              (snd (renderFrame_context
                      (snd (fst (initGL accepting_driver initial_globals empty_context)))
                      (snd (initGL accepting_driver initial_globals empty_context))))))
    = Zpos p.
Proof.
  assert (Hwf : gl_wf empty_context).
  { split; cbn [objects current_program empty_context].
    - intros p att lnk fl s Hp. rewrite lookup_empty in Hp. discriminate.
    - intros n Hn. discriminate. }
  assert (Hok : fst (fst (initGL accepting_driver initial_globals empty_context)) = true).
  { pose proof (initGL_result accepting_driver initial_globals empty_context Hwf) as Hout.
    cbv zeta in Hout. cbn [accepting_driver creation_succeeds compiles links andb] in Hout.
    rewrite Hout. reflexivity. }
  split; [exact Hwf|]. split; [reflexivity|]. split; [exact Hok|].
  destruct (cleanupGL_after_frame_keeps_program accepting_driver initial_globals empty_context
              Hwf eq_refl Hok)
    as (p & n1 & n2 & _ & _ & _ & _ & _ & _ & _ & Hcurrent & _).
  exists p. exact Hcurrent.
Defined.

(** X18. [compileShader] returns a fresh compiled shader or leaves
    nothing.  In a context whose attachments name existing objects, the
    call either returns 0 with the context unchanged - when the driver
    cannot create the object, or when the source does not compile and the
    new object has been deleted again - or returns a handle that named no
    object before and now names a compiled shader of the requested type
    with the given source, the only change to the context. *)
Theorem compileShader_outcome (drv : gl_driver) (shaderType : Z) (source : string)
    (c : gl_context) :
  gl_wf c ->
  (compileShader drv shaderType source c = (0, c) /\
   (creation_succeeds drv (objects c) = false \/ compiles drv shaderType source = false)) \/
  (exists n : positive,
     objects c !! n = None /\
     creation_succeeds drv (objects c) = true /\ compiles drv shaderType source = true /\
     compileShader drv shaderType source c =
       (Zpos n, set_objects c (<[n := ShaderObject shaderType source true false]> (objects c)))).
Proof.
  intros Hwf. rewrite (compileShader_result drv shaderType source c Hwf).
  destruct (creation_succeeds drv (objects c)) eqn:Hcreate;
    destruct (compiles drv shaderType source) eqn:Hcompile; cbn [andb].
  - right. exists (fresh (dom (objects c))).
    split; [apply fresh_unused|]. repeat split; reflexivity.
  - left. split; [reflexivity | now right].
  - left. split; [reflexivity | now left].
  - left. split; [reflexivity | now left].
Qed.

Lemma compileShader_outcome_witness :
  gl_wf empty_context /\
  ((compileShader fragment_rejecting_driver GL_FRAGMENT_SHADER fragmentShaderSource empty_context
      = (0, empty_context) /\
    (creation_succeeds fragment_rejecting_driver (objects empty_context) = false \/
     compiles fragment_rejecting_driver GL_FRAGMENT_SHADER fragmentShaderSource = false)) \/
   (exists n : positive,
      objects empty_context !! n = None /\
      creation_succeeds fragment_rejecting_driver (objects empty_context) = true /\
      compiles fragment_rejecting_driver GL_FRAGMENT_SHADER fragmentShaderSource = true /\
      compileShader fragment_rejecting_driver GL_FRAGMENT_SHADER fragmentShaderSource
        empty_context =
        (Zpos n, set_objects empty_context
                   (<[n := ShaderObject GL_FRAGMENT_SHADER fragmentShaderSource true false]>
                      (objects empty_context))))).
Proof.
  assert (Hwf : gl_wf empty_context).
  { split; cbn [objects current_program empty_context].
    - intros p att lnk fl s Hp. rewrite lookup_empty in Hp. discriminate.
    - intros n Hn. discriminate. }
  split; [exact Hwf|].
  exact (compileShader_outcome fragment_rejecting_driver GL_FRAGMENT_SHADER
           fragmentShaderSource empty_context Hwf).
Defined.

(** ** The GPU renderer: the animation over many frames *)

Section Speed.
Context {F : Type} `{FloatArith F}.
Hypothesis fopp_involutive : forall x : F, fopp (fopp x) = x.

Lemma axis_step_speed (pos vel : F) :
  snd (axis_step pos vel) = vel \/ snd (axis_step pos vel) = fopp vel.
Proof using Type.
  unfold axis_step. destruct (hits_edge (fadd pos vel)); [right | left]; reflexivity.
Qed.

Lemma animate_speed (n : nat) :
  forall s : circle_state F,
    (g_velocityX (animate n s) = g_velocityX s \/
     g_velocityX (animate n s) = fopp (g_velocityX s)) /\
    (g_velocityY (animate n s) = g_velocityY s \/
     g_velocityY (animate n s) = fopp (g_velocityY s)).
Proof using fopp_involutive.
  induction n as [|n IH]; intros s; cbn [animate].
  - split; left; reflexivity.
  - destruct (IH (updateAnimation s)) as [IHx IHy].
    destruct (updateAnimation_axes s) as (_ & Hvx & _ & Hvy).
    destruct (axis_step_speed (g_circleX s) (g_velocityX s)) as [Ex | Ex];
      destruct (axis_step_speed (g_circleY s) (g_velocityY s)) as [Ey | Ey];
      rewrite Hvx, Ex in IHx; rewrite Hvy, Ey in IHy;
      try rewrite fopp_involutive in IHx; try rewrite fopp_involutive in IHy; split; tauto.
Qed.

End Speed.

Lemma SFopp_involutive (x : spec_float) : SFopp (SFopp x) = x.
Proof. destruct x as [s | s | | s m e]; cbn [SFopp]; now rewrite ?negb_involutive. Qed.

Lemma Qopp_opp_eq (q : Q) : Qopp (Qopp q) = q.
Proof. destruct q as [n d]. unfold Qopp. cbn [Qnum Qden]. now rewrite Z.opp_involutive. Qed.

(** X19. The circle never changes speed.  After any number of frames,
    from any state, each velocity component is the initial one or its
    negation - in single precision (where negation is exact) and in exact
    arithmetic alike: [updateAnimation] only ever flips the sign. *)
Theorem animation_keeps_speed :
  (forall (n : nat) (s : circle_state spec_float),
     (g_velocityX (animate n s) = g_velocityX s \/
      g_velocityX (animate n s) = fopp (g_velocityX s)) /\
     (g_velocityY (animate n s) = g_velocityY s \/
      g_velocityY (animate n s) = fopp (g_velocityY s))) /\
  (forall (n : nat) (s : circle_state Q),
     (g_velocityX (animate n s) = g_velocityX s \/
      g_velocityX (animate n s) = fopp (g_velocityX s)) /\
     (g_velocityY (animate n s) = g_velocityY s \/
      g_velocityY (animate n s) = fopp (g_velocityY s))).
Proof.
  split; intros n s.
  - exact (@animate_speed spec_float binary32_arith SFopp_involutive n s).
  - exact (@animate_speed Q exact_arith Qopp_opp_eq n s).
Qed.

(** X20. The single-precision animation repeats itself.  The run from
    the renderer's initial state returns, at frame 365, to the very state
    of frame 41 - the same four [float] values - and so from frame 41 on
    the state of frame [n + 324] is the state of frame [n]. *)
Theorem animation_run_is_periodic (n : nat) :
  (41 <= n)%nat ->
  animate (n + 324) (initial_circle : circle_state spec_float) = animate n initial_circle.
Proof.
  intros Hn.
  replace (n + 324)%nat with (365 + (n - 41))%nat by lia.
  replace n with (41 + (n - 41))%nat at 2 by lia.
  rewrite !Binary32Run.animate_plus.
  exact (f_equal (animate (n - 41)) Binary32Run.run_cycle).
Qed.

Lemma animation_run_is_periodic_witness :
  (41 <= 50)%nat /\
  animate (50 + 324) (initial_circle : circle_state spec_float) = animate 50 initial_circle.
Proof.
  assert (Hn : (41 <= 50)%nat) by lia.
  split; [exact Hn|].
  exact (animation_run_is_periodic 50 Hn).
Defined.

(** X21. A bounce ends on the wall.  In exact arithmetic, when the
    advanced position has passed an edge, the position after
    [updateAnimation] is exactly the bound that was passed - 1/10 below,
    9/10 above - however far the step overshot: the overshoot is dropped,
    not reflected. *)
Theorem bounce_ends_on_the_wall (s : circle_state Q) :
  ((g_circleX s + g_velocityX s < 1 # 10)%Q -> (g_circleX (updateAnimation s) == 1 # 10)%Q) /\
  ((9 # 10 < g_circleX s + g_velocityX s)%Q -> (g_circleX (updateAnimation s) == 9 # 10)%Q) /\
  ((g_circleY s + g_velocityY s < 1 # 10)%Q -> (g_circleY (updateAnimation s) == 1 # 10)%Q) /\
  ((9 # 10 < g_circleY s + g_velocityY s)%Q -> (g_circleY (updateAnimation s) == 9 # 10)%Q).
Proof.
  destruct (updateAnimation_axes s) as (Hx & _ & Hy & _).
  rewrite Hx, Hy.
  destruct (ExactWall.axis_step_wall (g_circleX s) (g_velocityX s)) as [Hx1 Hx2].
  destruct (ExactWall.axis_step_wall (g_circleY s) (g_velocityY s)) as [Hy1 Hy2].
  repeat split; assumption.
Qed.

Lemma bounce_ends_on_the_wall_witness :
  (9 # 10 < g_circleX circle_before_edge + g_velocityX circle_before_edge)%Q /\
  (g_circleX (updateAnimation circle_before_edge) == 9 # 10)%Q.
Proof.
  assert (Hpast : (9 # 10 < g_circleX circle_before_edge + g_velocityX circle_before_edge)%Q)
    by (vm_compute; reflexivity).
  split; [exact Hpast|].
  exact (proj1 (proj2 (bounce_ends_on_the_wall circle_before_edge)) Hpast).
Defined.

(** *** A whole frame: update, then render *)

Module ExactScreen.
Import ExactBounce.

Lemma aspect_positive (g : gl_globals) :
  0 < g_width g -> 0 < g_height g ->
  (0 < inject_Z (g_width g) / inject_Z (g_height g))%Q.
Proof.
  intros Hw Hh.
  assert (HwQ : (0 < inject_Z (g_width g))%Q).
  { change 0%Q with (inject_Z 0). rewrite <- Zlt_Qlt. exact Hw. }
  assert (HhQ : (0 < inject_Z (g_height g))%Q).
  { change 0%Q with (inject_Z 0). rewrite <- Zlt_Qlt. exact Hh. }
  apply Qlt_shift_div_l; [exact HhQ | lra].
Qed.

Lemma aspect_at_most_one (g : gl_globals) :
  0 < g_height g -> g_width g <= g_height g ->
  (inject_Z (g_width g) / inject_Z (g_height g) <= 1)%Q.
Proof.
  intros Hh Hle.
  assert (HhQ : (0 < inject_Z (g_height g))%Q).
  { change 0%Q with (inject_Z 0). rewrite <- Zlt_Qlt. exact Hh. }
  apply Qle_shift_div_r; [exact HhQ|]. rewrite Zle_Qle in Hle. lra.
Qed.

Lemma aspect_above_five_fourths (g : gl_globals) :
  0 < g_height g -> 5 * g_height g < 4 * g_width g ->
  (5 # 4 < inject_Z (g_width g) / inject_Z (g_height g))%Q.
Proof.
  intros Hh Hwide.
  assert (HhQ : (0 < inject_Z (g_height g))%Q).
  { change 0%Q with (inject_Z 0). rewrite <- Zlt_Qlt. exact Hh. }
  apply Qlt_shift_div_l; [exact HhQ|].
  rewrite Zlt_Qlt, !inject_Z_mult in Hwide.
  change (inject_Z 5) with 5%Q in Hwide. change (inject_Z 4) with 4%Q in Hwide. lra.
Qed.

Lemma updated_centre_bounds (s : circle_state Q) :
  (1 # 10 <= g_circleX (updateAnimation s) <= 9 # 10)%Q /\
  (1 # 10 <= g_circleY (updateAnimation s) <= 9 # 10)%Q.
Proof.
  destruct (updateAnimation_axes s) as (Hx & _ & Hy & _). rewrite Hx, Hy.
  split; apply axis_step_bounds.
Qed.

End ExactScreen.

(** X22. On a surface that is not wider than high the circle stays on
    screen.  In exact arithmetic, for [0 < width <= height]: after
    [updateAnimation] from any state, the matrix of the following
    [renderFrame] sends every vertex [(x, y)] of the unit circle's
    bounding square, [-1 <= x, y <= 1], to a position with both
    coordinates within [[-1, 1]], the visible range. *)
Theorem circle_stays_on_screen_in_portrait (projectionMatrix modelMatrix mvpMatrix : Z)
    (g : gl_globals) (s : circle_state Q) (m : float_memory Q) (x y : Q) :
  0 < g_width g -> g_width g <= g_height g ->
  disjoint_matrices projectionMatrix modelMatrix ->
  (-1 <= x)%Q /\ (x <= 1)%Q -> (-1 <= y)%Q /\ (y <= 1)%Q ->
  exists px py pz pw,
    gl_Position (matrix_at (renderFrame_matrices projectionMatrix modelMatrix mvpMatrix g
                              (updateAnimation s) m) mvpMatrix) x y = (px, py, pz, pw) /\
    (-1 <= px)%Q /\ (px <= 1)%Q /\ (-1 <= py)%Q /\ (py <= 1)%Q.
Proof.
  intros Hw Hle Hdis [Hx1 Hx2] [Hy1 Hy2].
  assert (Hh : 0 < g_height g) by lia.
  destruct (ExactFrameMatrices.vertex_of_frame projectionMatrix modelMatrix mvpMatrix g
              (updateAnimation s) m x y Hw Hh Hdis)
    as (px & py & pz & pw & E & Hwide & Hhigh & _ & _).
  exists px, py, pz, pw. split; [exact E|].
  destruct (ExactScreen.updated_centre_bounds s) as [[Hcx1 Hcx2] [Hcy1 Hcy2]].
  pose proof (ExactScreen.aspect_positive g Hw Hh) as Ha0.
  pose proof (ExactScreen.aspect_at_most_one g Hh Hle) as Ha1.
  set (a := (inject_Z (g_width g) / inject_Z (g_height g))%Q) in *.
  set (cx := g_circleX (updateAnimation s)) in *.
  set (cy := g_circleY (updateAnimation s)) in *.
  destruct (Z.eq_dec (g_width g) (g_height g)) as [Esq | Hne].
  - destruct (Hwide ltac:(lia)) as [Hpx Hpy]. rewrite Hpx, Hpy.
    assert (Ea : (a == 1)%Q).
    { assert (HhQ : (0 < inject_Z (g_height g))%Q).
      { change 0%Q with (inject_Z 0). rewrite <- Zlt_Qlt. exact Hh. }
      unfold a. rewrite Esq. field. lra. }
    rewrite Ea. repeat split; lra.
  - destruct (Hhigh ltac:(lia)) as [Hpx Hpy]. rewrite Hpx, Hpy.
    repeat split; nra.
Qed.

Lemma circle_stays_on_screen_in_portrait_witness :
  0 < g_width portrait_globals /\ g_width portrait_globals <= g_height portrait_globals /\
  disjoint_matrices 0 16 /\
  exists px py pz pw,
    gl_Position (matrix_at (renderFrame_matrices 0 16 32 portrait_globals
                              (updateAnimation circle_before_edge) (fun _ => 0%Q)) 32)
                (1 # 1)%Q (1 # 1)%Q = (px, py, pz, pw) /\
    (-1 <= px)%Q /\ (px <= 1)%Q /\ (-1 <= py)%Q /\ (py <= 1)%Q.
Proof.
  assert (Hw : 0 < g_width portrait_globals) by reflexivity.
  assert (Hle : g_width portrait_globals <= g_height portrait_globals)
    by (vm_compute; congruence).
  assert (Hdis : disjoint_matrices 0 16) by (left; vm_compute; congruence).
  assert (Hone : (-1 <= 1 # 1)%Q /\ (1 # 1 <= 1)%Q) by (split; vm_compute; congruence).
  split; [exact Hw|]. split; [exact Hle|]. split; [exact Hdis|].
  exact (circle_stays_on_screen_in_portrait 0 16 32 portrait_globals circle_before_edge
           (fun _ => 0%Q) (1 # 1)%Q (1 # 1)%Q Hw Hle Hdis Hone Hone).
Defined.

(** X23. On a surface wider than 5 : 4 a bounce off the right edge is
    drawn outside the viewport.  In exact arithmetic, for
    [4 width > 5 height]: when the advanced position has passed 9/10,
    [updateAnimation] leaves the centre at 9/10, and the matrix of the
    following [renderFrame] sends the centre vertex [(0, 0)] of the fan to
    the horizontal position [(4/5) aspect], which is above 1. *)
Theorem wide_surface_bounce_leaves_viewport (projectionMatrix modelMatrix mvpMatrix : Z)
    (g : gl_globals) (s : circle_state Q) (m : float_memory Q) :
  0 < g_height g -> 5 * g_height g < 4 * g_width g ->
  disjoint_matrices projectionMatrix modelMatrix ->
  (9 # 10 < g_circleX s + g_velocityX s)%Q ->
  exists px py pz pw,
    gl_Position (matrix_at (renderFrame_matrices projectionMatrix modelMatrix mvpMatrix g
                              (updateAnimation s) m) mvpMatrix) (0 # 1)%Q (0 # 1)%Q
      = (px, py, pz, pw) /\
    (px == (4 # 5) * (inject_Z (g_width g) / inject_Z (g_height g)))%Q /\
    (1 < px)%Q.
Proof.
  intros Hh Hwide Hdis Hpast.
  assert (Hw : 0 < g_width g) by lia.
  destruct (ExactFrameMatrices.vertex_of_frame projectionMatrix modelMatrix mvpMatrix g
              (updateAnimation s) m (0 # 1)%Q (0 # 1)%Q Hw Hh Hdis)
    as (px & py & pz & pw & E & Hland & _ & _ & _).
  exists px, py, pz, pw. split; [exact E|].
  destruct (Hland ltac:(lia)) as [Hpx _].
  pose proof (ExactScreen.aspect_above_five_fourths g Hh Hwide) as Ha.
  destruct (updateAnimation_axes s) as (Hx & _ & _ & _).
  pose proof (proj2 (ExactWall.axis_step_wall (g_circleX s) (g_velocityX s)) Hpast) as Hwall.
  rewrite <- Hx in Hwall.
  set (a := (inject_Z (g_width g) / inject_Z (g_height g))%Q) in *.
  assert (Epx : (px == (4 # 5) * a)%Q).
  { rewrite Hpx, Hwall. ring. }
  split; [exact Epx|]. rewrite Epx. lra.
Qed.

Lemma wide_surface_bounce_leaves_viewport_witness :
  0 < g_height landscape_globals /\
  5 * g_height landscape_globals < 4 * g_width landscape_globals /\
  disjoint_matrices 0 16 /\
  (9 # 10 < g_circleX circle_before_edge + g_velocityX circle_before_edge)%Q /\
  exists px py pz pw,
    gl_Position (matrix_at (renderFrame_matrices 0 16 32 landscape_globals
                              (updateAnimation circle_before_edge) (fun _ => 0%Q)) 32)
                (0 # 1)%Q (0 # 1)%Q = (px, py, pz, pw) /\
    (px == (4 # 5) * (inject_Z (g_width landscape_globals)
                      / inject_Z (g_height landscape_globals)))%Q /\
    (1 < px)%Q.
Proof.
  assert (Hh : 0 < g_height landscape_globals) by reflexivity.
  assert (Hwide : 5 * g_height landscape_globals < 4 * g_width landscape_globals)
    by reflexivity.
  assert (Hdis : disjoint_matrices 0 16) by (left; vm_compute; congruence).
  assert (Hpast : (9 # 10 < g_circleX circle_before_edge + g_velocityX circle_before_edge)%Q)
    by (vm_compute; reflexivity).
  split; [exact Hh|]. split; [exact Hwide|]. split; [exact Hdis|]. split; [exact Hpast|].
  exact (wide_surface_bounce_leaves_viewport 0 16 32 landscape_globals circle_before_edge
           (fun _ => 0%Q) Hh Hwide Hdis Hpast).
Defined.
